(** * The replicated growable array of pkg/document/json (rga_tree_list.go)

    A shallow embedding of [RGATreeList]: a doubly linked list of nodes with
    tombstones, mirrored in an order-statistic index and in an identity map
    from creation tickets to nodes.  Go pointers are indices into an arena of
    allocated objects, [nil] is [None], a panic is an outcome that carries the
    state reached when it was raised, and every loop over the links is given
    fuel that a well-formed list never exhausts. *)

From Stdlib Require Import ZArith String Ascii.
From stdpp Require Import base option list gmap.

Local Open Scope Z_scope.

(** ** Tickets (package time) *)

Module time.

(** Modelled from the spec: the ticket type of pkg/document/time, which is not
    part of the excerpt.  A ticket is a logical timestamp ordered
    lexicographically by (logical time, replica id, delta); [After] is the
    strict comparison and [Key] the stable key used for map lookups. *)
Record Ticket : Type := mkTicket {
  lamport : N;
  actorID : N;
  delimiter : N
}.

#[global] Instance Ticket_eq_dec : EqDecision Ticket.
Proof. solve_decision. Defined.

Definition Compare (t other : Ticket) : comparison :=
  match (lamport t ?= lamport other)%N with
  | Eq =>
      match (actorID t ?= actorID other)%N with
      | Eq => (delimiter t ?= delimiter other)%N
      | c => c
      end
  | c => c
  end.

Definition After (t other : Ticket) : bool :=
  match Compare t other with
  | Gt => true
  | _ => false
  end.

Abbreviation TicketKey := (N * N * N)%type.

Definition Key (t : Ticket) : TicketKey := (lamport t, delimiter t, actorID t).

(** The minimum ticket, worn by the sentinel. *)
Definition InitialTicket : Ticket := mkTicket 0 0 0.

End time.

Import time.

(** ** Elements *)

(** Modelled from the spec: the element capability (the Element interface and
    its Primitive implementation live outside the excerpt).  An element
    exposes its creation ticket, its optional removal and move tickets, a
    removal mutator that reports whether it changed the tombstone, a
    move-ticket mutator and its textual marshal. *)
Record Element : Type := mkElement {
  createdAt : Ticket;
  movedAt : option Ticket;
  removedAt : option Ticket;
  marshalText : string
}.

#[global] Instance Element_eq_dec : EqDecision Element.
Proof. solve_decision. Defined.

Definition NewPrimitive (text : string) (t : Ticket) : Element :=
  mkElement t None None text.

Definition SetRemovedAt (e : Element) (t : Ticket) : Element :=
  mkElement (createdAt e) (movedAt e) (Some t) (marshalText e).

Definition SetMovedAt (e : Element) (t : Ticket) : Element :=
  mkElement (createdAt e) (Some t) (removedAt e) (marshalText e).

(** A removal is applied when the element is live or the ticket is strictly
    after the tombstone already there; the result says whether it was. *)
Definition Remove (e : Element) (t : Ticket) : Element * bool :=
  match removedAt e with
  | None => (SetRemovedAt e t, true)
  | Some r => if After t r then (SetRemovedAt e t, true) else (e, false)
  end.

(** ** The order-statistic index (package splay) *)

Abbreviation NodeRef := nat.
Abbreviation ElemRef := nat.

Module splay.

(** Modelled from the spec: the order-statistic tree of pkg/splay, which is
    not part of the excerpt.  The spec fixes its interface only: a rank query,
    insertion of a node immediately after a given tree node, deletion of a
    node, and rotation of a node to the root; a tree node weighs 1 when the
    list node it wraps is live and 0 when it is a tombstone.  The model keeps
    what that interface determines: the nodes in tree order and the node
    last placed at the root. *)
Record Tree : Type := mkTree {
  order : list NodeRef;
  root : option NodeRef
}.

#[global] Instance Tree_eq_dec : EqDecision Tree.
Proof. solve_decision. Defined.

Definition NewTree (n : NodeRef) : Tree := mkTree [n] (Some n).

Fixpoint insert_after (prev n : NodeRef) (l : list NodeRef) : list NodeRef :=
  match l with
  | [] => []
  | x :: r =>
      if decide (x = prev) then x :: n :: r else x :: insert_after prev n r
  end.

Definition InsertAfter (t : Tree) (prev n : NodeRef) : Tree :=
  mkTree (insert_after prev n (order t)) (Some n).

Fixpoint remove (n : NodeRef) (l : list NodeRef) : list NodeRef :=
  match l with
  | [] => []
  | x :: r => if decide (x = n) then r else x :: remove n r
  end.

Definition Delete (t : Tree) (n : NodeRef) : Tree :=
  mkTree (remove n (order t))
         (if decide (root t = Some n) then None else root t).

Definition Splay (t : Tree) (n : NodeRef) : Tree :=
  mkTree (order t) (Some n).

(** The rank query walks the nodes in tree order and subtracts the weights it
    passes: it answers the first node whose weight covers what is left of the
    rank, with that remainder as offset.  Rank 0 is answered by the first
    node with offset 0; a rank k >= 1 by the k-th live node with offset 1;
    a rank beyond the total weight has no answer. *)
Fixpoint find_from (weight : NodeRef -> Z) (l : list NodeRef) (offset : Z)
  : option (NodeRef * Z) :=
  match l with
  | [] => None
  | n :: r =>
      if offset <=? weight n then Some (n, offset)
      else find_from weight r (offset - weight n)
  end.

Definition Find (weight : NodeRef -> Z) (t : Tree) (index : Z)
  : option (NodeRef * Z) :=
  find_from weight (order t) index.

End splay.

(** ** Nodes and the list *)

Record RGATreeListNode : Type := mkNode {
  elem : ElemRef;
  prev : option NodeRef;
  next : option NodeRef
}.

#[global] Instance RGATreeListNode_eq_dec : EqDecision RGATreeListNode.
Proof. solve_decision. Defined.

(** The list together with the objects it points to: [elems] and [nodes] are
    the arenas of element and node objects, a reference is an index into its
    arena, and the index node of a list node is identified with that node. *)
Record RGATreeList : Type := mkList {
  elems : list Element;
  nodes : list RGATreeListNode;
  dummyHead : NodeRef;
  last : option NodeRef;
  size : Z;
  nodeMapByIndex : splay.Tree;
  nodeMapByCreatedAt : gmap TicketKey NodeRef
}.

Definition set_elems (f : list Element -> list Element) (a : RGATreeList) :=
  mkList (f (elems a)) (nodes a) (dummyHead a) (last a) (size a)
         (nodeMapByIndex a) (nodeMapByCreatedAt a).
Definition set_nodes (f : list RGATreeListNode -> list RGATreeListNode)
  (a : RGATreeList) :=
  mkList (elems a) (f (nodes a)) (dummyHead a) (last a) (size a)
         (nodeMapByIndex a) (nodeMapByCreatedAt a).
Definition set_last (p : option NodeRef) (a : RGATreeList) :=
  mkList (elems a) (nodes a) (dummyHead a) p (size a)
         (nodeMapByIndex a) (nodeMapByCreatedAt a).
Definition set_size (z : Z) (a : RGATreeList) :=
  mkList (elems a) (nodes a) (dummyHead a) (last a) z
         (nodeMapByIndex a) (nodeMapByCreatedAt a).
Definition set_index (t : splay.Tree) (a : RGATreeList) :=
  mkList (elems a) (nodes a) (dummyHead a) (last a) (size a)
         t (nodeMapByCreatedAt a).
Definition set_map (m : gmap TicketKey NodeRef) (a : RGATreeList) :=
  mkList (elems a) (nodes a) (dummyHead a) (last a) (size a)
         (nodeMapByIndex a) m.

(** Go's [int] is taken at 64 bits; the counter wraps as the machine does. *)
Definition int_wrap (z : Z) : Z := (z + 2 ^ 63) mod 2 ^ 64 - 2 ^ 63.

(** ** Outcomes and the state monad of the operations *)

Inductive Failure : Type :=
| UnknownCreatedAt (k : TicketKey)
    (* panic("fail to find the given createdAt: " + key) *)
| UnknownPrevCreatedAt (k : TicketKey)
    (* panic("fail to find the given prevCreatedAt: " + key) *)
| NilDereference
    (* a field or method of a nil pointer is used *)
| OutOfBound
    (* the rank query has no answer *)
| Diverges.
    (* the loop does not come to an end within the fuel *)

Inductive Outcome (A : Type) : Type :=
| Done (a : A) (s : RGATreeList)
| Panic (e : Failure) (s : RGATreeList).
Arguments Done {A} a s.
Arguments Panic {A} e s.

Definition M (A : Type) : Type := RGATreeList -> Outcome A.

Definition ret {A} (a : A) : M A := fun s => Done a s.
Definition bind {A B} (m : M A) (f : A -> M B) : M B :=
  fun s => match m s with
           | Done a s' => f a s'
           | Panic e s' => Panic e s'
           end.
Definition panic {A} (e : Failure) : M A := fun s => Panic e s.
Definition gets {A} (f : RGATreeList -> A) : M A := fun s => Done (f s) s.
Definition modify (f : RGATreeList -> RGATreeList) : M unit :=
  fun s => Done tt (f s).

Notation "'let*' x := m 'in' f" := (bind m (fun x => f))
  (at level 10, x binder, m at level 100, f at level 200,
   format "'[v' 'let*'  x  :=  m  'in' '/' f ']'").

(** Dereferencing: a node or element reference is read from its arena. *)
Definition load (n : NodeRef) : M RGATreeListNode :=
  fun s => match nodes s !! n with
           | Some nd => Done nd s
           | None => Panic NilDereference s
           end.

Definition deref (p : option NodeRef) : M NodeRef :=
  match p with
  | Some n => ret n
  | None => panic NilDereference
  end.

Definition getNext (n : NodeRef) : M (option NodeRef) :=
  let* nd := load n in ret (next nd).
Definition getPrev (n : NodeRef) : M (option NodeRef) :=
  let* nd := load n in ret (prev nd).
Definition setNext (n : NodeRef) (p : option NodeRef) : M unit :=
  let* nd := load n in
  modify (set_nodes (fun ns => <[n := mkNode (elem nd) (prev nd) p]> ns)).
Definition setPrev (n : NodeRef) (p : option NodeRef) : M unit :=
  let* nd := load n in
  modify (set_nodes (fun ns => <[n := mkNode (elem nd) p (next nd)]> ns)).

Definition loadElem (r : ElemRef) : M Element :=
  fun s => match elems s !! r with
           | Some e => Done e s
           | None => Panic NilDereference s
           end.
Definition storeElem (r : ElemRef) (e : Element) : M unit :=
  modify (set_elems (fun es => <[r := e]> es)).

(** [n.elem], read through the node. *)
Definition Element_of (n : NodeRef) : M Element :=
  let* nd := load n in loadElem (elem nd).

(** The caller's side of [NewPrimitive]: a new element object. *)
Definition allocElem (e : Element) : M ElemRef :=
  fun s => Done (length (elems s)) (set_elems (fun es => es ++ [e]) s).

(** ** Node methods *)

Definition newRGATreeListNode (e : ElemRef) : M NodeRef :=
  fun s => Done (length (nodes s))
                (set_nodes (fun ns => ns ++ [mkNode e None None]) s).

Definition newRGATreeListNodeAfter (prv : NodeRef) (e : ElemRef) : M NodeRef :=
  let* newNode := newRGATreeListNode e in
  let* prevNext := getNext prv in
  let* _ := setNext prv (Some newNode) in
  let* _ := setPrev newNode (Some prv) in
  let* _ := setNext newNode prevNext in
  let* _ := match prevNext with
            | Some pn => setPrev pn (Some newNode)
            | None => ret tt
            end in
  let* r := getNext prv in
  deref r.

Definition CreatedAt (n : NodeRef) : M Ticket :=
  let* e := Element_of n in ret (createdAt e).

Definition PositionedAt (n : NodeRef) : M Ticket :=
  let* e := Element_of n in
  match movedAt e with
  | Some m => ret m
  | None => ret (createdAt e)
  end.

Definition isRemoved (n : NodeRef) : M bool :=
  let* e := Element_of n in ret (bool_decide (removedAt e ≠ None)).

Definition node_Len (n : NodeRef) : M Z :=
  let* r := isRemoved n in if r then ret 0 else ret 1.

Definition String (n : NodeRef) : M string :=
  let* e := Element_of n in ret (marshalText e).

(** The weight the index sees for a node: its [Len]. *)
Definition weight (s : RGATreeList) (n : NodeRef) : Z :=
  match node_Len n s with
  | Done w _ => w
  | Panic _ _ => 0
  end.

(** ** The list operations *)

(** Fuel for one loop over the links: a chain without a cycle is shorter
    than the arena of nodes. *)
Definition fuel_of (s : RGATreeList) : nat := S (length (nodes s)).

Definition NewRGATreeList : RGATreeList :=
  let dummyValue := SetRemovedAt (NewPrimitive "0" InitialTicket) InitialTicket in
  mkList [dummyValue] [mkNode 0%nat None None] 0%nat (Some 0%nat) 0
         (splay.NewTree 0%nat)
         {[ Key (createdAt dummyValue) := 0%nat ]}.

Definition Len : M Z := gets size.

Definition lookupCreatedAt (k : TicketKey) : M (option NodeRef) :=
  gets (fun s => nodeMapByCreatedAt s !! k).

Fixpoint findNextBeforeExecutedAt_loop (fuel : nat) (node : NodeRef)
  (executedAt : Ticket) : M NodeRef :=
  match fuel with
  | O => panic Diverges
  | S fuel' =>
      let* nx := getNext node in
      match nx with
      | None => ret node
      | Some n' =>
          let* pos := PositionedAt n' in
          if After pos executedAt
          then findNextBeforeExecutedAt_loop fuel' n' executedAt
          else ret node
      end
  end.

Definition findNextBeforeExecutedAt (createdAt executedAt : Ticket) : M NodeRef :=
  let* found := lookupCreatedAt (Key createdAt) in
  match found with
  | None => panic (UnknownCreatedAt (Key createdAt))
  | Some node =>
      let* fuel := gets fuel_of in
      findNextBeforeExecutedAt_loop fuel node executedAt
  end.

Definition release (node : NodeRef) : M unit :=
  let* lst := gets last in
  let* _ := (if decide (lst = Some node)
             then let* p := getPrev node in modify (set_last p)
             else ret tt) in
  let* p := getPrev node in
  let* pn := deref p in
  let* nx := getNext node in
  let* _ := setNext pn nx in
  let* nx' := getNext node in
  let* _ := match nx' with
            | Some n' => let* p' := getPrev node in setPrev n' p'
            | None => ret tt
            end in
  let* _ := setPrev node None in
  let* _ := setNext node None in
  let* _ := modify (fun s => set_index (splay.Delete (nodeMapByIndex s) node) s) in
  let* c := CreatedAt node in
  let* _ := modify (fun s => set_map (delete (Key c) (nodeMapByCreatedAt s)) s) in
  let* r := isRemoved node in
  if r then ret tt else modify (fun s => set_size (int_wrap (size s - 1)) s).

Definition insertAfter (prevCreatedAt : Ticket) (value : ElemRef)
  (executedAt : Ticket) : M unit :=
  let* prevNode := findNextBeforeExecutedAt prevCreatedAt executedAt in
  let* newNode := newRGATreeListNodeAfter prevNode value in
  let* lst := gets last in
  let* _ := (if decide (Some prevNode = lst)
             then modify (set_last (Some newNode))
             else ret tt) in
  let* _ := modify (fun s =>
              set_index (splay.InsertAfter (nodeMapByIndex s) prevNode newNode) s) in
  let* v := loadElem value in
  let* _ := modify (fun s =>
              set_map (<[Key (createdAt v) := newNode]> (nodeMapByCreatedAt s)) s) in
  modify (fun s => set_size (int_wrap (size s + 1)) s).

Definition Add (e : ElemRef) : M unit :=
  let* lst := gets last in
  let* l := deref lst in
  let* prevCreatedAt := CreatedAt l in
  let* v := loadElem e in
  insertAfter prevCreatedAt e (createdAt v).

Definition LastCreatedAt : M Ticket :=
  let* lst := gets last in
  let* l := deref lst in
  CreatedAt l.

Definition InsertAfter (prevCreatedAt : Ticket) (e : ElemRef) : M unit :=
  let* v := loadElem e in
  insertAfter prevCreatedAt e (createdAt v).

Fixpoint Marshal_loop (fuel : nat) (current : option NodeRef) (sb : string)
  : M string :=
  match fuel with
  | O => panic Diverges
  | S fuel' =>
      match current with
      | None => ret sb
      | Some c =>
          let* r := isRemoved c in
          let* sb' := (if r then ret sb
                       else let* text := String c in
                            let* lst := gets last in
                            if decide (Some c = lst)
                            then ret (sb ++ text)%string
                            else ret (sb ++ text ++ ",")%string) in
          let* nx := getNext c in
          Marshal_loop fuel' nx sb'
      end
  end.

Definition Marshal : M string :=
  let* h := gets dummyHead in
  let* current := getNext h in
  let* fuel := gets fuel_of in
  let* sb := Marshal_loop fuel current "[" in
  ret (sb ++ "]")%string.

Fixpoint Nodes_loop (fuel : nat) (current : option NodeRef)
  (acc : list NodeRef) : M (list NodeRef) :=
  match fuel with
  | O => panic Diverges
  | S fuel' =>
      match current with
      | None => ret acc
      | Some c =>
          let* nx := getNext c in
          Nodes_loop fuel' nx (acc ++ [c])
      end
  end.

Definition Nodes : M (list NodeRef) :=
  let* h := gets dummyHead in
  let* current := getNext h in
  let* fuel := gets fuel_of in
  Nodes_loop fuel current [].

(** The loop of [Get]: step to the next node until it is a live one. *)
Fixpoint Get_loop (fuel : nat) (node : NodeRef) : M NodeRef :=
  match fuel with
  | O => panic Diverges
  | S fuel' =>
      let* nx := getNext node in
      let* n' := deref nx in
      let* r := isRemoved n' in
      if r then Get_loop fuel' n' else ret n'
  end.

Definition Get (idx : Z) : M NodeRef :=
  let* found := gets (fun s => splay.Find (weight s) (nodeMapByIndex s) idx) in
  match found with
  | None => panic OutOfBound
  | Some (node, offset) =>
      let* h := gets dummyHead in
      let* fuel := gets fuel_of in
      if decide (idx = 0 /\ node = h) then Get_loop fuel node
      else if 0 <? offset then Get_loop fuel node
      else ret node
  end.

Definition DeleteByCreatedAt (createdAt deletedAt : Ticket) : M NodeRef :=
  let* found := lookupCreatedAt (Key createdAt) in
  match found with
  | None => panic (UnknownCreatedAt (Key createdAt))
  | Some node =>
      let* alreadyRemoved := isRemoved node in
      let* nd := load node in
      let* e := loadElem (elem nd) in
      let* _ := storeElem (elem nd) (fst (Remove e deletedAt)) in
      let* _ := (if snd (Remove e deletedAt) && negb alreadyRemoved
                 then let* _ := modify (fun s =>
                                 set_index (splay.Splay (nodeMapByIndex s) node) s) in
                      modify (fun s => set_size (int_wrap (size s - 1)) s)
                 else ret tt) in
      ret node
  end.

Definition Delete (idx : Z) (deletedAt : Ticket) : M NodeRef :=
  let* target := Get idx in
  let* c := CreatedAt target in
  DeleteByCreatedAt c deletedAt.

Definition MoveAfter (prevCreatedAt createdAt executedAt : Ticket) : M unit :=
  let* foundPrev := lookupCreatedAt (Key prevCreatedAt) in
  match foundPrev with
  | None => panic (UnknownPrevCreatedAt (Key prevCreatedAt))
  | Some prevNode =>
      let* found := lookupCreatedAt (Key createdAt) in
      match found with
      | None => panic (UnknownCreatedAt (Key createdAt))
      | Some node =>
          let* e := Element_of node in
          if match movedAt e with
             | None => true
             | Some m => After executedAt m
             end
          then
            let* _ := release node in
            let* pc := CreatedAt prevNode in
            let* nd := load node in
            let* _ := insertAfter pc (elem nd) executedAt in
            let* nd' := load node in
            let* e' := loadElem (elem nd') in
            storeElem (elem nd') (SetMovedAt e' executedAt)
          else ret tt
      end
  end.

Fixpoint FindPrevCreatedAt_loop (fuel : nat) (node : NodeRef) : M NodeRef :=
  match fuel with
  | O => panic Diverges
  | S fuel' =>
      let* p := getPrev node in
      let* h := gets dummyHead in
      if decide (Some h = p) then ret h
      else
        let* n' := deref p in
        let* r := isRemoved n' in
        if r then FindPrevCreatedAt_loop fuel' n' else ret n'
  end.

Definition FindPrevCreatedAt (createdAt : Ticket) : M Ticket :=
  let* found := lookupCreatedAt (Key createdAt) in
  match found with
  | None => panic (UnknownPrevCreatedAt (Key createdAt))
  | Some node =>
      let* fuel := gets fuel_of in
      let* n := FindPrevCreatedAt_loop fuel node in
      CreatedAt n
  end.

Definition purge (e : ElemRef) : M unit :=
  let* v := loadElem e in
  let* found := lookupCreatedAt (Key (createdAt v)) in
  match found with
  | None => panic (UnknownCreatedAt (Key (createdAt v)))
  | Some node => release node
  end.

(** Running a sequence of calls from a state. *)
Definition run {A} (m : M A) (s : RGATreeList) : Outcome A := m s.

Definition state_of {A} (o : Outcome A) : RGATreeList :=
  match o with Done _ s => s | Panic _ s => s end.

Definition exec {A} (m : M A) (s : RGATreeList) : RGATreeList := state_of (m s).

(** ** Observations of a state *)

(** The element a node wraps, read without the monad. *)
Definition elemOf (s : RGATreeList) (n : NodeRef) : option Element :=
  match nodes s !! n with
  | Some nd => elems s !! elem nd
  | None => None
  end.

Definition positionedAt (e : Element) : Ticket :=
  match movedAt e with
  | Some m => m
  | None => createdAt e
  end.

(** The node is positioned strictly after [t]. *)
Definition afterAt (s : RGATreeList) (t : Ticket) (n : NodeRef) : bool :=
  match elemOf s n with
  | Some e => After (positionedAt e) t
  | None => false
  end.

(** The node wraps an element without removal ticket. *)
Definition liveAt (s : RGATreeList) (n : NodeRef) : bool :=
  match elemOf s n with
  | Some e => bool_decide (removedAt e = None)
  | None => false
  end.

Definition liveNodes (s : RGATreeList) (l : list NodeRef) : list NodeRef :=
  filter (fun n => liveAt s n = true) l.

(** ** The placement rule as the specification words it *)

(** Scanning forward: the nodes passed while the next node is positioned
    strictly after the ordering ticket, and the nodes left. *)
Fixpoint scan (after : NodeRef -> bool) (l : list NodeRef)
  : list NodeRef * list NodeRef :=
  match l with
  | [] => ([], [])
  | n :: r =>
      if after n then (n :: fst (scan after r), snd (scan after r))
      else ([], l)
  end.

(** The list after placing [new] with anchor [a]: scan from the anchor and
    insert immediately after the final scan position. *)
Fixpoint placement_rule (after : NodeRef -> bool) (a new : NodeRef)
  (l : list NodeRef) : list NodeRef :=
  match l with
  | [] => []
  | x :: r =>
      if decide (x = a)
      then x :: fst (scan after r) ++ new :: snd (scan after r)
      else x :: placement_rule after a new r
  end.

(** ** Well-formed lists *)

(** A doubly linked segment: [first] is the reference that enters the
    segment, [pv] the [prev] of its first node, [l] its nodes in order and
    [nl] the [next] of its last node. *)
Fixpoint linked (ns : list RGATreeListNode) (first pv : option NodeRef)
  (l : list NodeRef) (nl : option NodeRef) : Prop :=
  match l with
  | [] => first = nl
  | n :: l' =>
      first = Some n /\
      exists nd, ns !! n = Some nd /\ prev nd = pv /\
                 linked ns (next nd) (Some n) l' nl
  end.

(** The state is the list [l]: the links from the sentinel run through
    exactly [l], the tail reference is its last node, every node wraps an
    element, the identity map points into the list under the right keys, the
    index holds the same sequence, and the sentinel is a tombstone. *)
Record WF (s : RGATreeList) (l : list NodeRef) : Prop := mkWF {
  wf_linked : linked (nodes s) (Some (dummyHead s)) None l None;
  wf_nodup : NoDup l;
  wf_last : list.last l = last s;
  wf_elems : forall n, n ∈ l -> is_Some (elemOf s n);
  wf_map : forall k n, nodeMapByCreatedAt s !! k = Some n ->
             n ∈ l /\ exists e, elemOf s n = Some e /\ Key (createdAt e) = k;
  wf_index : splay.order (nodeMapByIndex s) = l;
  wf_head : liveAt s (dummyHead s) = false
}.

(** The live counter is the number of live nodes. *)
Definition size_ok (s : RGATreeList) (l : list NodeRef) : Prop :=
  size s = Z.of_nat (length (liveNodes s l)).

(** ** Scenarios *)

(** The caller's [array.Add(json.NewPrimitive(text, ticket))]. *)
Definition AddPrimitive (text : string) (t : Ticket) : M unit :=
  let* e := allocElem (NewPrimitive text t) in Add e.

Fixpoint AddAll (es : list (string * Ticket)) : M unit :=
  match es with
  | [] => ret tt
  | (text, t) :: r => let* _ := AddPrimitive text t in AddAll r
  end.

(** The [prev] of the node that follows [l] and the reference that enters
    [l], for a segment that may be empty. *)
Definition last_or (pv : option NodeRef) (l : list NodeRef) : option NodeRef :=
  match list.last l with
  | Some x => Some x
  | None => pv
  end.

Definition head_or (nl : option NodeRef) (l : list NodeRef) : option NodeRef :=
  match l with
  | x :: _ => Some x
  | [] => nl
  end.

(** What a call keeps of the objects: the elements are the same objects and
    every node that existed still wraps the element it wrapped. *)
Definition extends (s s' : RGATreeList) : Prop :=
  elems s' = elems s /\
  dummyHead s' = dummyHead s /\
  forall n nd, nodes s !! n = Some nd ->
    exists nd', nodes s' !! n = Some nd' /\ elem nd' = elem nd.

(** ** Checking well-formedness by computation *)

Fixpoint linkedb (ns : list RGATreeListNode) (first pv : option NodeRef)
  (l : list NodeRef) (nl : option NodeRef) : bool :=
  match l with
  | [] => bool_decide (first = nl)
  | n :: l' =>
      bool_decide (first = Some n) &&
      match ns !! n with
      | Some nd => bool_decide (prev nd = pv) && linkedb ns (next nd) (Some n) l' nl
      | None => false
      end
  end.

Definition key_ok (s : RGATreeList) (l : list NodeRef) (k : TicketKey)
  (n : NodeRef) : bool :=
  bool_decide (n ∈ l) &&
  match elemOf s n with
  | Some e => bool_decide (Key (createdAt e) = k)
  | None => false
  end.

Definition wfb (s : RGATreeList) (l : list NodeRef) : bool :=
  linkedb (nodes s) (Some (dummyHead s)) None l None &&
  bool_decide (NoDup l) &&
  bool_decide (list.last l = last s) &&
  forallb (fun n => bool_decide (is_Some (elemOf s n))) l &&
  bool_decide (map_Forall (fun k n => key_ok s l k n = true)
                          (nodeMapByCreatedAt s)) &&
  bool_decide (splay.order (nodeMapByIndex s) = l) &&
  negb (liveAt s (dummyHead s)).

(** ** Scenarios *)

(** The ticket a test context issues at logical time [n] for replica 1. *)
Definition ticketAt (n : N) : Ticket := mkTicket n 1 0.

(** Add("0"), Add("1"), then delete the node at index 1: the physically last
    node is a tombstone. *)
Definition tombstoned_tail : RGATreeList :=
  exec (let* _ := AddPrimitive "0" (ticketAt 1) in
        let* _ := AddPrimitive "1" (ticketAt 2) in
        Delete 1 (ticketAt 3)) NewRGATreeList.

(** Add("x"), then delete it: one tombstone after the sentinel. *)
Definition one_tombstone : RGATreeList :=
  exec (let* _ := AddPrimitive "x" (ticketAt 1) in
        DeleteByCreatedAt (ticketAt 1) (ticketAt 2)) NewRGATreeList.

(** The tombstone moved after the sentinel by a later move. *)
Definition moved_tombstone : RGATreeList :=
  exec (MoveAfter InitialTicket (ticketAt 1) (ticketAt 3)) one_tombstone.

(** Add("x"): one live element. *)
Definition one_element : RGATreeList :=
  exec (AddPrimitive "x" (ticketAt 1)) NewRGATreeList.

(** Add("0"), Add("1"), Add("2"). *)
Definition three_elements : RGATreeList :=
  exec (AddAll [("0"%string, ticketAt 1); ("1"%string, ticketAt 2);
                ("2"%string, ticketAt 3)]) NewRGATreeList.

(** ** The rendering as the specification words it *)

(** The marshal outputs of the live elements of the list, in list order,
    joined by single commas and enclosed in square brackets. *)
Definition liveTexts (s : RGATreeList) (l : list NodeRef) : list string :=
  omap (fun n => marshalText <$> elemOf s n) (liveNodes s (tail l)).

Definition Marshal_spec (s : RGATreeList) (l : list NodeRef) : string :=
  ("[" ++ String.concat "," (liveTexts s l) ++ "]")%string.

(** The node [n] of the state wraps the element object [e]. *)
Definition wraps (s : RGATreeList) (n : NodeRef) (e : ElemRef) : Prop :=
  exists p q, nodes s !! n = Some (mkNode e p q).

(** One element in the list, and two elements created for it by two
    replicas, not inserted yet. *)
Definition two_pending : RGATreeList :=
  exec (let* _ := allocElem (NewPrimitive "a" (mkTicket 5 1 0)) in
        allocElem (NewPrimitive "b" (mkTicket 5 2 0))) one_element.

(** The state after the elements [ds] were added to a fresh list, one node
    per element in the order of the calls. *)
Definition added (s : RGATreeList) (ds : list (string * Ticket)) : Prop :=
  WF s (seq 0 (S (length ds))) /\
  length (nodes s) = S (length ds) /\
  length (elems s) = S (length ds) /\
  (forall i d, ds !! i = Some d ->
     elemOf s (S i) = Some (NewPrimitive (fst d) (snd d))) /\
  size s = Z.of_nat (length ds) /\
  exists el, elemOf s (length ds) = Some el /\
             nodeMapByCreatedAt s !! Key (createdAt el) = Some (length ds).

(** ** What the loop of [Marshal] writes *)

(** For one node: nothing for a tombstone, the text of a live node followed
    by a comma unless the node is the tail reference. *)
Definition writtenFor (s : RGATreeList) (n : NodeRef) : string :=
  match elemOf s n with
  | Some e =>
      if bool_decide (removedAt e = None)
      then if decide (Some n = last s) then marshalText e
           else (marshalText e ++ ",")%string
      else ""%string
  | None => ""%string
  end.

Fixpoint written (s : RGATreeList) (l : list NodeRef) : string :=
  match l with
  | [] => ""%string
  | n :: r => (writtenFor s n ++ written s r)%string
  end.

(** The texts of the live nodes among [l]. *)
Definition texts (s : RGATreeList) (l : list NodeRef) : list string :=
  omap (fun n => marshalText <$> elemOf s n) (liveNodes s l).

(** Every text followed by a comma. *)
Fixpoint commas (ts : list string) : string :=
  match ts with
  | [] => ""%string
  | t :: r => (t ++ "," ++ commas r)%string
  end.

(** ** The neighbour that [FindPrevCreatedAt] looks for *)

(** Among the nodes [l1] that come before a node, the nearest one that is
    the sentinel or live. *)
Definition prevVisible (s : RGATreeList) (l1 : list NodeRef) : option NodeRef :=
  list.last (filter (fun x => x = dummyHead s \/ liveAt s x = true) l1).

(** ** The invariant of the lists the operations build *)

(** Every node of the list is found in the identity map under the creation
    key of its element. *)
Definition registered (s : RGATreeList) (l : list NodeRef) : Prop :=
  forall n, n ∈ l ->
    exists e, elemOf s n = Some e /\
              nodeMapByCreatedAt s !! Key (createdAt e) = Some n.

(** The list is well formed, every node is registered, and the live counter
    is the number of live nodes, within the range of Go's [int]. *)
Record Inv (s : RGATreeList) (l : list NodeRef) : Prop := mkInv {
  inv_wf : WF s l;
  inv_registered : registered s l;
  inv_size : size_ok s l;
  inv_range : size s < 2 ^ 63
}.

(** The invariant, checked by computation. *)
Definition registeredb (s : RGATreeList) (l : list NodeRef) : bool :=
  forallb (fun n => match elemOf s n with
                    | Some e => bool_decide
                        (nodeMapByCreatedAt s !! Key (createdAt e) = Some n)
                    | None => false
                    end) l.

Definition invb (s : RGATreeList) (l : list NodeRef) : bool :=
  wfb s l && registeredb s l &&
  bool_decide (size s = Z.of_nat (length (liveNodes s l))) &&
  bool_decide (size s < 2 ^ 63).

(** The caller's [array.InsertAfter(prev, json.NewPrimitive(text, ticket))]. *)
Definition InsertPrimitiveAfter (prevCreatedAt : Ticket) (text : string)
  (t : Ticket) : M unit :=
  let* e := allocElem (NewPrimitive text t) in InsertAfter prevCreatedAt e.

(** The states that the operations reach from a new list when every new
    element comes with a creation ticket the list does not know yet, only
    live elements are moved, and never after themselves. *)
Inductive Reachable : RGATreeList -> Prop :=
| Reachable_new : Reachable NewRGATreeList
| Reachable_Add s s' text t :
    Reachable s ->
    nodeMapByCreatedAt s !! Key t = None -> size s + 1 < 2 ^ 63 ->
    AddPrimitive text t s = Done tt s' -> Reachable s'
| Reachable_InsertAfter s s' p text t :
    Reachable s ->
    nodeMapByCreatedAt s !! Key t = None -> size s + 1 < 2 ^ 63 ->
    InsertPrimitiveAfter p text t s = Done tt s' -> Reachable s'
| Reachable_DeleteByCreatedAt s s' c d n :
    Reachable s ->
    DeleteByCreatedAt c d s = Done n s' -> Reachable s'
| Reachable_Delete s s' idx d n :
    Reachable s -> 0 <= idx < size s ->
    Delete idx d s = Done n s' -> Reachable s'
| Reachable_MoveAfter s s' p c t node e :
    Reachable s ->
    nodeMapByCreatedAt s !! Key c = Some node ->
    elemOf s node = Some e -> removedAt e = None -> p <> c ->
    MoveAfter p c t s = Done tt s' -> Reachable s'
| Reachable_purge s s' e :
    Reachable s ->
    purge e s = Done tt s' -> Reachable s'.

(** The element objects behind the nodes of a list, in list order. *)
Definition elemRefs (s : RGATreeList) (l : list NodeRef) : list (option ElemRef) :=
  (fun n => elem <$> nodes s !! n) <$> l.

(** * Proofs *)

(** ** The ticket order *)

Section TicketOrder.

Local Ltac cmp_cases :=
  repeat match goal with
  | |- context [(?a ?= ?b)%N] => destruct (N.compare_spec a b)
  | H : context [(?a ?= ?b)%N] |- _ => destruct (N.compare_spec a b)
  end; subst; try congruence; try lia.


Lemma After_trans (a b c : Ticket) :
  After a b = true -> After b c = true -> After a c = true.
Proof.
  destruct a, b, c. unfold After, Compare. simpl. intros H1 H2. cmp_cases.
Qed.

Lemma After_asym (a b : Ticket) : After a b = true -> After b a = false.
Proof. destruct a, b. unfold After, Compare. simpl. intros H1. cmp_cases. Qed.

Lemma After_total (a b : Ticket) :
  a <> b -> After a b = true \/ After b a = true.
Proof.
  destruct a, b. unfold After, Compare. simpl. intros Hne.
  cmp_cases; auto.
Qed.

Lemma Key_inj (a b : Ticket) : Key a = Key b -> a = b.
Proof. destruct a, b. unfold Key. simpl. congruence. Qed.

End TicketOrder.

(** ** Running the monad on a known state *)

Lemma lookup_snoc_length {A} (l : list A) (x : A) :
  (l ++ [x]) !! length l = Some x.
Proof. by rewrite list_lookup_middle. Qed.

Ltac mrun :=
  cbv beta delta [bind ret gets modify panic deref getNext getPrev setNext
    setPrev load loadElem storeElem Element_of lookupCreatedAt CreatedAt
    PositionedAt isRemoved String Len] iota;
  cbn [nodes elems dummyHead last size nodeMapByIndex nodeMapByCreatedAt
       set_nodes set_elems set_last set_size set_index set_map
       elem prev next fst snd].

Ltac len_tac := rewrite ?length_insert, ?length_app; simpl; lia.

Ltac lk :=
  repeat first
    [ rewrite lookup_snoc_length
    | rewrite list_lookup_insert_eq by len_tac
    | rewrite list_lookup_insert_ne by lia
    | rewrite lookup_app_l by len_tac ].

Ltac mstep :=
  first [ progress mrun
        | progress lk
        | match goal with
          | H : ?l !! ?i = _ |- context [?l !! ?i] => rewrite H
          end ].

Ltac mgo := repeat mstep.

(** Reading through the monad agrees with the observations. *)

Lemma elemOf_Some s n e :
  elemOf s n = Some e ->
  exists nd, nodes s !! n = Some nd /\ elems s !! elem nd = Some e.
Proof.
  unfold elemOf. destruct (nodes s !! n) as [nd|]; [|discriminate].
  intros H. by exists nd.
Qed.

Lemma Element_of_run s n e :
  elemOf s n = Some e -> Element_of n s = Done e s.
Proof. intros (nd & Hn & He)%elemOf_Some. mgo. reflexivity. Qed.

Lemma CreatedAt_run s n e :
  elemOf s n = Some e -> CreatedAt n s = Done (createdAt e) s.
Proof. intros (nd & Hn & He)%elemOf_Some. mgo. reflexivity. Qed.

Lemma PositionedAt_run s n e :
  elemOf s n = Some e -> PositionedAt n s = Done (positionedAt e) s.
Proof.
  intros (nd & Hn & He)%elemOf_Some. mgo. unfold positionedAt.
  destruct (movedAt e); reflexivity.
Qed.

Lemma isRemoved_run s n e :
  elemOf s n = Some e -> isRemoved n s = Done (negb (liveAt s n)) s.
Proof.
  intros He. unfold liveAt. rewrite He.
  apply elemOf_Some in He as (nd & Hn & He). mgo.
  f_equal. destruct (removedAt e); reflexivity.
Qed.

Lemma weight_live s n : liveAt s n = true -> weight s n = 1.
Proof.
  intros H. unfold weight, node_Len.
  unfold liveAt in H. destruct (elemOf s n) as [e|] eqn:He; [|discriminate].
  unfold bind. rewrite (isRemoved_run _ _ _ He). unfold liveAt. rewrite He, H.
  reflexivity.
Qed.

Lemma weight_dead s n : liveAt s n = false -> weight s n = 0.
Proof.
  intros H. unfold weight, node_Len, bind.
  destruct (elemOf s n) as [e|] eqn:He.
  - rewrite (isRemoved_run _ _ _ He), H. reflexivity.
  - unfold isRemoved, bind, Element_of, bind, load, loadElem.
    unfold elemOf in He. destruct (nodes s !! n) as [nd|]; [|reflexivity].
    rewrite He. reflexivity.
Qed.

(** ** Doubly linked segments *)

Lemma last_or_cons pv x l : last_or pv (x :: l) = last_or (Some x) l.
Proof.
  unfold last_or. destruct l as [|y l]; [reflexivity|].
  rewrite last_cons. destruct (list.last (y :: l)) eqn:E; [reflexivity|].
  by apply last_None in E.
Qed.

Lemma last_or_snoc pv l x : last_or pv (l ++ [x]) = Some x.
Proof. unfold last_or. by rewrite last_snoc. Qed.

Lemma linked_frame ns ns' first pv l nl :
  (forall n, n ∈ l -> ns' !! n = ns !! n) ->
  linked ns first pv l nl -> linked ns' first pv l nl.
Proof.
  revert first pv. induction l as [|n l IH]; intros first pv Hsame; simpl; [done|].
  intros [-> (nd & Hn & Hp & Hl)]. split; [done|].
  exists nd. split; [rewrite Hsame; [done|by left]|]. split; [done|].
  apply IH; [|done]. intros m Hm. apply Hsame. by right.
Qed.

Lemma linked_first ns first pv l nl :
  linked ns first pv l nl -> first = head_or nl l.
Proof. destruct l; simpl; [done|]. by intros [-> _]. Qed.

Lemma linked_app ns first pv l1 l2 nl :
  linked ns first pv (l1 ++ l2) nl <->
  exists mid, linked ns first pv l1 mid /\ linked ns mid (last_or pv l1) l2 nl.
Proof.
  revert first pv. induction l1 as [|n l1 IH]; intros first pv; simpl.
  - split.
    + intros H. exists first. done.
    + intros (mid & -> & H). done.
  - split.
    + intros [-> (nd & Hn & Hp & Hl)].
      apply IH in Hl as (mid & H1 & H2). exists mid. split.
      * split; [done|]. by exists nd.
      * by rewrite last_or_cons.
    + intros (mid & [-> (nd & Hn & Hp & Hl)] & H2). split; [done|].
      exists nd. split; [done|]. split; [done|].
      apply IH. exists mid. split; [done|]. by rewrite last_or_cons in H2.
Qed.

Lemma linked_In ns first pv l nl n :
  linked ns first pv l nl -> n ∈ l -> is_Some (ns !! n).
Proof.
  revert first pv. induction l as [|m l IH]; intros first pv; simpl.
  - intros _ H. by apply elem_of_nil in H.
  - intros [-> (nd & Hn & Hp & Hl)] [->|H]%elem_of_cons; [by exists nd|].
    by eapply IH.
Qed.

Lemma linked_lt ns first pv l nl n :
  linked ns first pv l nl -> n ∈ l -> (n < length ns)%nat.
Proof.
  intros Hl Hn. destruct (linked_In _ _ _ _ _ _ Hl Hn) as [nd Hnd].
  by eapply lookup_lt_Some.
Qed.

(** The node in the middle of a segment and its two links. *)
Lemma linked_middle ns first pv l1 n l2 nl :
  linked ns first pv (l1 ++ n :: l2) nl ->
  exists nd, ns !! n = Some nd /\ prev nd = last_or pv l1 /\
             next nd = head_or nl l2 /\
             linked ns first pv l1 (Some n) /\
             linked ns (next nd) (Some n) l2 nl.
Proof.
  intros (mid & H1 & H2)%linked_app. simpl in H2.
  destruct H2 as [-> (nd & Hn & Hp & Hl)].
  exists nd. repeat split; try done. by apply linked_first in Hl.
Qed.

Lemma linked_length ns first pv l nl :
  NoDup l -> linked ns first pv l nl -> (length l <= length ns)%nat.
Proof.
  intros Hnd Hl.
  assert (Hsub : l ⊆ seq 0 (length ns)).
  { intros n Hn. apply elem_of_seq. split; [lia|].
    simpl. by eapply linked_lt. }
  apply NoDup_submseteq in Hsub; [|done].
  apply submseteq_length in Hsub. by rewrite length_seq in Hsub.
Qed.

(** Linking a new node in after [a]. *)
Lemma linked_insert ns ns' first pv l1 a l2 nda e :
  NoDup (l1 ++ a :: l2) ->
  linked ns first pv (l1 ++ a :: l2) None ->
  ns !! a = Some nda ->
  ns' !! a = Some (mkNode (elem nda) (prev nda) (Some (length ns))) ->
  ns' !! length ns = Some (mkNode e (Some a) (next nda)) ->
  (forall pn ndpn, next nda = Some pn -> ns !! pn = Some ndpn ->
     ns' !! pn = Some (mkNode (elem ndpn) (Some (length ns)) (next ndpn))) ->
  (forall n, n <> a -> n <> length ns -> next nda <> Some n ->
     ns' !! n = ns !! n) ->
  linked ns' first pv (l1 ++ a :: length ns :: l2) None.
Proof.
  intros Hnd Hl Ha Ha' Hnew Hpn Hsame.
  pose proof Hl as Hl0.
  apply linked_middle in Hl as (nd & Hnd' & Hp & Hn & H1 & H2).
  rewrite Ha in Hnd'. injection Hnd' as <-.
  apply NoDup_app in Hnd as (Hnd1 & Hdisj & Hnd2).
  apply NoDup_cons in Hnd2 as (Hal2 & Hnd2).
  assert (Hlt : forall n, n ∈ l1 ++ a :: l2 -> (n < length ns)%nat)
    by (intros n; by eapply linked_lt).
  apply linked_app. exists (Some a). split.
  - eapply linked_frame; [|exact H1]. intros n Hn1. apply Hsame.
    + intros ->. eapply Hdisj; [done|by left].
    + specialize (Hlt n). rewrite elem_of_app in Hlt.
      assert (n < length ns)%nat by auto. lia.
    + rewrite Hn. destruct l2 as [|m l2]; simpl; [done|].
      intros [= ->]. eapply Hdisj; [done|]. right. by left.
  - simpl. split; [done|]. eexists. split; [exact Ha'|]. simpl.
    split; [done|]. split; [done|]. eexists. split; [exact Hnew|]. simpl.
    split; [done|].
    destruct l2 as [|m l2]; simpl in *; [done|].
    destruct H2 as [Hm (ndm & Hndm & Hpm & Hlm)].
    split; [done|]. eexists. split; [by eapply Hpn|]. simpl.
    split; [done|].
    apply NoDup_cons in Hnd2 as (Hml2 & Hnd2).
    eapply linked_frame; [|exact Hlm]. intros n Hn2. apply Hsame.
    + intros ->. apply Hal2. right. done.
    + assert (n < length ns)%nat; [|lia]. apply Hlt.
      rewrite elem_of_app. right. right. by right.
    + rewrite Hm. intros [= ->]. done.
Qed.

(** ** The placement rule on lists *)

Lemma scan_app after l : fst (scan after l) ++ snd (scan after l) = l.
Proof.
  induction l as [|n l IH]; simpl; [done|].
  destruct (after n); simpl; [by rewrite IH|done].
Qed.

Lemma scan_run after l : Forall (fun n => after n = true) (fst (scan after l)).
Proof.
  induction l as [|n l IH]; simpl; [constructor|].
  destruct (after n) eqn:E; simpl; [by constructor|constructor].
Qed.

Lemma scan_rest after l :
  match snd (scan after l) with
  | [] => True
  | n :: _ => after n = false
  end.
Proof.
  induction l as [|n l IH]; simpl; [done|].
  destruct (after n) eqn:E; simpl; done.
Qed.

(** Scanning is determined by a run that passes and a rest that stops. *)
Lemma scan_decomp after run rest :
  Forall (fun n => after n = true) run ->
  match rest with [] => True | n :: _ => after n = false end ->
  scan after (run ++ rest) = (run, rest).
Proof.
  intros Hrun Hrest. induction Hrun as [|n run Hn Hrun IH]; simpl.
  - destruct rest as [|m rest]; simpl; [done|]. by rewrite Hrest.
  - rewrite Hn, IH. done.
Qed.

Lemma scan_ext after after' l :
  (forall n, n ∈ l -> after n = after' n) -> scan after l = scan after' l.
Proof.
  induction l as [|n l IH]; intros H; simpl; [done|].
  rewrite <- (H n) by (by left). rewrite IH; [done|].
  intros m Hm. apply H. by right.
Qed.

Lemma placement_rule_decomp after a new l1 l2 :
  a ∉ l1 ->
  placement_rule after a new (l1 ++ a :: l2) =
  l1 ++ a :: fst (scan after l2) ++ new :: snd (scan after l2).
Proof.
  induction l1 as [|x l1 IH]; intros Hnot; simpl.
  - by rewrite decide_True.
  - rewrite decide_False by (intros ->; apply Hnot; by left).
    rewrite IH; [done|]. intros H. apply Hnot. by right.
Qed.

Lemma placement_rule_ext after after' a new l :
  (forall n, n ∈ l -> after n = after' n) ->
  placement_rule after a new l = placement_rule after' a new l.
Proof.
  induction l as [|x l IH]; intros H; simpl; [done|].
  destruct (decide (x = a)).
  - rewrite (scan_ext after after' l); [done|]. intros m Hm. apply H. by right.
  - rewrite IH; [done|]. intros m Hm. apply H. by right.
Qed.

(** The final scan position: the last node passed, or the anchor. *)
Lemma last_cons_default (a m : NodeRef) (run : list NodeRef) :
  default a (list.last (m :: run)) = default m (list.last run).
Proof.
  destruct run as [|m' run]; [done|]. rewrite last_cons.
  destruct (list.last (m' :: run)) eqn:E; [done|].
  by apply last_None in E.
Qed.

Lemma final_position (a : NodeRef) (run : list NodeRef) :
  exists lq, a :: run = lq ++ [default a (list.last run)].
Proof.
  revert a. induction run as [|m run IH]; intros a.
  - by exists [].
  - destruct (IH m) as (lq & Hlq). exists (a :: lq).
    rewrite last_cons_default. simpl. by rewrite <- Hlq.
Qed.

Lemma insert_after_decomp q new lq rest :
  q ∉ lq ->
  splay.insert_after q new (lq ++ q :: rest) = lq ++ q :: new :: rest.
Proof.
  induction lq as [|x lq IH]; intros Hnot; simpl.
  - by rewrite decide_True.
  - rewrite decide_False by (intros ->; apply Hnot; by left).
    rewrite IH; [done|]. intros H. apply Hnot. by right.
Qed.

Lemma remove_decomp n l1 l2 :
  n ∉ l1 -> splay.remove n (l1 ++ n :: l2) = l1 ++ l2.
Proof.
  induction l1 as [|x l1 IH]; intros Hnot; simpl.
  - by rewrite decide_True.
  - rewrite decide_False by (intros ->; apply Hnot; by left).
    rewrite IH; [done|]. intros H. apply Hnot. by right.
Qed.

(** ** The scan of [findNextBeforeExecutedAt] *)

Lemma findNext_loop_run s first pv l1 a l2 t fuel :
  linked (nodes s) first pv (l1 ++ a :: l2) None ->
  (forall n, n ∈ l2 -> is_Some (elemOf s n)) ->
  (length l2 < fuel)%nat ->
  findNextBeforeExecutedAt_loop fuel a t s =
  Done (default a (list.last (fst (scan (afterAt s t) l2)))) s.
Proof.
  revert l1 a fuel. induction l2 as [|m l2 IH]; intros l1 a fuel Hl He Hf.
  - destruct fuel as [|fuel]; [simpl in Hf; lia|].
    apply linked_middle in Hl as (nd & Hnd & _ & Hn & _). simpl in Hn.
    simpl. mgo. rewrite Hn. reflexivity.
  - destruct fuel as [|fuel]; [simpl in Hf; lia|].
    pose proof Hl as Hl'.
    apply linked_middle in Hl as (nd & Hnd & _ & Hn & _). simpl in Hn.
    destruct (He m) as [e Hm]; [by left|].
    simpl. unfold bind at 1. unfold getNext, bind, load. rewrite Hnd. simpl.
    rewrite Hn. unfold bind. rewrite (PositionedAt_run _ _ _ Hm).
    unfold afterAt at 1 2 3. rewrite Hm.
    destruct (After (positionedAt e) t) eqn:Ha; simpl; [|reflexivity].
    rewrite (IH (l1 ++ [a]) m fuel).
    + by rewrite last_cons_default.
    + by rewrite <- app_assoc.
    + intros n Hn'. apply He. by right.
    + simpl in Hf. lia.
Qed.

(** ** What the calls keep *)

Lemma extends_refl s : extends s s.
Proof. split; [done|]. split; [done|]. intros n nd H. by exists nd. Qed.

Lemma extends_trans s1 s2 s3 : extends s1 s2 -> extends s2 s3 -> extends s1 s3.
Proof.
  intros (He1 & Hd1 & Hn1) (He2 & Hd2 & Hn2). split; [congruence|].
  split; [congruence|]. intros n nd H.
  destruct (Hn1 _ _ H) as (nd' & H' & E'). destruct (Hn2 _ _ H') as (nd'' & H'' & E'').
  exists nd''. split; [done|congruence].
Qed.

Lemma extends_elemOf s s' n e :
  extends s s' -> elemOf s n = Some e -> elemOf s' n = Some e.
Proof.
  intros (He & _ & Hn) (nd & Hnd & Hel)%elemOf_Some.
  destruct (Hn _ _ Hnd) as (nd' & Hnd' & E). unfold elemOf.
  rewrite Hnd', E, He. done.
Qed.

Lemma extends_afterAt s s' t n :
  extends s s' -> is_Some (elemOf s n) -> afterAt s' t n = afterAt s t n.
Proof.
  intros Hx [e He]. unfold afterAt. by rewrite (extends_elemOf _ _ _ _ Hx He), He.
Qed.

Lemma extends_liveAt s s' n :
  extends s s' -> is_Some (elemOf s n) -> liveAt s' n = liveAt s n.
Proof.
  intros Hx [e He]. unfold liveAt. by rewrite (extends_elemOf _ _ _ _ Hx He), He.
Qed.

(** ** Linking a new node in *)

Lemma newRGATreeListNodeAfter_run s p e ndp :
  nodes s !! p = Some ndp ->
  (forall pn, next ndp = Some pn -> pn <> p /\ is_Some (nodes s !! pn)) ->
  exists ns',
    newRGATreeListNodeAfter p e s =
      Done (length (nodes s)) (set_nodes (fun _ => ns') s) /\
    length ns' = S (length (nodes s)) /\
    ns' !! p = Some (mkNode (elem ndp) (prev ndp) (Some (length (nodes s)))) /\
    ns' !! length (nodes s) = Some (mkNode e (Some p) (next ndp)) /\
    (forall pn ndpn, next ndp = Some pn -> nodes s !! pn = Some ndpn ->
       ns' !! pn = Some (mkNode (elem ndpn) (Some (length (nodes s))) (next ndpn))) /\
    (forall n, n <> p -> n <> length (nodes s) -> next ndp <> Some n ->
       ns' !! n = nodes s !! n).
Proof.
  intros Hp Hnx.
  pose proof (lookup_lt_Some _ _ _ Hp) as Hlt.
  unfold newRGATreeListNodeAfter, newRGATreeListNode.
  destruct (next ndp) as [pn|] eqn:Hn.
  - destruct (Hnx pn eq_refl) as [Hne [ndpn Hpn]].
    pose proof (lookup_lt_Some _ _ _ Hpn) as Hlt'.
    mgo. rewrite Hn. mgo.
    eexists. split; [reflexivity|]. mrun.
    split; [len_tac|]. split; [lk; reflexivity|]. split; [lk; reflexivity|].
    split.
    + intros ? ? [= <-] Hq. rewrite Hq in Hpn. injection Hpn as ->.
      lk. reflexivity.
    + intros n ? ? ?. assert (n <> pn) by congruence.
      lk. destruct (decide (n < length (nodes s))%nat).
      * lk. reflexivity.
      * rewrite !lookup_ge_None_2; [reflexivity| lia | len_tac].
  - mgo. rewrite Hn. mgo. eexists. split; [reflexivity|]. mrun.
    split; [len_tac|]. split; [lk; reflexivity|]. split; [lk; reflexivity|].
    split; [discriminate|].
    intros n ? ? ?. lk. destruct (decide (n < length (nodes s))%nat).
    + lk. reflexivity.
    + rewrite !lookup_ge_None_2; [reflexivity| lia | len_tac].
Qed.

(** ** [insertAfter] follows the placement rule *)

Lemma WF_nonempty s l : WF s l -> exists r, l = dummyHead s :: r.
Proof.
  intros Hwf. pose proof (wf_linked _ _ Hwf) as Hl.
  destruct l as [|h r]; simpl in Hl; [done|].
  destruct Hl as [[= <-] _]. by exists r.
Qed.

Lemma WF_fuel s l : WF s l -> (length l <= length (nodes s))%nat.
Proof. intros Hwf. eapply linked_length; [apply Hwf|apply Hwf]. Qed.

Lemma WF_lt s l n : WF s l -> n ∈ l -> (n < length (nodes s))%nat.
Proof. intros Hwf. eapply linked_lt. apply Hwf. Qed.

Lemma insertAfter_spec s l p a v ev t :
  WF s l ->
  nodeMapByCreatedAt s !! Key p = Some a ->
  elems s !! v = Some ev ->
  exists s',
    insertAfter p v t s = Done tt s' /\
    WF s' (placement_rule (afterAt s t) a (length (nodes s)) l) /\
    extends s s' /\
    (exists pq nq, nodes s' !! length (nodes s) = Some (mkNode v pq nq)) /\
    length (nodes s') = S (length (nodes s)) /\
    size s' = int_wrap (size s + 1) /\
    nodeMapByCreatedAt s' =
      <[Key (createdAt ev) := length (nodes s)]> (nodeMapByCreatedAt s).
Proof.
  intros Hwf Hmap Hv.
  destruct (wf_map _ _ Hwf _ _ Hmap) as (Hal & ea & Hea & Hk).
  destruct (list_elem_of_split _ _ Hal) as (l1 & l2 & ->).
  pose proof (wf_nodup _ _ Hwf) as Hnd.
  pose proof (wf_linked _ _ Hwf) as Hlinked.
  assert (Hal1 : a ∉ l1).
  { apply NoDup_app in Hnd as (_ & Hd & _). intros H. eapply Hd; [done|by left]. }
  rewrite placement_rule_decomp by done.
  set (run := fst (scan (afterAt s t) l2)).
  set (rest := snd (scan (afterAt s t) l2)).
  assert (Hl2 : l2 = run ++ rest) by (symmetry; apply scan_app).
  destruct (final_position a run) as (lq & Hlq).
  set (q := default a (list.last run)) in *.
  assert (Hl : l1 ++ a :: l2 = (l1 ++ lq) ++ q :: rest).
  { rewrite Hl2, app_comm_cons, Hlq. by rewrite <- !app_assoc. }
  assert (Hl' : forall new, l1 ++ a :: run ++ new :: rest
                       = (l1 ++ lq) ++ q :: new :: rest).
  { intros new. rewrite app_comm_cons, Hlq. by rewrite <- !app_assoc. }
  assert (Hfind : findNextBeforeExecutedAt p t s = Done q s).
  { unfold findNextBeforeExecutedAt. mgo. unfold fuel_of.
    eapply findNext_loop_run; [exact Hlinked| |].
    - intros n Hn. apply (wf_elems _ _ Hwf). rewrite elem_of_app. right. by right.
    - pose proof (WF_fuel _ _ Hwf) as Hf. rewrite length_app in Hf. simpl in Hf. lia. }
  rewrite Hl in Hlinked, Hnd.
  pose proof Hlinked as Hmid.
  apply linked_middle in Hmid as (ndq & Hq & _ & Hnq & _ & Hrest).
  destruct (newRGATreeListNodeAfter_run s q v ndq Hq) as
      (ns' & Hnew & Hlen & Hq' & Hnew' & Hpn' & Hsame).
  { intros pn Hpn. rewrite Hnq in Hpn. destruct rest as [|m rest']; [done|].
    injection Hpn as ->. split.
    - intros ->. apply NoDup_app in Hnd as (_ & _ & Hn2).
      apply NoDup_cons in Hn2 as (Hn2 & _). apply Hn2. by left.
    - eapply linked_In; [exact Hlinked|]. rewrite elem_of_app. right. right. by left. }
  assert (Hlinked' : linked ns' (Some (dummyHead s)) None
                       ((l1 ++ lq) ++ q :: length (nodes s) :: rest) None).
  { eapply linked_insert; eauto. }
  assert (Hfresh : forall n, n ∈ (l1 ++ lq) ++ q :: rest -> n <> length (nodes s)).
  { intros n Hn. rewrite <- Hl in Hn. pose proof (WF_lt _ _ _ Hwf Hn). lia. }
  assert (Hnd' : NoDup ((l1 ++ lq) ++ q :: length (nodes s) :: rest)).
  { apply NoDup_app in Hnd as (Hn1 & Hd & Hn2).
    apply NoDup_cons in Hn2 as (Hq2 & Hn2).
    apply NoDup_app. split; [done|]. split.
    - intros n Hn [->|[->|H]%elem_of_cons]%elem_of_cons.
      + eapply Hd; [done|by left].
      + eapply Hfresh; [|done]. rewrite elem_of_app. by left.
      + eapply Hd; [done|by right].
    - apply NoDup_cons. split.
      + intros [E|H]%elem_of_cons.
        * eapply (Hfresh q); [|exact E]. rewrite elem_of_app. right. by left.
        * done.
      + apply NoDup_cons. split; [|done]. intros H.
        eapply Hfresh; [|done]. rewrite elem_of_app. right. by right. }
  assert (Hext : forall n nd, nodes s !! n = Some nd ->
                   exists nd', ns' !! n = Some nd' /\ elem nd' = elem nd).
  { intros n nd Hn. pose proof (lookup_lt_Some _ _ _ Hn) as Hlt.
    destruct (decide (n = q)) as [->|Hne].
    { rewrite Hq in Hn. injection Hn as <-. eexists. split; [exact Hq'|done]. }
    destruct (decide (next ndq = Some n)) as [E|Hne'].
    { eexists. split; [by eapply Hpn'|done]. }
    exists nd. split; [|done]. rewrite Hsame; [done|done|lia|done]. }
  assert (Hlast : Some q = last s <-> rest = []).
  { rewrite <- (wf_last _ _ Hwf), Hl. split.
    - intros E. destruct rest as [|m rest']; [done|]. exfalso.
      rewrite last_app_cons, last_cons_cons in E.
      apply NoDup_app in Hnd as (_ & _ & Hn2).
      apply NoDup_cons in Hn2 as (Hq2 & _). apply Hq2.
      apply last_Some_elem_of. by rewrite E.
    - intros ->. by rewrite last_app_cons. }
  set (new := length (nodes s)) in *.
  assert (Hgen : forall lst',
    list.last (l1 ++ a :: run ++ new :: rest) = lst' ->
    let s' := mkList (elems s) ns' (dummyHead s) lst' (int_wrap (size s + 1))
                (splay.InsertAfter (nodeMapByIndex s) q new)
                (<[Key (createdAt ev) := new]> (nodeMapByCreatedAt s)) in
    WF s' (l1 ++ a :: run ++ new :: rest) /\ extends s s' /\
    (exists pq nq, nodes s' !! new = Some (mkNode v pq nq)) /\
    length (nodes s') = S new /\
    size s' = int_wrap (size s + 1) /\
    nodeMapByCreatedAt s' = <[Key (createdAt ev) := new]> (nodeMapByCreatedAt s)).
  { intros lst' Hlst s'.
    assert (Hx : extends s s') by (split; [done|]; split; done).
    assert (Hen : elemOf s' new = Some ev).
    { unfold elemOf. subst s'. simpl. by rewrite Hnew'. }
    split; [|split; [done|]; split; [by eauto|]; done].
    constructor; subst s'; simpl.
    - rewrite Hl'. exact Hlinked'.
    - rewrite Hl'. exact Hnd'.
    - done.
    - intros n Hn. rewrite Hl' in Hn.
      assert (Hcase : n = new \/ n ∈ (l1 ++ lq) ++ q :: rest).
      { rewrite !elem_of_app, !elem_of_cons in *. tauto. }
      destruct Hcase as [->|Hold]; [by eexists|].
      rewrite <- Hl in Hold. destruct (wf_elems _ _ Hwf _ Hold) as [e He].
      exists e. by eapply extends_elemOf.
    - intros k n Hkn. destruct (decide (Key (createdAt ev) = k)) as [<-|Hne].
      + rewrite lookup_insert_eq in Hkn. injection Hkn as <-. split.
        * rewrite !elem_of_app, !elem_of_cons, !elem_of_app, !elem_of_cons. tauto.
        * by exists ev.
      + rewrite lookup_insert_ne in Hkn by done.
        destruct (wf_map _ _ Hwf _ _ Hkn) as (Hin & e & He & Hke). split.
        * rewrite Hl2 in Hin.
          rewrite !elem_of_app, !elem_of_cons, !elem_of_app in *.
          rewrite !elem_of_cons. tauto.
        * exists e. split; [by eapply extends_elemOf|done].
    - rewrite (wf_index _ _ Hwf), Hl, Hl'. apply insert_after_decomp.
      apply NoDup_app in Hnd as (_ & Hd & _). intros H. eapply Hd; [done|by left].
    - rewrite <- (wf_head _ _ Hwf). apply (extends_liveAt s); [done|].
      apply (wf_elems _ _ Hwf). destruct (WF_nonempty _ _ Hwf) as (r & ->). by left. }
  unfold insertAfter. unfold bind at 1. rewrite Hfind.
  unfold bind at 1. rewrite Hnew. mgo.
  destruct (decide (Some q = last s)) as [Hd|Hd]; mgo.
  - eexists. split; [reflexivity|]. apply Hgen. mrun.
    apply Hlast in Hd. rewrite Hd. rewrite app_comm_cons, app_assoc.
    by rewrite last_snoc.
  - eexists. split; [reflexivity|]. apply Hgen. mrun.
    destruct rest as [|m rest']; [exfalso; apply Hd; by apply Hlast|].
    rewrite Hl', <- (wf_last _ _ Hwf), Hl.
    by rewrite !last_app_cons, !last_cons_cons.
Qed.


(** ** [release] unlinks a node *)

Lemma linked_remove ns ns' first pv l1 p n l2 ndp ndn :
  NoDup (l1 ++ p :: n :: l2) ->
  linked ns first pv (l1 ++ p :: n :: l2) None ->
  ns !! p = Some ndp -> ns !! n = Some ndn ->
  ns' !! p = Some (mkNode (elem ndp) (prev ndp) (next ndn)) ->
  (forall m ndm, next ndn = Some m -> ns !! m = Some ndm ->
     ns' !! m = Some (mkNode (elem ndm) (Some p) (next ndm))) ->
  (forall x, x <> p -> x <> n -> next ndn <> Some x -> ns' !! x = ns !! x) ->
  linked ns' first pv (l1 ++ p :: l2) None.
Proof.
  intros Hnd Hl Hp Hn Hp' Hm' Hsame.
  apply linked_middle in Hl as (nd & Hnd' & Hpp & Hnp & H1 & H2).
  rewrite Hp in Hnd'. injection Hnd' as <-. simpl in Hnp, H2.
  destruct H2 as [_ (nd & Hnd' & Hpn & H2)].
  rewrite Hn in Hnd'. injection Hnd' as <-.
  apply NoDup_app in Hnd as (Hnd1 & Hdisj & Hnd2).
  apply NoDup_cons in Hnd2 as (Hp2 & Hnd2).
  apply NoDup_cons in Hnd2 as (Hn2 & Hnd2).
  pose proof (linked_first _ _ _ _ _ H2) as Hnn.
  apply linked_app. exists (Some p). split.
  - eapply linked_frame; [|exact H1]. intros x Hx. apply Hsame.
    + intros ->. eapply Hdisj; [done|by left].
    + intros ->. eapply Hdisj; [done|]. right. by left.
    + rewrite Hnn. destruct l2 as [|m l2]; simpl; [done|].
      intros [= ->]. eapply Hdisj; [done|]. right. right. by left.
  - simpl. split; [done|]. eexists. split; [exact Hp'|]. simpl.
    split; [done|].
    destruct l2 as [|m l2]; simpl in *; [done|].
    destruct H2 as [Hm (ndm & Hndm & Hpm & Hlm)].
    split; [done|]. eexists. split; [by eapply Hm'|]. simpl.
    split; [done|].
    apply NoDup_cons in Hnd2 as (Hml2 & Hnd2).
    eapply linked_frame; [|exact Hlm]. intros x Hx. apply Hsame.
    + intros ->. apply Hp2. right. by right.
    + intros ->. apply Hn2. by right.
    + rewrite Hm. intros [= ->]. done.
Qed.

Lemma release_spec s l1 p n l2 e :
  WF s (l1 ++ p :: n :: l2) ->
  elemOf s n = Some e ->
  exists s',
    release n s = Done tt s' /\
    WF s' (l1 ++ p :: l2) /\
    extends s s' /\
    length (nodes s') = length (nodes s) /\
    size s' = (if liveAt s n then int_wrap (size s - 1) else size s) /\
    nodeMapByCreatedAt s' = delete (Key (createdAt e)) (nodeMapByCreatedAt s).
Proof.
  intros Hwf He.
  pose proof (wf_nodup _ _ Hwf) as Hnd.
  pose proof (wf_linked _ _ Hwf) as Hlinked.
  pose proof Hlinked as Hmid.
  apply linked_middle in Hmid as (ndp & Hp & _ & _ & _ & H2). simpl in H2.
  destruct H2 as [Hpn (ndn & Hn & Hnp & H2)].
  pose proof (linked_first _ _ _ _ _ H2) as Hnn.
  pose proof He as He'. unfold elemOf in He'. rewrite Hn in He'.
  assert (Hne : p <> n).
  { intros ->. apply NoDup_app in Hnd as (_ & _ & Hnd).
    apply NoDup_cons in Hnd as (Hnd & _). apply Hnd. by left. }
  assert (Hlast : last s = Some n <-> l2 = []).
  { rewrite <- (wf_last _ _ Hwf). rewrite last_app_cons, last_cons_cons. split.
    - intros E. destruct l2 as [|m l2']; [done|]. exfalso.
      rewrite last_cons_cons in E.
      apply NoDup_app in Hnd as (_ & _ & Hnd).
      apply NoDup_cons in Hnd as (_ & Hnd).
      apply NoDup_cons in Hnd as (Hnd & _). apply Hnd.
      by apply last_Some_elem_of.
    - by intros ->. }
  pose proof (lookup_lt_Some _ _ _ Hp) as Hltp.
  pose proof (lookup_lt_Some _ _ _ Hn) as Hltn.
  assert (Hn1 : n ∉ l1 ++ [p]).
  { apply NoDup_app in Hnd as (_ & Hd & Hnd). intros [H|H%list_elem_of_singleton]%elem_of_app.
    - eapply Hd; [done|]. right. by left.
    - done. }
  assert (Hn2 : n ∉ l2).
  { apply NoDup_app in Hnd as (_ & _ & Hnd).
    apply NoDup_cons in Hnd as (_ & Hnd). by apply NoDup_cons in Hnd as (Hnd & _). }
  assert (Hgen : forall ns' lst',
    length ns' = length (nodes s) ->
    ns' !! p = Some (mkNode (elem ndp) (prev ndp) (next ndn)) ->
    ns' !! n = Some (mkNode (elem ndn) None None) ->
    (forall m ndm, next ndn = Some m -> nodes s !! m = Some ndm ->
       ns' !! m = Some (mkNode (elem ndm) (Some p) (next ndm))) ->
    (forall x, x <> p -> x <> n -> next ndn <> Some x -> ns' !! x = nodes s !! x) ->
    list.last (l1 ++ p :: l2) = lst' ->
    let s' := mkList (elems s) ns' (dummyHead s) lst'
                (if liveAt s n then int_wrap (size s - 1) else size s)
                (splay.Delete (nodeMapByIndex s) n)
                (delete (Key (createdAt e)) (nodeMapByCreatedAt s)) in
    WF s' (l1 ++ p :: l2) /\ extends s s' /\
    length (nodes s') = length (nodes s) /\
    size s' = (if liveAt s n then int_wrap (size s - 1) else size s) /\
    nodeMapByCreatedAt s' = delete (Key (createdAt e)) (nodeMapByCreatedAt s)).
  { intros ns' lst' Hlen Hp' Hn' Hm' Hsame Hlst s'.
    assert (Hx : extends s s').
    { split; [done|]. split; [done|]. intros x nd Hxnd. subst s'. simpl.
      destruct (decide (x = p)) as [->|Hxp].
      { rewrite Hp in Hxnd. injection Hxnd as <-. eexists. split; [exact Hp'|done]. }
      destruct (decide (x = n)) as [->|Hxn].
      { rewrite Hn in Hxnd. injection Hxnd as <-. eexists. split; [exact Hn'|done]. }
      destruct (decide (next ndn = Some x)) as [E|Hxm].
      { eexists. split; [by eapply Hm'|done]. }
      exists nd. split; [|done]. by rewrite Hsame. }
    split; [|done].
    assert (Hsub : forall x, x ∈ l1 ++ p :: l2 -> x ∈ l1 ++ p :: n :: l2).
    { intros x. rewrite !elem_of_app, !elem_of_cons. tauto. }
    constructor; subst s'; simpl.
    - eapply linked_remove; eauto.
    - apply NoDup_app in Hnd as (Hd1 & Hd & Hd2).
      apply NoDup_cons in Hd2 as (Hp2 & Hd2).
      apply NoDup_cons in Hd2 as (_ & Hd2).
      apply NoDup_app. split; [done|]. split.
      + intros x Hx1 [->|Hx2]%elem_of_cons.
        * eapply Hd; [done|by left].
        * eapply Hd; [done|]. right. by right.
      + apply NoDup_cons. split; [|done]. intros H. apply Hp2. by right.
    - done.
    - intros x Hxl. destruct (wf_elems _ _ Hwf _ (Hsub _ Hxl)) as [ex Hex].
      exists ex. by eapply extends_elemOf.
    - intros k x Hkx. apply lookup_delete_Some in Hkx as (Hk & Hkx).
      destruct (wf_map _ _ Hwf _ _ Hkx) as (Hin & ex & Hex & Hkey). split.
      + assert (x <> n).
        { intros ->. rewrite He in Hex. injection Hex as <-. done. }
        rewrite !elem_of_app, !elem_of_cons in *. tauto.
      + exists ex. split; [by eapply extends_elemOf|done].
    - rewrite (wf_index _ _ Hwf).
      replace (l1 ++ p :: n :: l2) with ((l1 ++ [p]) ++ n :: l2)
        by (by rewrite <- app_assoc).
      rewrite remove_decomp by done. by rewrite <- app_assoc.
    - rewrite <- (wf_head _ _ Hwf). apply (extends_liveAt s); [done|].
      apply (wf_elems _ _ Hwf). destruct (WF_nonempty _ _ Hwf) as (r & ->). by left. }
  assert (Hlive : liveAt s n = bool_decide (removedAt e = None)).
  { unfold liveAt. by rewrite He. }
  rewrite Hlive in *. clear Hlive.
  unfold release.
  destruct l2 as [|m l2'].
  - assert (Hls : last s = Some n) by (by apply Hlast).
    simpl in Hnn. mgo. rewrite Hls. rewrite decide_True by done. mgo.
    rewrite Hnp. mgo. rewrite Hnn. mgo. rewrite Hnn. mgo.
    destruct (removedAt e) eqn:Hr;
      [ rewrite bool_decide_eq_true_2 by done;
        rewrite bool_decide_eq_false_2 in * by done
      | rewrite bool_decide_eq_false_2 by (intros H; by apply H);
        rewrite bool_decide_eq_true_2 in * by done ].
    all: eexists; split; [reflexivity|]; apply Hgen; mrun.
    all: try (rewrite Hnn; lk; reflexivity).
    all: try len_tac.
    all: try (lk; reflexivity).
    all: try (intros ? ? Hc; rewrite Hnn in Hc; discriminate).
    all: try (intros x ? ? _; lk; reflexivity).
    all: by rewrite last_snoc.
  - assert (Hls : last s <> Some n) by (intros H; by apply Hlast in H).
    simpl in Hnn. simpl in H2. destruct H2 as [_ (ndm & Hm & Hmp & _)].
    assert (Hmn : m <> n) by (intros ->; apply Hn2; by left).
    assert (Hmp' : m <> p).
    { intros ->. apply NoDup_app in Hnd as (_ & _ & Hnd).
      apply NoDup_cons in Hnd as (Hnd & _). apply Hnd. right. by left. }
    pose proof (lookup_lt_Some _ _ _ Hm) as Hltm.
    mgo. rewrite decide_False by done. mgo.
    rewrite Hnp. mgo. rewrite Hnn. mgo. rewrite Hnn. mgo.
    destruct (removedAt e) eqn:Hr;
      [ rewrite bool_decide_eq_true_2 by done;
        rewrite bool_decide_eq_false_2 in * by done
      | rewrite bool_decide_eq_false_2 by (intros H; by apply H);
        rewrite bool_decide_eq_true_2 in * by done ].
    all: eexists; split; [reflexivity|]; apply Hgen; mrun.
    all: try (rewrite Hnn; lk; reflexivity).
    all: try len_tac.
    all: try (lk; reflexivity).
    all: try (intros ? ? Hc Hq; rewrite Hnn in Hc; injection Hc as <-;
              rewrite Hm in Hq; injection Hq as <-; lk; rewrite Hnp; reflexivity).
    all: try (intros x ? ? Hc; rewrite Hnn in Hc;
              assert (m <> x) by congruence; lk; reflexivity).
    all: by rewrite <- (wf_last _ _ Hwf), !last_app_cons, !last_cons_cons.
Qed.

(** ** Positional lookup *)

Lemma liveNodes_cons s n l :
  liveNodes s (n :: l) =
  if liveAt s n then n :: liveNodes s l else liveNodes s l.
Proof.
  unfold liveNodes. rewrite filter_cons.
  destruct (liveAt s n); [by rewrite decide_True|by rewrite decide_False].
Qed.

Lemma liveNodes_app s l1 l2 :
  liveNodes s (l1 ++ l2) = liveNodes s l1 ++ liveNodes s l2.
Proof. apply filter_app. Qed.

Lemma weight_range s n : 0 <= weight s n <= 1.
Proof.
  destruct (liveAt s n) eqn:E.
  - rewrite weight_live by done. lia.
  - rewrite weight_dead by done. lia.
Qed.

(** A rank k >= 1 within the live nodes is answered by the k-th live node
    with offset 1. *)
Lemma find_from_live s l (k : Z) :
  1 <= k <= Z.of_nat (length (liveNodes s l)) ->
  exists pre m post,
    l = pre ++ m :: post /\ liveAt s m = true /\
    Z.of_nat (length (liveNodes s (pre ++ [m]))) = k /\
    splay.find_from (weight s) l k = Some (m, 1).
Proof.
  revert k. induction l as [|n l IH]; intros k Hk.
  - simpl in Hk. lia.
  - rewrite liveNodes_cons in Hk. simpl.
    destruct (liveAt s n) eqn:E.
    + rewrite weight_live by done. destruct (decide (k = 1)) as [->|Hne].
      * exists [], n, l. simpl. rewrite liveNodes_cons, E. done.
      * rewrite (proj2 (Z.leb_gt _ _)) by lia.
        destruct (IH (k - 1)) as (pre & m & post & -> & Hm & Hlen & Hf).
        { simpl in Hk. lia. }
        exists (n :: pre), m, post. split; [done|]. split; [done|].
        split; [|done]. simpl. rewrite liveNodes_cons, E. simpl. lia.
    + rewrite weight_dead by done.
      rewrite (proj2 (Z.leb_gt _ _)) by lia. rewrite Z.sub_0_r.
      destruct (IH k Hk) as (pre & m & post & -> & Hm & Hlen & Hf).
      exists (n :: pre), m, post. split; [done|]. split; [done|].
      split; [|done]. simpl. by rewrite liveNodes_cons, E.
Qed.

Local Ltac mlow :=
  cbv beta delta [bind ret gets modify panic deref getNext getPrev load] iota;
  cbn [nodes elems dummyHead last size nodeMapByIndex nodeMapByCreatedAt
       elem prev next].

(** The loop of [Get] stops at the first live node that follows. *)
Lemma Get_loop_run s first pv l1 m dead n l2 fuel :
  linked (nodes s) first pv (l1 ++ m :: dead ++ n :: l2) None ->
  Forall (fun x => liveAt s x = false /\ is_Some (elemOf s x)) dead ->
  liveAt s n = true ->
  (length dead < fuel)%nat ->
  Get_loop fuel m s = Done n s.
Proof.
  revert l1 m fuel. induction dead as [|d dead IH]; intros l1 m fuel Hl Hd Hn Hf.
  - destruct fuel as [|fuel]; [simpl in Hf; lia|].
    apply linked_middle in Hl as (nd & Hnd & _ & Hnx & _). simpl in Hnx.
    assert (He : is_Some (elemOf s n)).
    { unfold liveAt in Hn. destruct (elemOf s n); [done|discriminate]. }
    destruct He as [e He].
    simpl. mlow. rewrite Hnd. mlow. rewrite Hnx.
    rewrite (isRemoved_run _ _ _ He), Hn. reflexivity.
  - destruct fuel as [|fuel]; [simpl in Hf; lia|].
    pose proof Hl as Hl'.
    apply linked_middle in Hl as (nd & Hnd & _ & Hnx & _). simpl in Hnx.
    apply Forall_cons in Hd as ((Hdd & [e He]) & Hd).
    simpl. mlow. rewrite Hnd. mlow. rewrite Hnx.
    rewrite (isRemoved_run _ _ _ He), Hdd. simpl.
    apply (IH (l1 ++ [m])); [by rewrite <- app_assoc|done|done|simpl in Hf; lia].
Qed.

Lemma Get_loop_next s l pre m post n :
  WF s l -> l = pre ++ m :: post ->
  head (liveNodes s post) = Some n ->
  Get_loop (fuel_of s) m s = Done n s.
Proof.
  intros Hwf -> Hh.
  apply head_filter_Some in Hh as Hsplit.
  destruct Hsplit as (dead & l2 & -> & Hdead).
  assert (Hn : liveAt s n = true).
  { apply head_Some_elem_of in Hh. by apply list_elem_of_filter in Hh as (Hn & _). }
  eapply Get_loop_run; [apply (wf_linked _ _ Hwf)| |done|].
  - apply Forall_forall. intros x Hx. split.
    + rewrite Forall_forall in Hdead. specialize (Hdead x Hx).
      by destruct (liveAt s x).
    + apply (wf_elems _ _ Hwf). rewrite !elem_of_app, elem_of_cons, elem_of_app. tauto.
  - pose proof (WF_fuel _ _ Hwf) as Hfu. unfold fuel_of.
    rewrite !length_app in Hfu. simpl in Hfu. rewrite length_app in Hfu. lia.
Qed.

(** [Get] answers the live node at the rank, whenever the rank is within the
    number of live nodes. *)
Lemma Get_spec s l idx :
  WF s l ->
  0 <= idx < Z.of_nat (length (liveNodes s l)) ->
  exists n, liveNodes s l !! Z.to_nat idx = Some n /\ Get idx s = Done n s.
Proof.
  intros Hwf Hidx.
  destruct (lookup_lt_is_Some_2 (liveNodes s l) (Z.to_nat idx)) as [n Hn]; [lia|].
  exists n. split; [done|].
  unfold Get. mrun. unfold splay.Find. rewrite (wf_index _ _ Hwf).
  destruct (decide (idx = 0)) as [->|Hne].
  - destruct (WF_nonempty _ _ Hwf) as (r & Hr). rewrite Hr. simpl.
    rewrite (proj2 (Z.leb_le _ _)) by apply weight_range.
    rewrite decide_True by done.
    eapply (Get_loop_next s l []); [done|by rewrite Hr|].
    rewrite Hr, liveNodes_cons, (wf_head _ _ Hwf) in Hn.
    simpl in Hn. by rewrite <- head_lookup in Hn.
  - destruct (find_from_live s l idx) as (pre & m & post & Hl & Hm & Hlen & Hf); [lia|].
    rewrite Hf. rewrite decide_False by tauto. simpl.
    eapply (Get_loop_next s l pre); [done|done|].
    rewrite Hl in Hn.
    replace (pre ++ m :: post) with ((pre ++ [m]) ++ post) in Hn
      by (by rewrite <- app_assoc).
    rewrite liveNodes_app, lookup_app_r in Hn by lia.
    replace (Z.to_nat idx - length (liveNodes s (pre ++ [m])))%nat with 0%nat in Hn by lia.
    by rewrite <- head_lookup in Hn.
Qed.

(** ** The checker is sound *)

Lemma linkedb_sound ns first pv l nl :
  linkedb ns first pv l nl = true -> linked ns first pv l nl.
Proof.
  revert first pv. induction l as [|n l IH]; intros first pv; simpl.
  - by intros H%bool_decide_eq_true.
  - intros (H1%bool_decide_eq_true & H2)%andb_prop. split; [done|].
    destruct (ns !! n) as [nd|]; [|discriminate].
    apply andb_prop in H2 as (H2%bool_decide_eq_true & H3).
    exists nd. split; [done|]. split; [done|]. by apply IH.
Qed.

Lemma wfb_sound s l : wfb s l = true -> WF s l.
Proof.
  unfold wfb. intros H.
  repeat match goal with
  | H : _ && _ = true |- _ => apply andb_prop in H as [H ?]
  end.
  constructor.
  - by apply linkedb_sound.
  - by eapply bool_decide_eq_true.
  - by eapply bool_decide_eq_true.
  - intros n Hn.
    match goal with Hf : forallb _ _ = true |- _ =>
      rewrite forallb_forall in Hf; apply list_elem_of_In, Hf in Hn end.
    by eapply bool_decide_eq_true.
  - intros k n Hkn.
    match goal with Hm : bool_decide (map_Forall _ _) = true |- _ =>
      apply bool_decide_eq_true in Hm; specialize (Hm k n Hkn); simpl in Hm;
      unfold key_ok in Hm; apply andb_prop in Hm as [Hin Hk] end.
    split; [by eapply bool_decide_eq_true|].
    destruct (elemOf s n) as [e|]; [|discriminate].
    exists e. split; [done|]. by eapply bool_decide_eq_true.
  - by eapply bool_decide_eq_true.
  - match goal with Hh : negb _ = true |- _ => by apply negb_true_iff in Hh end.
Qed.

Lemma WF_three : WF three_elements [0; 1; 2; 3]%nat.
Proof. apply wfb_sound. vm_compute. reflexivity. Qed.

(** * The claims *)

(** ** C10: the sentinel is outside the public surface *)

(** C10. A freshly constructed list has its sentinel tombstoned at
    construction: [Len] is 0, [Nodes] is the empty sequence (nor does it ever
    hold the sentinel of a well-formed list, since it starts at the
    sentinel's successor) and [Marshal] is "[]". *)
Theorem fresh_list_hides_sentinel :
  (exists e, elemOf NewRGATreeList (dummyHead NewRGATreeList) = Some e /\
             removedAt e = Some InitialTicket) /\
  Len NewRGATreeList = Done 0 NewRGATreeList /\
  Nodes NewRGATreeList = Done [] NewRGATreeList /\
  Marshal NewRGATreeList = Done "[]"%string NewRGATreeList /\
  WF NewRGATreeList [dummyHead NewRGATreeList].
Proof.
  split; [eexists; split; vm_compute; reflexivity|].
  split; [vm_compute; reflexivity|].
  split; [vm_compute; reflexivity|].
  split; [vm_compute; reflexivity|].
  apply wfb_sound. vm_compute. reflexivity.
Qed.

(** ** C7: the rendering *)

(** C7. The code does not render the live elements joined by single commas
    when the physically last node is a tombstone: after Add("0"), Add("1")
    and the deletion of index 1 the state is well formed and its live texts
    are ["0"], so the rendering asked for is "[0]", but [Marshal] returns
    "[0,]". *)
Theorem Marshal_tombstoned_tail :
  WF tombstoned_tail [0; 1; 2]%nat /\
  liveTexts tombstoned_tail [0; 1; 2]%nat = ["0"%string] /\
  Marshal_spec tombstoned_tail [0; 1; 2]%nat = "[0]"%string /\
  Marshal tombstoned_tail = Done "[0,]"%string tombstoned_tail.
Proof.
  split; [apply wfb_sound; vm_compute; reflexivity|].
  split; [vm_compute; reflexivity|].
  split; [vm_compute; reflexivity|].
  vm_compute. reflexivity.
Qed.

(** ** C5: moving and the live counter *)

(** C5. A move of a tombstoned node changes [Len]: with one tombstone in the
    list ([Len] = 0, no live node), the accepted
    [MoveAfter InitialTicket (ticketAt 1) (ticketAt 3)] leaves the node a
    tombstone and [Len] at 1. *)
Theorem MoveAfter_tombstone_changes_Len :
  WF one_tombstone [0; 1]%nat /\
  nodeMapByCreatedAt one_tombstone !! Key (ticketAt 1) = Some 1%nat /\
  liveAt one_tombstone 1%nat = false /\
  Len one_tombstone = Done 0 one_tombstone /\
  MoveAfter InitialTicket (ticketAt 1) (ticketAt 3) one_tombstone
    = Done tt moved_tombstone /\
  liveNodes moved_tombstone [0; 2]%nat = [] /\
  Len moved_tombstone = Done 1 moved_tombstone.
Proof.
  split; [apply wfb_sound; vm_compute; reflexivity|].
  split; [vm_compute; reflexivity|].
  split; [vm_compute; reflexivity|].
  split; [vm_compute; reflexivity|].
  split; [vm_compute; reflexivity|].
  split; [vm_compute; reflexivity|].
  vm_compute; reflexivity.
Qed.

(** ** C6: positional lookup *)

(** C6. After the move of a tombstone (the defect of C5) the state is well
    formed and holds no live node, [Len] is 1, and [Get 0], an index below
    [Len], dereferences nil. *)
Theorem Get_below_Len_nil_dereference :
  WF moved_tombstone [0; 2]%nat /\
  liveNodes moved_tombstone [0; 2]%nat = [] /\
  Len moved_tombstone = Done 1 moved_tombstone /\
  Get 0 moved_tombstone = Panic NilDereference moved_tombstone.
Proof.
  split; [apply wfb_sound; vm_compute; reflexivity|].
  split; [vm_compute; reflexivity|].
  split; [vm_compute; reflexivity|].
  vm_compute; reflexivity.
Qed.

(** ** C9: unknown identifiers *)

(** C9. [MoveAfter] of an element after itself fails with the
    unknown-identifier condition although the ticket resolves, and after the
    node was released: the ticket is no longer in the map, the node is no
    longer in the list and the counter has dropped. *)
Theorem MoveAfter_self_fails_after_release :
  WF one_element [0; 1]%nat /\
  nodeMapByCreatedAt one_element !! Key (ticketAt 1) = Some 1%nat /\
  exists s',
    MoveAfter (ticketAt 1) (ticketAt 1) (ticketAt 2) one_element
      = Panic (UnknownCreatedAt (Key (ticketAt 1))) s' /\
    nodeMapByCreatedAt s' !! Key (ticketAt 1) = None /\
    Nodes one_element = Done [1%nat] one_element /\
    Nodes s' = Done [] s' /\
    size one_element = 1 /\ size s' = 0.
Proof.
  split; [apply wfb_sound; vm_compute; reflexivity|].
  split; [vm_compute; reflexivity|].
  eexists. split; [vm_compute; reflexivity|].
  split; [vm_compute; reflexivity|].
  split; [vm_compute; reflexivity|].
  split; [vm_compute; reflexivity|].
  split; vm_compute; reflexivity.
Qed.

(** ** C3: tombstoning is idempotent *)

Lemma DeleteByCreatedAt_tombstoned s c d n e :
  nodeMapByCreatedAt s !! Key c = Some n ->
  elemOf s n = Some e ->
  removedAt e <> None ->
  exists s' e',
    DeleteByCreatedAt c d s = Done n s' /\
    size s' = size s /\
    nodeMapByIndex s' = nodeMapByIndex s /\
    nodes s' = nodes s /\
    last s' = last s /\
    nodeMapByCreatedAt s' = nodeMapByCreatedAt s /\
    elemOf s' n = Some e' /\ removedAt e' <> None.
Proof.
  intros Hmap He Hr.
  pose proof He as He0.
  apply elemOf_Some in He as (nd & Hn & He).
  pose proof (lookup_lt_Some _ _ _ He) as Hlt.
  unfold DeleteByCreatedAt. mgo.
  rewrite (bool_decide_eq_true_2 _ Hr). rewrite andb_false_r. mgo.
  eexists. exists (fst (Remove e d)). split; [reflexivity|]. mrun.
  repeat (split; [reflexivity|]).
  split.
  - unfold elemOf. mrun. rewrite Hn. lk. reflexivity.
  - unfold Remove. destruct (removedAt e) as [r|] eqn:E; [|done].
    destruct (After d r); simpl; [done|]. by rewrite E.
Qed.

(** C3. A second [DeleteByCreatedAt] on an already tombstoned node, with
    any removal ticket, returns the node and leaves the live counter, the
    index tree, the links and the identity map as they are; the first,
    state-changing removal of a live node rotates its tree position to the
    root, decrements the live counter and leaves it tombstoned, so that
    every later call is of the first kind. *)
Theorem DeleteByCreatedAt_idempotent s c d n e :
  nodeMapByCreatedAt s !! Key c = Some n ->
  elemOf s n = Some e ->
  (removedAt e <> None ->
   exists s', DeleteByCreatedAt c d s = Done n s' /\
     Len s' = Done (size s) s' /\
     nodeMapByIndex s' = nodeMapByIndex s /\
     nodes s' = nodes s /\
     nodeMapByCreatedAt s' = nodeMapByCreatedAt s) /\
  (removedAt e = None ->
   exists s1, DeleteByCreatedAt c d s = Done n s1 /\
     Len s1 = Done (int_wrap (size s - 1)) s1 /\
     nodeMapByIndex s1 = splay.Splay (nodeMapByIndex s) n /\
     liveAt s1 n = false /\
     forall d', exists s2, DeleteByCreatedAt c d' s1 = Done n s2 /\
       Len s2 = Done (size s1) s2 /\
       nodeMapByIndex s2 = nodeMapByIndex s1 /\
       nodes s2 = nodes s1 /\
       nodeMapByCreatedAt s2 = nodeMapByCreatedAt s1).
Proof.
  intros Hmap He. split.
  - intros Hr.
    destruct (DeleteByCreatedAt_tombstoned s c d n e Hmap He Hr)
      as (s' & e' & Hrun & Hsz & Hidx & Hns & _ & Hm & _).
    exists s'. split; [done|]. unfold Len, gets. rewrite Hsz. done.
  - intros Hr.
    pose proof He as He0.
    apply elemOf_Some in He as (nd & Hn & He).
    pose proof (lookup_lt_Some _ _ _ He) as Hlt.
    assert (Hrm : Remove e d = (SetRemovedAt e d, true)).
    { unfold Remove. by rewrite Hr. }
    unfold DeleteByCreatedAt. mgo. rewrite Hrm. mrun.
    rewrite bool_decide_eq_false_2 by (intros H; by apply H). simpl. mgo.
    eexists. split; [reflexivity|].
    match goal with |- _ = Done _ ?st /\ _ => set (s1 := st) end.
    split; [reflexivity|]. split; [reflexivity|].
    assert (Hel : elemOf s1 n = Some (SetRemovedAt e d)).
    { unfold elemOf. subst s1. mrun. rewrite Hn. lk. reflexivity. }
    split.
    + unfold liveAt. rewrite Hel. reflexivity.
    + intros d'.
      destruct (DeleteByCreatedAt_tombstoned s1 c d' n _ Hmap Hel) as
        (s2 & e2 & Hrun & Hsz & Hidx & Hns & _ & Hm & _); [discriminate|].
      exists s2. split; [exact Hrun|]. unfold Len, gets. rewrite Hsz. done.
Qed.

Lemma DeleteByCreatedAt_idempotent_witness :
  nodeMapByCreatedAt one_element !! Key (ticketAt 1) = Some 1%nat /\
  elemOf one_element 1%nat = Some (NewPrimitive "x" (ticketAt 1)) /\
  exists s1, DeleteByCreatedAt (ticketAt 1) (ticketAt 2) one_element = Done 1%nat s1 /\
    Len s1 = Done (int_wrap (size one_element - 1)) s1.
Proof.
  assert (H1 : nodeMapByCreatedAt one_element !! Key (ticketAt 1) = Some 1%nat)
    by (vm_compute; reflexivity).
  assert (H2 : elemOf one_element 1%nat = Some (NewPrimitive "x" (ticketAt 1)))
    by (vm_compute; reflexivity).
  split; [exact H1|]. split; [exact H2|].
  destruct (DeleteByCreatedAt_idempotent one_element (ticketAt 1) (ticketAt 2)
              1%nat _ H1 H2) as [_ Hlive].
  destruct (Hlive eq_refl) as (s1 & Hrun & Hlen & _).
  exists s1. split; [exact Hrun|exact Hlen].
Defined.

(** ** C1: the placement rule *)

Lemma findNextBeforeExecutedAt_spec s l1 a l2 p t :
  WF s (l1 ++ a :: l2) ->
  nodeMapByCreatedAt s !! Key p = Some a ->
  findNextBeforeExecutedAt p t s =
  Done (default a (list.last (fst (scan (afterAt s t) l2)))) s.
Proof.
  intros Hwf Hmap. unfold findNextBeforeExecutedAt. mgo. unfold fuel_of.
  eapply findNext_loop_run; [exact (wf_linked _ _ Hwf)| |].
  - intros n Hn. apply (wf_elems _ _ Hwf). rewrite elem_of_app. right. by right.
  - pose proof (WF_fuel _ _ Hwf) as Hf. rewrite length_app in Hf. simpl in Hf. lia.
Qed.

Lemma Add_is_insertAfter s l value v :
  WF s l -> elems s !! value = Some v ->
  exists ln el, last s = Some ln /\ elemOf s ln = Some el /\
    Add value s = insertAfter (createdAt el) value (createdAt v) s.
Proof.
  intros Hwf Hv. destruct (WF_nonempty _ _ Hwf) as (r & Hl).
  assert (Hlast : exists ln, list.last l = Some ln).
  { rewrite Hl. destruct (list.last (dummyHead s :: r)) eqn:E; [by eauto|].
    by apply last_None in E. }
  destruct Hlast as (ln & Hln).
  destruct (wf_elems _ _ Hwf ln) as [el Hel]; [by apply last_Some_elem_of|].
  exists ln, el. rewrite <- (wf_last _ _ Hwf). split; [done|]. split; [done|].
  unfold Add. unfold bind at 1. unfold gets. rewrite <- (wf_last _ _ Hwf), Hln.
  unfold bind at 1. simpl. unfold bind at 1. rewrite (CreatedAt_run _ _ _ Hel).
  unfold bind, loadElem. rewrite Hv. reflexivity.
Qed.

(** C1. For an insertion with the anchor [prev] resolved from the creation
    ticket and the ordering ticket [executedAt], [findNextBeforeExecutedAt]
    comes to the final position of the scan that starts at [prev] and
    advances while the next node exists and is positioned strictly after
    [executedAt], and [insertAfter] links the new node immediately after
    that position: the list becomes the one the placement rule gives.
    [InsertAfter] and [Add] are this insertion with the element's creation
    ticket as ordering ticket. *)
Theorem insertAfter_placement s l prevCreatedAt prev value v executedAt :
  WF s l ->
  nodeMapByCreatedAt s !! Key prevCreatedAt = Some prev ->
  elems s !! value = Some v ->
  exists l1 l2 s',
    l = l1 ++ prev :: l2 /\
    let run := fst (scan (afterAt s executedAt) l2) in
    let rest := snd (scan (afterAt s executedAt) l2) in
    l2 = run ++ rest /\
    Forall (fun n => afterAt s executedAt n = true) run /\
    match rest with [] => True | n :: _ => afterAt s executedAt n = false end /\
    findNextBeforeExecutedAt prevCreatedAt executedAt s
      = Done (default prev (list.last run)) s /\
    insertAfter prevCreatedAt value executedAt s = Done tt s' /\
    WF s' (l1 ++ prev :: run ++ length (nodes s) :: rest) /\
    (exists pq nq, nodes s' !! length (nodes s) = Some (mkNode value pq nq)) /\
    placement_rule (afterAt s executedAt) prev (length (nodes s)) l
      = l1 ++ prev :: run ++ length (nodes s) :: rest /\
    InsertAfter prevCreatedAt value s
      = insertAfter prevCreatedAt value (createdAt v) s /\
    exists ln el, last s = Some ln /\ elemOf s ln = Some el /\
      Add value s = insertAfter (createdAt el) value (createdAt v) s.
Proof.
  intros Hwf Hmap Hv.
  destruct (wf_map _ _ Hwf _ _ Hmap) as (Hal & _).
  destruct (list_elem_of_split _ _ Hal) as (l1 & l2 & ->).
  assert (Hal1 : prev ∉ l1).
  { pose proof (wf_nodup _ _ Hwf) as Hnd.
    apply NoDup_app in Hnd as (_ & Hd & _). intros H. eapply Hd; [done|by left]. }
  destruct (insertAfter_spec s _ prevCreatedAt prev value v executedAt Hwf Hmap Hv)
    as (s' & Hrun & Hwf' & _ & Hnew & _).
  rewrite placement_rule_decomp in Hwf' by done.
  exists l1, l2, s'. split; [done|]. simpl.
  split; [by rewrite scan_app|].
  split; [apply scan_run|]. split; [apply scan_rest|].
  split; [by eapply findNextBeforeExecutedAt_spec|].
  split; [done|]. split; [done|]. split; [done|].
  split; [by apply placement_rule_decomp|].
  split.
  - unfold InsertAfter, bind, loadElem. by rewrite Hv.
  - destruct (Add_is_insertAfter s _ value v Hwf Hv) as (ln & el & H1 & H2 & H3).
    by exists ln, el.
Qed.

Lemma insertAfter_placement_witness :
  WF three_elements [0; 1; 2; 3]%nat /\
  nodeMapByCreatedAt three_elements !! Key (ticketAt 1) = Some 1%nat /\
  elems three_elements !! 3%nat = Some (NewPrimitive "2" (ticketAt 3)) /\
  exists l1 l2 s',
    [0; 1; 2; 3]%nat = l1 ++ 1%nat :: l2 /\
    insertAfter (ticketAt 1) 3%nat (ticketAt 2) three_elements = Done tt s'.
Proof.
  assert (H0 : WF three_elements [0; 1; 2; 3]%nat)
    by (apply wfb_sound; vm_compute; reflexivity).
  assert (H1 : nodeMapByCreatedAt three_elements !! Key (ticketAt 1) = Some 1%nat)
    by (vm_compute; reflexivity).
  assert (H2 : elems three_elements !! 3%nat = Some (NewPrimitive "2" (ticketAt 3)))
    by (vm_compute; reflexivity).
  split; [exact H0|]. split; [exact H1|]. split; [exact H2|].
  destruct (insertAfter_placement three_elements _ (ticketAt 1) 1%nat 3%nat _
              (ticketAt 2) H0 H1 H2)
    as (l1 & l2 & s' & Hl & _ & _ & _ & _ & Hrun & _).
  exists l1, l2, s'. split; [exact Hl|exact Hrun].
Defined.

(** ** C2: two insertions at one anchor *)

Lemma scan_app_run after run l :
  Forall (fun n => after n = true) run ->
  scan after (run ++ l) = (run ++ fst (scan after l), snd (scan after l)).
Proof.
  intros H. induction H as [|n run Hn Hrun IH]; simpl.
  - by destruct (scan after l).
  - rewrite Hn, IH. done.
Qed.

Lemma scan_stop after l :
  match l with [] => True | n :: _ => after n = false end ->
  scan after l = ([], l).
Proof. destruct l as [|n l]; simpl; [done|]. by intros ->. Qed.

Lemma afterAt_trans s t1 t2 n :
  After t1 t2 = true -> afterAt s t1 n = true -> afterAt s t2 n = true.
Proof.
  unfold afterAt. destruct (elemOf s n) as [e|]; [|done].
  intros H12 H1. by eapply After_trans.
Qed.

Lemma insertAfter_twice s l A a x y ex ey t1 t2 :
  WF s l ->
  nodeMapByCreatedAt s !! Key A = Some a ->
  elems s !! x = Some ex -> elems s !! y = Some ey ->
  positionedAt ex = t1 -> positionedAt ey = t2 ->
  After t1 t2 = true ->
  Key (createdAt ex) <> Key A -> Key (createdAt ey) <> Key A ->
  exists sxy syx l1 r1 m rest,
    l = l1 ++ a :: r1 ++ m ++ rest /\
    (let* _ := insertAfter A x t1 in insertAfter A y t2) s = Done tt sxy /\
    (let* _ := insertAfter A y t2 in insertAfter A x t1) s = Done tt syx /\
    WF sxy (l1 ++ a :: r1 ++ length (nodes s) :: m ++ S (length (nodes s)) :: rest) /\
    WF syx (l1 ++ a :: r1 ++ S (length (nodes s)) :: m ++ length (nodes s) :: rest) /\
    elemOf sxy (length (nodes s)) = Some ex /\
    elemOf sxy (S (length (nodes s))) = Some ey /\
    elemOf syx (length (nodes s)) = Some ey /\
    elemOf syx (S (length (nodes s))) = Some ex /\
    (exists p1 q1 p2 q2,
       nodes sxy !! length (nodes s) = Some (mkNode x p1 q1) /\
       nodes sxy !! S (length (nodes s)) = Some (mkNode y p2 q2)) /\
    (exists p1 q1 p2 q2,
       nodes syx !! length (nodes s) = Some (mkNode y p1 q1) /\
       nodes syx !! S (length (nodes s)) = Some (mkNode x p2 q2)).
Proof.
  intros Hwf Hmap Hx Hy Hpx Hpy H12 Hkx Hky.
  destruct (wf_map _ _ Hwf _ _ Hmap) as (Hal & _).
  destruct (list_elem_of_split _ _ Hal) as (l1 & l2 & ->).
  assert (Hal1 : a ∉ l1).
  { pose proof (wf_nodup _ _ Hwf) as Hnd.
    apply NoDup_app in Hnd as (_ & Hd & _). intros H. eapply Hd; [done|by left]. }
  set (n1 := length (nodes s)).
  set (r1 := fst (scan (afterAt s t1) l2)).
  set (rest1 := snd (scan (afterAt s t1) l2)).
  set (m := fst (scan (afterAt s t2) rest1)).
  set (rest := snd (scan (afterAt s t2) rest1)).
  assert (Hl2 : l2 = r1 ++ rest1) by (symmetry; apply scan_app).
  assert (Hrest1 : rest1 = m ++ rest) by (symmetry; apply scan_app).
  assert (Hr1 : Forall (fun n => afterAt s t1 n = true) r1) by apply scan_run.
  assert (Hr1' : Forall (fun n => afterAt s t2 n = true) r1).
  { eapply Forall_impl; [exact Hr1|]. intros n. by apply afterAt_trans. }
  assert (Hold : forall n, n ∈ l2 -> is_Some (elemOf s n)).
  { intros n Hn. apply (wf_elems _ _ Hwf). rewrite elem_of_app. right. by right. }
  assert (Hscan2 : scan (afterAt s t2) l2 = (r1 ++ m, rest)).
  { rewrite Hl2. by rewrite scan_app_run. }
  (* x first, then y *)
  destruct (insertAfter_spec s _ A a x ex t1 Hwf Hmap Hx)
    as (s1 & Hrun1 & Hwf1 & Hext1 & (pq1 & nq1 & Hn1) & Hlen1 & _ & Hmap1).
  rewrite placement_rule_decomp in Hwf1 by done. fold r1 rest1 n1 in Hwf1.
  assert (Hmap1' : nodeMapByCreatedAt s1 !! Key A = Some a).
  { rewrite Hmap1. by rewrite lookup_insert_ne. }
  assert (Hy1 : elems s1 !! y = Some ey) by (destruct Hext1 as (-> & _); done).
  assert (He1 : elemOf s1 n1 = Some ex).
  { unfold elemOf. fold n1 in Hn1. rewrite Hn1. simpl.
    destruct Hext1 as (-> & _). done. }
  destruct (insertAfter_spec s1 _ A a y ey t2 Hwf1 Hmap1' Hy1)
    as (sxy & Hrun12 & Hwf12 & Hext12 & (pq2 & nq2 & Hn2) & _ & _ & _).
  rewrite Hlen1 in Hwf12, Hn2. fold n1 in Hwf12, Hn2.
  rewrite placement_rule_decomp in Hwf12 by done.
  assert (Hs1 : scan (afterAt s1 t2) (r1 ++ n1 :: rest1)
                = (r1 ++ n1 :: m, rest)).
  { rewrite (scan_ext _ (fun n => if decide (n = n1) then true else afterAt s t2 n)).
    - rewrite scan_app_run.
      + simpl. rewrite decide_True by done.
        rewrite (scan_ext _ (afterAt s t2)); [done|].
        intros n Hn. rewrite decide_False; [done|].
        intros ->. assert (n1 ∈ l1 ++ a :: l2).
        { rewrite Hl2. rewrite !elem_of_app, elem_of_cons, elem_of_app. tauto. }
        pose proof (WF_lt _ _ _ Hwf H). unfold n1 in *. lia.
      + eapply Forall_impl; [exact Hr1'|]. intros n Hn. simpl in Hn.
        destruct (decide (n = n1)); done.
    - intros n Hn. destruct (decide (n = n1)) as [->|Hne].
      + unfold afterAt. rewrite He1, Hpx. done.
      + apply (extends_afterAt s); [done|]. apply Hold. rewrite Hl2.
        rewrite elem_of_app, elem_of_cons in *. tauto. }
  rewrite Hs1 in Hwf12. simpl in Hwf12.
  (* y first, then x *)
  destruct (insertAfter_spec s _ A a y ey t2 Hwf Hmap Hy)
    as (s2 & Hrun2 & Hwf2 & Hext2 & (pq3 & nq3 & Hn3) & Hlen2 & _ & Hmap2).
  rewrite placement_rule_decomp in Hwf2 by done. fold n1 in Hwf2.
  rewrite Hscan2 in Hwf2. simpl in Hwf2.
  assert (Hmap2' : nodeMapByCreatedAt s2 !! Key A = Some a).
  { rewrite Hmap2. by rewrite lookup_insert_ne. }
  assert (Hx2 : elems s2 !! x = Some ex) by (destruct Hext2 as (-> & _); done).
  assert (He2 : elemOf s2 n1 = Some ey).
  { unfold elemOf. fold n1 in Hn3. rewrite Hn3. simpl.
    destruct Hext2 as (-> & _). done. }
  destruct (insertAfter_spec s2 _ A a x ex t1 Hwf2 Hmap2' Hx2)
    as (syx & Hrun21 & Hwf21 & Hext21 & (pq4 & nq4 & Hn4) & _ & _ & _).
  rewrite Hlen2 in Hwf21, Hn4. fold n1 in Hwf21, Hn4.
  rewrite placement_rule_decomp in Hwf21 by done.
  assert (Hs2 : scan (afterAt s2 t1) ((r1 ++ m) ++ n1 :: rest)
                = (r1, m ++ n1 :: rest)).
  { rewrite <- app_assoc.
    rewrite (scan_ext _ (fun n => if decide (n = n1) then false else afterAt s t1 n)).
    - rewrite scan_app_run.
      + rewrite scan_stop; [simpl; by rewrite app_nil_r|].
        pose proof (scan_rest (afterAt s t1) l2) as Hstop. fold rest1 in Hstop.
        rewrite Hrest1 in Hstop. destruct m as [|m0 m']; simpl in *.
        * by rewrite decide_True.
        * by destruct (decide (m0 = n1)).
      + eapply Forall_forall. intros n Hn. rewrite decide_False.
        * rewrite Forall_forall in Hr1. by apply Hr1.
        * intros ->. assert (n1 ∈ l1 ++ a :: l2).
          { rewrite Hl2. rewrite !elem_of_app, elem_of_cons, elem_of_app. tauto. }
          pose proof (WF_lt _ _ _ Hwf H). unfold n1 in *. lia.
    - intros n Hn. destruct (decide (n = n1)) as [->|Hne].
      + unfold afterAt. rewrite He2, Hpy. by apply After_asym.
      + apply (extends_afterAt s); [done|]. apply Hold. rewrite Hl2, Hrest1.
        rewrite !elem_of_app, elem_of_cons in *. tauto. }
  rewrite Hs2 in Hwf21. simpl in Hwf21.
  exists sxy, syx, l1, r1, m, rest.
  split; [by rewrite Hl2, Hrest1|].
  split; [unfold bind; by rewrite Hrun1|].
  split; [unfold bind; by rewrite Hrun2|].
  split; [by rewrite <- app_assoc in Hwf12|].
  split; [done|].
  assert (Hexy : elems sxy = elems s).
  { destruct Hext12 as (-> & _). by destruct Hext1 as (-> & _). }
  assert (Heyx : elems syx = elems s).
  { destruct Hext21 as (-> & _). by destruct Hext2 as (-> & _). }
  split; [by eapply extends_elemOf|].
  split; [unfold elemOf; rewrite Hn2; simpl; by rewrite Hexy|].
  split; [by eapply extends_elemOf|].
  split; [unfold elemOf; rewrite Hn4; simpl; by rewrite Heyx|].
  split.
  - destruct Hext12 as (_ & _ & Hk). destruct (Hk _ _ Hn1) as (nd' & Hnd' & E).
    destruct nd' as [e' p' q']. simpl in E. subst e'. by eauto 10.
  - destruct Hext21 as (_ & _ & Hk). destruct (Hk _ _ Hn3) as (nd' & Hnd' & E).
    destruct nd' as [e' p' q']. simpl in E. subst e'. by eauto 10.
Qed.

(** C2. Two insertions anchored at the same existing predecessor, of an
    element [x] placed with ordering ticket [t1] and an element [y] placed
    with ordering ticket [t2], [t1] and [t2] distinct, give in either order
    of application the same list up to the two new nodes: the nodes that
    were there keep their places, and the element with the later ticket
    stands first, closer to the anchor, whichever call came first. *)
Theorem insertAfter_order_independent s l A a x y ex ey t1 t2 :
  WF s l ->
  nodeMapByCreatedAt s !! Key A = Some a ->
  elems s !! x = Some ex -> elems s !! y = Some ey ->
  positionedAt ex = t1 -> positionedAt ey = t2 ->
  t1 <> t2 ->
  Key (createdAt ex) <> Key A -> Key (createdAt ey) <> Key A ->
  exists sxy syx pre mid post,
    (let* _ := insertAfter A x t1 in insertAfter A y t2) s = Done tt sxy /\
    (let* _ := insertAfter A y t2 in insertAfter A x t1) s = Done tt syx /\
    l = pre ++ mid ++ post /\ a ∈ pre /\
    exists nf ns nf' ns',
      WF sxy (pre ++ nf :: mid ++ ns :: post) /\
      WF syx (pre ++ nf' :: mid ++ ns' :: post) /\
      let first := if After t1 t2 then x else y in
      let second := if After t1 t2 then y else x in
      wraps sxy nf first /\ wraps sxy ns second /\
      wraps syx nf' first /\ wraps syx ns' second.
Proof.
  intros Hwf Hmap Hx Hy Hpx Hpy Hne Hkx Hky.
  destruct (After_total t1 t2 Hne) as [H12|H21].
  - destruct (insertAfter_twice s l A a x y ex ey t1 t2)
      as (sxy & syx & l1 & r1 & m & rest & Hl & Hxy & Hyx & Hwxy & Hwyx &
          _ & _ & _ & _ & (p1 & q1 & p2 & q2 & Hn1 & Hn2) &
          (p3 & q3 & p4 & q4 & Hn3 & Hn4)); try done.
    exists sxy, syx, (l1 ++ a :: r1), m, rest.
    split; [done|]. split; [done|].
    split; [by rewrite <- app_assoc|].
    split; [rewrite elem_of_app, elem_of_cons; tauto|].
    exists (length (nodes s)), (S (length (nodes s))),
           (S (length (nodes s))), (length (nodes s)).
    rewrite <- !app_assoc. simpl.
    split; [done|]. split; [done|]. rewrite H12.
    split; [by eexists _, _|]. split; [by eexists _, _|].
    split; by eexists _, _.
  - destruct (insertAfter_twice s l A a y x ey ex t2 t1)
      as (syx & sxy & l1 & r1 & m & rest & Hl & Hyx & Hxy & Hwyx & Hwxy &
          _ & _ & _ & _ & (p1 & q1 & p2 & q2 & Hn1 & Hn2) &
          (p3 & q3 & p4 & q4 & Hn3 & Hn4)); try done.
    exists sxy, syx, (l1 ++ a :: r1), m, rest.
    split; [done|]. split; [done|].
    split; [by rewrite <- app_assoc|].
    split; [rewrite elem_of_app, elem_of_cons; tauto|].
    exists (S (length (nodes s))), (length (nodes s)),
           (length (nodes s)), (S (length (nodes s))).
    rewrite <- !app_assoc. simpl.
    split; [done|]. split; [done|]. rewrite (After_asym _ _ H21).
    split; [by eexists _, _|]. split; [by eexists _, _|].
    split; by eexists _, _.
Qed.

Lemma insertAfter_order_independent_witness :
  WF two_pending [0; 1]%nat /\
  nodeMapByCreatedAt two_pending !! Key (ticketAt 1) = Some 1%nat /\
  mkTicket 5 1 0 <> mkTicket 5 2 0 /\
  exists sxy syx,
    (let* _ := insertAfter (ticketAt 1) 2%nat (mkTicket 5 1 0) in
     insertAfter (ticketAt 1) 3%nat (mkTicket 5 2 0)) two_pending = Done tt sxy /\
    (let* _ := insertAfter (ticketAt 1) 3%nat (mkTicket 5 2 0) in
     insertAfter (ticketAt 1) 2%nat (mkTicket 5 1 0)) two_pending = Done tt syx.
Proof.
  assert (H0 : WF two_pending [0; 1]%nat)
    by (apply wfb_sound; vm_compute; reflexivity).
  assert (H1 : nodeMapByCreatedAt two_pending !! Key (ticketAt 1) = Some 1%nat)
    by (vm_compute; reflexivity).
  assert (H2 : elems two_pending !! 2%nat = Some (NewPrimitive "a" (mkTicket 5 1 0)))
    by (vm_compute; reflexivity).
  assert (H3 : elems two_pending !! 3%nat = Some (NewPrimitive "b" (mkTicket 5 2 0)))
    by (vm_compute; reflexivity).
  assert (H4 : mkTicket 5 1 0 <> mkTicket 5 2 0) by discriminate.
  split; [exact H0|]. split; [exact H1|]. split; [exact H4|].
  destruct (insertAfter_order_independent two_pending _ (ticketAt 1) 1%nat
              2%nat 3%nat _ _ (mkTicket 5 1 0) (mkTicket 5 2 0)
              H0 H1 H2 H3 eq_refl eq_refl H4)
    as (sxy & syx & _ & _ & _ & Hxy & Hyx & _).
  - vm_compute. discriminate.
  - vm_compute. discriminate.
  - exists sxy, syx. split; [exact Hxy|exact Hyx].
Defined.

(** ** C4: relocation *)

Lemma WF_storeElem s l r e e' :
  WF s l -> elems s !! r = Some e ->
  createdAt e' = createdAt e -> removedAt e' = removedAt e ->
  WF (set_elems (fun es => <[r := e']> es) s) l.
Proof.
  intros Hwf Hr Hc Hrm.
  pose proof (lookup_lt_Some _ _ _ Hr) as Hlt.
  assert (Hel : forall n x, elemOf s n = Some x ->
            exists x', elemOf (set_elems (fun es => <[r := e']> es) s) n = Some x' /\
                       createdAt x' = createdAt x /\ removedAt x' = removedAt x).
  { intros n x (nd & Hn & Hx)%elemOf_Some. unfold elemOf. simpl. rewrite Hn.
    destruct (decide (elem nd = r)) as [E|E].
    - rewrite E in *. rewrite Hr in Hx. injection Hx as <-.
      exists e'. by rewrite list_lookup_insert_eq.
    - exists x. by rewrite list_lookup_insert_ne. }
  constructor; simpl; try apply Hwf.
  - intros n Hn. destruct (wf_elems _ _ Hwf _ Hn) as [x Hx].
    destruct (Hel _ _ Hx) as (x' & Hx' & _). by exists x'.
  - intros k n Hkn. destruct (wf_map _ _ Hwf _ _ Hkn) as (Hin & x & Hx & Hk).
    split; [done|]. destruct (Hel _ _ Hx) as (x' & Hx' & Hcx & _).
    exists x'. split; [done|]. by rewrite Hcx.
  - pose proof (wf_head _ _ Hwf) as Hh. unfold liveAt in *.
    destruct (elemOf s (dummyHead s)) as [x|] eqn:Hx.
    + destruct (Hel _ _ Hx) as (x' & Hx' & _ & Hrx).
      change (dummyHead (set_elems (fun es => <[r:=e']> es) s)) with (dummyHead s).
      rewrite Hx'. by rewrite Hrx.
    + destruct (WF_nonempty _ _ Hwf) as (rr & ->).
      destruct (wf_elems _ _ Hwf (dummyHead s)) as [x Hx']; [by left|].
      by rewrite Hx in Hx'.
Qed.

Lemma WF_pred s l n :
  WF s l -> n ∈ l -> n <> dummyHead s ->
  exists l1 p l2, l = l1 ++ p :: n :: l2.
Proof.
  intros Hwf Hn Hne. destruct (list_elem_of_split _ _ Hn) as (l1 & l2 & ->).
  destruct (WF_nonempty _ _ Hwf) as (r & Hr).
  destruct l1 as [|h l1] using rev_ind.
  - simpl in Hr. injection Hr as E _. congruence.
  - exists l1, h, l2. by rewrite <- app_assoc.
Qed.

Lemma MoveAfter_accepted s l prevCreatedAt target executedAt prevNode node e :
  WF s l ->
  nodeMapByCreatedAt s !! Key prevCreatedAt = Some prevNode ->
  nodeMapByCreatedAt s !! Key target = Some node ->
  elemOf s node = Some e ->
  match movedAt e with None => true | Some m => After executedAt m end = true ->
  node <> dummyHead s -> prevNode <> node ->
  exists s',
    MoveAfter prevCreatedAt target executedAt s = Done tt s' /\
    WF s' (placement_rule (afterAt s executedAt) prevNode (length (nodes s))
             (splay.remove node l)) /\
    nodeMapByCreatedAt s' =
      <[Key target := length (nodes s)]> (nodeMapByCreatedAt s) /\
    elemOf s' (length (nodes s)) = Some (SetMovedAt e executedAt) /\
    size s' = int_wrap ((if liveAt s node then int_wrap (size s - 1) else size s) + 1).
Proof.
  intros Hwf Hmp Hmt He Hguard Hnh Hpn.
  destruct (wf_map _ _ Hwf _ _ Hmt) as (Hin & e0 & He0 & Hkt).
  rewrite He in He0. injection He0 as <-.
  destruct (wf_map _ _ Hwf _ _ Hmp) as (Hpin & ep & Hep & Hkp).
  destruct (WF_pred _ _ _ Hwf Hin Hnh) as (l1 & p0 & l2 & ->).
  pose proof (wf_nodup _ _ Hwf) as Hnd.
  assert (Hn1 : node ∉ l1 ++ [p0]).
  { apply NoDup_app in Hnd as (_ & Hd & Hnd).
    intros [H|H%list_elem_of_singleton]%elem_of_app.
    - eapply Hd; [done|]. right. by left.
    - subst. apply NoDup_cons in Hnd as (Hnd & _). apply Hnd. by left. }
  assert (Hrem : splay.remove node (l1 ++ p0 :: node :: l2) = l1 ++ p0 :: l2).
  { replace (l1 ++ p0 :: node :: l2) with ((l1 ++ [p0]) ++ node :: l2)
      by (by rewrite <- app_assoc).
    rewrite remove_decomp by done. by rewrite <- app_assoc. }
  rewrite Hrem.
  destruct (release_spec s l1 p0 node l2 e Hwf He)
    as (s1 & Hrel & Hwf1 & Hext1 & Hlen1 & Hsz1 & Hmap1).
  pose proof He as Hnd0. apply elemOf_Some in Hnd0 as (nd & Hnode & Hel).
  destruct Hext1 as (Hes1 & Hdh1 & Hk1).
  destruct (Hk1 _ _ Hnode) as (nd1 & Hnode1 & Hel1).
  assert (Hext1 : extends s s1) by (split; [done|]; split; done).
  assert (Hep1 : elemOf s1 prevNode = Some ep) by (by eapply extends_elemOf).
  assert (Hkne : Key (createdAt ep) <> Key (createdAt e)).
  { rewrite Hkp, Hkt. intros E. rewrite E in Hmp. congruence. }
  assert (Hmp1 : nodeMapByCreatedAt s1 !! Key (createdAt ep) = Some prevNode).
  { rewrite Hmap1, lookup_delete_ne by done. by rewrite Hkp. }
  assert (Hv1 : elems s1 !! elem nd1 = Some e) by (by rewrite Hes1, Hel1).
  destruct (insertAfter_spec s1 _ (createdAt ep) prevNode (elem nd1) e executedAt
              Hwf1 Hmp1 Hv1)
    as (s2 & Hins & Hwf2 & Hext2 & (pq & nq & Hnew) & Hlen2 & Hsz2 & Hmap2).
  destruct Hext2 as (Hes2 & Hdh2 & Hk2).
  destruct (Hk2 _ _ Hnode1) as (nd2 & Hnode2 & Hel2).
  assert (Hv2 : elems s2 !! elem nd2 = Some e) by (by rewrite Hes2, Hel2).
  pose proof (lookup_lt_Some _ _ _ Hv2) as Hlt2.
  exists (set_elems (fun es => <[elem nd2 := SetMovedAt e executedAt]> es) s2).
  split.
  { unfold MoveAfter. unfold bind at 1. unfold lookupCreatedAt, gets. rewrite Hmp.
    unfold bind at 1. rewrite Hmt.
    unfold bind at 1. rewrite (Element_of_run _ _ _ He). rewrite Hguard.
    unfold bind at 1. rewrite Hrel.
    unfold bind at 1. rewrite (CreatedAt_run _ _ _ Hep1).
    unfold bind at 1. unfold load. rewrite Hnode1.
    unfold bind at 1. rewrite Hins.
    unfold bind at 1. rewrite Hnode2.
    unfold bind, loadElem. rewrite Hv2. reflexivity. }
  split.
  { apply (WF_storeElem _ _ _ e); [|done|reflexivity|reflexivity].
    rewrite Hlen1 in Hwf2.
    erewrite placement_rule_ext; [exact Hwf2|].
    intros n Hn. symmetry. apply extends_afterAt; [done|].
    apply (wf_elems _ _ Hwf). rewrite !elem_of_app, !elem_of_cons in *. tauto. }
  split.
  { simpl. rewrite Hmap2, Hmap1, Hlen1, <- Hkt.
    rewrite insert_delete_eq. done. }
  split.
  { unfold elemOf. simpl. rewrite Hlen1 in Hnew. rewrite Hnew. simpl.
    rewrite <- Hel2. by rewrite list_lookup_insert_eq. }
  simpl. by rewrite Hsz2, Hsz1.
Qed.



(** ** C8: a sequence of [Add] calls *)


Lemma elemOf_allocElem s e n x :
  elemOf s n = Some x -> elemOf (set_elems (fun es => es ++ [e]) s) n = Some x.
Proof.
  intros (nd & Hn & Hx)%elemOf_Some. unfold elemOf. simpl. rewrite Hn.
  rewrite lookup_app_l; [done|]. by eapply lookup_lt_Some.
Qed.

Lemma WF_alloc s l e : WF s l -> WF (set_elems (fun es => es ++ [e]) s) l.
Proof.
  intros Hwf. constructor; simpl; try apply Hwf.
  - intros n Hn. destruct (wf_elems _ _ Hwf _ Hn) as [x Hx].
    exists x. by apply elemOf_allocElem.
  - intros k n Hkn. destruct (wf_map _ _ Hwf _ _ Hkn) as (Hin & x & Hx & Hk).
    split; [done|]. exists x. split; [by apply elemOf_allocElem|done].
  - pose proof (wf_head _ _ Hwf) as Hh. unfold liveAt in *.
    change (dummyHead (set_elems (fun es => es ++ [e]) s)) with (dummyHead s).
    destruct (WF_nonempty _ _ Hwf) as (r & ->).
    destruct (wf_elems _ _ Hwf (dummyHead s)) as [x Hx]; [by left|].
    rewrite (elemOf_allocElem _ _ _ _ Hx). by rewrite Hx in Hh.
Qed.

Local Ltac mlow0 :=
  cbv beta delta [bind ret gets modify panic deref] iota.

Lemma int_wrap_small z : - 2 ^ 63 <= z < 2 ^ 63 -> int_wrap z = z.
Proof. intros H. unfold int_wrap. rewrite Z.mod_small; lia. Qed.

Lemma added_new : added NewRGATreeList [].
Proof.
  split; [apply wfb_sound; vm_compute; reflexivity|].
  split; [reflexivity|]. split; [reflexivity|].
  split; [intros i d H; by rewrite lookup_nil in H|].
  split; [reflexivity|].
  eexists. split; vm_compute; reflexivity.
Qed.

Lemma added_step s ds text t :
  added s ds -> Z.of_nat (S (length ds)) < 2 ^ 63 ->
  exists s', AddPrimitive text t s = Done tt s' /\ added s' (ds ++ [(text, t)]).
Proof.
  intros (Hwf & Hln & Hle & Hels & Hsz & el & Hel & Hmap) Hbound.
  set (k := length ds) in *.
  set (sa := set_elems (fun es => es ++ [NewPrimitive text t]) s).
  assert (Hwfa : WF sa (seq 0 (S k))) by (by apply WF_alloc).
  assert (Hva : elems sa !! S k = Some (NewPrimitive text t)).
  { subst sa. simpl. rewrite <- Hle. apply lookup_snoc_length. }
  assert (Hela : elemOf sa k = Some el) by (by apply elemOf_allocElem).
  assert (Hlast : last sa = Some k).
  { rewrite <- (wf_last _ _ Hwfa). rewrite seq_S. by rewrite last_snoc. }
  destruct (insertAfter_spec sa _ (createdAt el) k (S k) _ t Hwfa Hmap Hva)
    as (s' & Hrun & Hwf' & Hext & (pq & nq & Hnew) & Hlen' & Hsz' & Hmap').
  change (length (nodes sa)) with (length (nodes s)) in *.
  rewrite Hln in *.
  assert (Hpl : placement_rule (afterAt sa t) k (S k) (seq 0 (S k))
                = seq 0 (S (S k))).
  { replace (seq 0 (S k)) with (seq 0 k ++ k :: []) by (by rewrite seq_S).
    rewrite placement_rule_decomp by (rewrite elem_of_seq; lia).
    cbn [scan fst snd app]. rewrite !seq_S, <- app_assoc. done. }
  rewrite Hpl in Hwf'.
  exists s'. split.
  { unfold AddPrimitive, bind, allocElem. fold sa. rewrite Hle. fold k.
    unfold Add. mlow0. rewrite Hlast. simpl.
    unfold bind. rewrite (CreatedAt_run _ _ _ Hela).
    unfold loadElem. rewrite Hva. exact Hrun. }
  assert (Hes : elems s' = elems sa) by (by destruct Hext as (-> & _)).
  unfold added. rewrite length_app. simpl.
  replace (length ds + 1)%nat with (S k) by (unfold k; lia).
  split; [done|]. split; [done|].
  split; [rewrite Hes; subst sa; simpl; rewrite length_app; simpl; lia|].
  split.
  { intros i d Hi. destruct (decide (i = k)) as [->|Hne].
    - unfold k in Hi. rewrite lookup_snoc_length in Hi. injection Hi as <-.
      unfold elemOf. rewrite Hnew. simpl. by rewrite Hes.
    - assert (Hi' : ds !! i = Some d).
      { rewrite lookup_app_l in Hi; [done|].
        apply lookup_lt_Some in Hi. rewrite length_app in Hi. simpl in Hi.
        unfold k in Hne. lia. }
      eapply extends_elemOf; [exact Hext|]. apply elemOf_allocElem. by apply Hels. }
  split.
  { rewrite Hsz'. change (size sa) with (size s). rewrite Hsz.
    rewrite int_wrap_small; lia. }
  exists (NewPrimitive text t). split.
  - unfold elemOf. rewrite Hnew. simpl. by rewrite Hes.
  - rewrite Hmap'. simpl. by rewrite lookup_insert_eq.
Qed.

Lemma added_all es s ds :
  added s ds -> Z.of_nat (length (ds ++ es)) < 2 ^ 63 ->
  exists s', AddAll es s = Done tt s' /\ added s' (ds ++ es).
Proof.
  revert s ds. induction es as [|[text t] es IH]; intros s ds Hs Hb.
  - exists s. rewrite app_nil_r. done.
  - destruct (added_step s ds text t Hs) as (s1 & Hrun1 & Hs1).
    { rewrite length_app in Hb. simpl in Hb. lia. }
    destruct (IH s1 (ds ++ [(text, t)]) Hs1) as (s' & Hrun & Hs').
    { by rewrite <- app_assoc. }
    exists s'. split.
    + simpl. unfold bind. by rewrite Hrun1.
    + by rewrite <- app_assoc in Hs'.
Qed.

Lemma liveNodes_all s l :
  Forall (fun n => liveAt s n = true) l -> liveNodes s l = l.
Proof.
  induction 1 as [|n l Hn Hl IH]; [done|].
  by rewrite liveNodes_cons, Hn, IH.
Qed.

Lemma added_live s ds :
  added s ds -> liveNodes s (seq 0 (S (length ds))) = seq 1 (length ds).
Proof.
  intros (Hwf & _ & _ & Hels & _).
  change (seq 0 (S (length ds))) with (0%nat :: seq 1 (length ds)).
  rewrite liveNodes_cons.
  destruct (WF_nonempty _ _ Hwf) as (r & Hr). simpl in Hr. injection Hr as Hh _.
  rewrite Hh, (wf_head _ _ Hwf).
  apply liveNodes_all. apply Forall_forall. intros n Hn.
  apply elem_of_seq in Hn. destruct n as [|i]; [lia|].
  destruct (lookup_lt_is_Some_2 ds i) as [d Hd]; [lia|].
  unfold liveAt. by rewrite (Hels _ _ Hd).
Qed.

Lemma AddAll_spec es :
  Z.of_nat (length es) < 2 ^ 63 ->
  exists s,
    AddAll es NewRGATreeList = Done tt s /\
    WF s (seq 0 (S (length es))) /\
    Len s = Done (Z.of_nat (length es)) s /\
    forall i text t, es !! i = Some (text, t) ->
      Get (Z.of_nat i) s = Done (S i) s /\
      elemOf s (S i) = Some (NewPrimitive text t).
Proof.
  intros Hb.
  destruct (added_all es NewRGATreeList [] added_new Hb) as (s & Hrun & Hs).
  simpl in Hs. pose proof (added_live _ _ Hs) as Hlive.
  pose proof Hs as (Hwf & _ & _ & Hels & Hsz & _).
  exists s. split; [done|]. split; [done|].
  split; [unfold Len, gets; by rewrite Hsz|].
  intros i text t Hi. split; [|by apply (Hels i (text, t))].
  pose proof (lookup_lt_Some _ _ _ Hi) as Hlt.
  destruct (Get_spec s _ (Z.of_nat i) Hwf) as (n & Hn & Hget).
  { rewrite Hlive, length_seq. lia. }
  rewrite Hlive, Nat2Z.id, lookup_seq_lt in Hn by done.
  injection Hn as <-. exact Hget.
Qed.



(** * Further properties of the code *)

(** ** Unknown tickets *)

(** X1. A creation ticket that the identity map does not hold is rejected by
    every operation that takes one, with the failure the source raises for
    it, before anything of the list is changed: [DeleteByCreatedAt],
    [findNextBeforeExecutedAt] and with it [insertAfter] and [InsertAfter],
    [purge], [FindPrevCreatedAt] (whose message names the previous ticket)
    and [MoveAfter], which looks the anchor up before the target. *)
Theorem unknown_ticket_rejected s c :
  nodeMapByCreatedAt s !! Key c = None ->
  (forall d, DeleteByCreatedAt c d s = Panic (UnknownCreatedAt (Key c)) s) /\
  (forall t, findNextBeforeExecutedAt c t s = Panic (UnknownCreatedAt (Key c)) s) /\
  (forall e t, insertAfter c e t s = Panic (UnknownCreatedAt (Key c)) s) /\
  (forall e, is_Some (elems s !! e) ->
     InsertAfter c e s = Panic (UnknownCreatedAt (Key c)) s) /\
  (forall e v, elems s !! e = Some v -> createdAt v = c ->
     purge e s = Panic (UnknownCreatedAt (Key c)) s) /\
  FindPrevCreatedAt c s = Panic (UnknownPrevCreatedAt (Key c)) s /\
  (forall x t, MoveAfter c x t s = Panic (UnknownPrevCreatedAt (Key c)) s) /\
  (forall p t, is_Some (nodeMapByCreatedAt s !! Key p) ->
     MoveAfter p c t s = Panic (UnknownCreatedAt (Key c)) s).
Proof.
  intros Hc.
  assert (Hf : forall t, findNextBeforeExecutedAt c t s
                         = Panic (UnknownCreatedAt (Key c)) s).
  { intros t. unfold findNextBeforeExecutedAt. mrun. by rewrite Hc. }
  assert (Hi : forall e t, insertAfter c e t s = Panic (UnknownCreatedAt (Key c)) s).
  { intros e t. unfold insertAfter. unfold bind at 1. by rewrite Hf. }
  split; [intros d; unfold DeleteByCreatedAt; mrun; by rewrite Hc|].
  split; [done|]. split; [done|].
  split; [intros e [v Hv]; unfold InsertAfter, bind, loadElem; rewrite Hv; apply Hi|].
  split; [intros e v Hv <-; unfold purge; mrun; rewrite Hv; mrun; by rewrite Hc|].
  split; [unfold FindPrevCreatedAt; mrun; by rewrite Hc|].
  split; [intros x t; unfold MoveAfter; mrun; by rewrite Hc|].
  intros p t [pn Hp]. unfold MoveAfter. mrun. by rewrite Hp, Hc.
Qed.

Lemma unknown_ticket_rejected_witness :
  nodeMapByCreatedAt three_elements !! Key (ticketAt 7) = None /\
  DeleteByCreatedAt (ticketAt 7) (ticketAt 8) three_elements
    = Panic (UnknownCreatedAt (Key (ticketAt 7))) three_elements.
Proof.
  assert (H : nodeMapByCreatedAt three_elements !! Key (ticketAt 7) = None)
    by (vm_compute; reflexivity).
  split; [exact H|].
  exact (proj1 (unknown_ticket_rejected three_elements (ticketAt 7) H) (ticketAt 8)).
Defined.

(** ** The sentinel as an operand *)

Lemma WF_head_node s l :
  WF s l ->
  exists nd r, l = dummyHead s :: r /\ nodes s !! dummyHead s = Some nd /\
               prev nd = None /\ next nd = head_or None r.
Proof.
  intros Hwf. destruct (WF_nonempty _ _ Hwf) as (r & Hr).
  pose proof (wf_linked _ _ Hwf) as Hl. rewrite Hr in Hl.
  apply (linked_middle _ _ _ []) in Hl as (nd & Hnd & Hp & Hn & _).
  exists nd, r. done.
Qed.

(** X2. [FindPrevCreatedAt] has no answer for the sentinel: with a ticket
    that resolves to the sentinel (the initial ticket, in a list built by
    the operations) its loop steps to the sentinel's nil [prev], which is
    not the sentinel, and calls [isRemoved] on it. *)
Theorem FindPrevCreatedAt_sentinel s l c :
  WF s l ->
  nodeMapByCreatedAt s !! Key c = Some (dummyHead s) ->
  FindPrevCreatedAt c s = Panic NilDereference s.
Proof.
  intros Hwf Hc. destruct (WF_head_node _ _ Hwf) as (nd & r & _ & Hnd & Hp & _).
  unfold FindPrevCreatedAt. mgo. unfold fuel_of. simpl. mgo.
  rewrite Hp. rewrite decide_False by done. reflexivity.
Qed.

Lemma FindPrevCreatedAt_sentinel_witness :
  WF three_elements [0; 1; 2; 3]%nat /\
  nodeMapByCreatedAt three_elements !! Key InitialTicket
    = Some (dummyHead three_elements) /\
  FindPrevCreatedAt InitialTicket three_elements
    = Panic NilDereference three_elements.
Proof.
  assert (H0 : WF three_elements [0; 1; 2; 3]%nat)
    by (apply wfb_sound; vm_compute; reflexivity).
  assert (H1 : nodeMapByCreatedAt three_elements !! Key InitialTicket
               = Some (dummyHead three_elements)) by (vm_compute; reflexivity).
  split; [exact H0|]. split; [exact H1|].
  exact (FindPrevCreatedAt_sentinel three_elements _ InitialTicket H0 H1).
Defined.

Lemma release_sentinel s l :
  WF s l ->
  release (dummyHead s) s
  = Panic NilDereference
      (if decide (last s = Some (dummyHead s)) then set_last None s else s).
Proof.
  intros Hwf. destruct (WF_head_node _ _ Hwf) as (nd & r & _ & Hnd & Hp & _).
  unfold release. mgo.
  destruct (decide (last s = Some (dummyHead s))) as [E|E]; mgo; by rewrite Hp.
Qed.

(** X3. The sentinel cannot be released: [release] of the sentinel uses the
    [next] field of its nil [prev].  [purge] of an element whose creation
    ticket resolves to the sentinel and [MoveAfter] with such a target (the
    sentinel was never moved, so the guard accepts) fail this way, and when
    the sentinel is also the tail, the tail reference is nil by then. *)
Theorem sentinel_release_nil_dereference s l c :
  WF s l ->
  nodeMapByCreatedAt s !! Key c = Some (dummyHead s) ->
  let s' := if decide (last s = Some (dummyHead s)) then set_last None s else s in
  (forall e v, elems s !! e = Some v -> createdAt v = c ->
     purge e s = Panic NilDereference s') /\
  (forall p t eh, is_Some (nodeMapByCreatedAt s !! Key p) ->
     elemOf s (dummyHead s) = Some eh -> movedAt eh = None ->
     MoveAfter p c t s = Panic NilDereference s').
Proof.
  intros Hwf Hc s'. split.
  - intros e v Hv <-. unfold purge. mgo. by apply release_sentinel with l.
  - intros p t eh [pn Hp] Heh Hm. unfold MoveAfter. mrun. rewrite Hp, Hc.
    apply elemOf_Some in Heh as (nd & Hnd & Heh). mgo. rewrite Hm.
    by rewrite (release_sentinel _ _ Hwf).
Qed.

Lemma sentinel_release_nil_dereference_witness :
  WF NewRGATreeList [0%nat] /\
  nodeMapByCreatedAt NewRGATreeList !! Key InitialTicket
    = Some (dummyHead NewRGATreeList) /\
  MoveAfter InitialTicket InitialTicket (ticketAt 1) NewRGATreeList
    = Panic NilDereference (set_last None NewRGATreeList).
Proof.
  assert (H0 : WF NewRGATreeList [0%nat])
    by (apply wfb_sound; vm_compute; reflexivity).
  assert (H1 : nodeMapByCreatedAt NewRGATreeList !! Key InitialTicket
               = Some (dummyHead NewRGATreeList)) by (vm_compute; reflexivity).
  split; [exact H0|]. split; [exact H1|].
  refine (proj2 (sentinel_release_nil_dereference NewRGATreeList _ InitialTicket
                   H0 H1) InitialTicket (ticketAt 1) _ _ _ _).
  - rewrite H1. by eexists.
  - vm_compute. reflexivity.
  - reflexivity.
Defined.

(** ** Walking the links: [Nodes] and [Marshal] *)

Lemma Nodes_loop_run s first pv l fuel acc :
  linked (nodes s) first pv l None -> (length l < fuel)%nat ->
  Nodes_loop fuel first acc s = Done (acc ++ l) s.
Proof.
  revert first pv fuel acc.
  induction l as [|n l IH]; intros first pv fuel acc Hl Hf;
    (destruct fuel as [|fuel]; [simpl in Hf; lia|]); simpl in Hl.
  - subst first. simpl. by rewrite app_nil_r.
  - destruct Hl as [-> (nd & Hnd & _ & Hl)]. simpl. mgo.
    rewrite (IH _ _ fuel (acc ++ [n]) Hl) by (simpl in Hf; lia).
    by rewrite <- app_assoc.
Qed.

Lemma Nodes_run s l : WF s l -> Nodes s = Done (tail l) s.
Proof.
  intros Hwf. destruct (WF_head_node _ _ Hwf) as (nd & r & Hr & Hnd & _ & Hnx).
  pose proof (wf_linked _ _ Hwf) as Hl. pose proof (WF_fuel _ _ Hwf) as Hfu.
  rewrite Hr in Hl, Hfu |- *. simpl in *.
  destruct Hl as [_ (nd0 & Hnd0 & _ & Hl)].
  rewrite Hnd in Hnd0. injection Hnd0 as <-.
  unfold Nodes. mgo. unfold fuel_of.
  by rewrite (Nodes_loop_run _ _ _ _ _ [] Hl) by lia.
Qed.

Lemma WF_tail s l :
  WF s l ->
  (dummyHead s ∉ tail l) /\
  liveNodes s (tail l) = liveNodes s l /\
  forall n, n ∈ tail l -> is_Some (elemOf s n).
Proof.
  intros Hwf. destruct (WF_nonempty _ _ Hwf) as (r & Hr).
  pose proof (wf_nodup _ _ Hwf) as Hnd. rewrite Hr in Hnd |- *. simpl.
  split; [by apply NoDup_cons in Hnd as [? _]|].
  split; [by rewrite liveNodes_cons, (wf_head _ _ Hwf)|].
  intros n Hn. apply (wf_elems _ _ Hwf). rewrite Hr. by right.
Qed.

(** X4. On a well-formed list [Nodes] returns the nodes that follow the
    sentinel in link order, tombstones included, and leaves the state as it
    is: the sentinel is never among them, and every node returned wraps an
    element. *)
Theorem Nodes_spec s l :
  WF s l ->
  Nodes s = Done (tail l) s /\
  (dummyHead s ∉ tail l) /\
  liveNodes s (tail l) = liveNodes s l /\
  forall n, n ∈ tail l -> is_Some (elemOf s n).
Proof. intros Hwf. split; [by apply Nodes_run|by apply WF_tail]. Qed.

Lemma Nodes_spec_witness :
  WF three_elements [0; 1; 2; 3]%nat /\
  Nodes three_elements = Done [1; 2; 3]%nat three_elements.
Proof.
  assert (H0 : WF three_elements [0; 1; 2; 3]%nat)
    by (apply wfb_sound; vm_compute; reflexivity).
  split; [exact H0|].
  exact (proj1 (Nodes_spec three_elements _ H0)).
Defined.

Lemma string_app_assoc (a b c : string) :
  ((a ++ b) ++ c)%string = (a ++ (b ++ c))%string.
Proof.
  induction a as [|x a IH]; [done|].
  change (String.String x ((a ++ b) ++ c) = String.String x (a ++ b ++ c))%string.
  by f_equal.
Qed.

Lemma string_app_nil_r (a : string) : (a ++ "")%string = a.
Proof.
  induction a as [|x a IH]; [done|].
  change (String.String x (a ++ "") = String.String x a)%string.
  by f_equal.
Qed.

Lemma Marshal_loop_run s first pv l fuel sb :
  linked (nodes s) first pv l None ->
  (forall n, n ∈ l -> is_Some (elemOf s n)) ->
  (length l < fuel)%nat ->
  Marshal_loop fuel first sb s = Done (sb ++ written s l)%string s.
Proof.
  revert first pv fuel sb.
  induction l as [|n l IH]; intros first pv fuel sb Hl He Hf;
    (destruct fuel as [|fuel]; [simpl in Hf; lia|]); simpl in Hl.
  - subst first. simpl. by rewrite string_app_nil_r.
  - destruct Hl as [-> (nd & Hnd & _ & Hl)].
    destruct (He n) as [e Hen]; [by left|].
    assert (IH' : forall sb', Marshal_loop fuel (next nd) sb' s
                              = Done (sb' ++ written s l)%string s).
    { intros sb'. apply (IH _ _ fuel sb' Hl); [|simpl in Hf; lia].
      intros m Hm. apply He. by right. }
    cbn [Marshal_loop written]. unfold writtenFor. rewrite Hen.
    unfold bind at 1. rewrite (isRemoved_run _ _ _ Hen). unfold liveAt. rewrite Hen.
    apply elemOf_Some in Hen as (nd1 & Hnd1 & Hen).
    rewrite Hnd in Hnd1. injection Hnd1 as <-.
    destruct (bool_decide (removedAt e = None)); simpl.
    + mgo. destruct (decide (Some n = last s)); mgo;
        rewrite IH'; by rewrite ?string_app_assoc.
    + mgo. by rewrite IH'.
Qed.

Lemma texts_cons s n l :
  texts s (n :: l) =
  match elemOf s n with
  | Some e => if bool_decide (removedAt e = None)
              then marshalText e :: texts s l else texts s l
  | None => texts s l
  end.
Proof.
  unfold texts. rewrite liveNodes_cons. unfold liveAt.
  destruct (elemOf s n) as [e|] eqn:E; [|done].
  destruct (bool_decide (removedAt e = None)); simpl; [|done].
  by rewrite E.
Qed.

Lemma written_inner s l :
  (forall n, n ∈ l -> Some n <> last s) ->
  written s l = commas (texts s l).
Proof.
  induction l as [|n l IH]; intros Hne; [done|].
  cbn [written]. rewrite texts_cons. unfold writtenFor.
  rewrite IH by (intros m Hm; apply Hne; by right).
  destruct (elemOf s n) as [e|]; [|done].
  destruct (bool_decide (removedAt e = None)); [|done].
  rewrite decide_False by (apply Hne; by left).
  simpl. by rewrite string_app_assoc.
Qed.

Lemma written_app s l1 l2 :
  written s (l1 ++ l2) = (written s l1 ++ written s l2)%string.
Proof.
  induction l1 as [|n l1 IH]; simpl; [done|]. by rewrite IH, string_app_assoc.
Qed.

Lemma texts_app s l1 l2 : texts s (l1 ++ l2) = texts s l1 ++ texts s l2.
Proof. unfold texts. by rewrite liveNodes_app, omap_app. Qed.

Lemma commas_concat ts t :
  String.concat "," (ts ++ [t]) = (commas ts ++ t)%string.
Proof.
  induction ts as [|x ts IH]; [done|].
  change ((x :: ts) ++ [t]) with (x :: (ts ++ [t])).
  cbn [commas]. rewrite !string_app_assoc, <- IH.
  destruct (ts ++ [t]) eqn:E; [by destruct ts|]. reflexivity.
Qed.

Lemma commas_snoc ts t : commas (ts ++ [t]) = (commas ts ++ t ++ ",")%string.
Proof.
  induction ts as [|x ts IH]; simpl; [by rewrite string_app_nil_r|].
  by rewrite IH, !string_app_assoc.
Qed.

(** The list with its tail reference split off. *)
Lemma WF_tail_split s l :
  WF s l ->
  exists l0 ln, l = l0 ++ [ln] /\ last s = Some ln /\
    forall n, n ∈ l0 -> Some n <> last s.
Proof.
  intros Hwf. destruct (WF_nonempty _ _ Hwf) as (r & Hr).
  destruct l as [|ln l0 _] using rev_ind; [done|].
  exists l0, ln. split; [done|].
  pose proof (wf_last _ _ Hwf) as Hlast. rewrite last_snoc in Hlast.
  split; [done|]. intros n Hn. rewrite <- Hlast. intros [= ->].
  pose proof (wf_nodup _ _ Hwf) as Hnd. apply NoDup_app in Hnd as (_ & Hd & _).
  apply (Hd _ Hn). by left.
Qed.

Lemma Marshal_written s l :
  WF s l -> Marshal s = Done ("[" ++ written s (tail l) ++ "]")%string s.
Proof.
  intros Hwf.
  destruct (WF_head_node _ _ Hwf) as (nd & r & Hr & Hnd & _ & Hnx).
  destruct (WF_tail _ _ Hwf) as (_ & _ & Hel).
  pose proof (wf_linked _ _ Hwf) as Hl. pose proof (WF_fuel _ _ Hwf) as Hfu.
  rewrite Hr in Hl, Hfu, Hel |- *. simpl in Hl, Hfu, Hel |- *.
  destruct Hl as [_ (nd0 & Hnd0 & _ & Hl)].
  rewrite Hnd in Hnd0. injection Hnd0 as <-.
  unfold Marshal. mgo. unfold fuel_of.
  rewrite (Marshal_loop_run _ _ _ _ _ "[" Hl); [|done|lia].
  by rewrite string_app_assoc.
Qed.

Lemma written_dead s l : liveNodes s l = [] -> written s l = ""%string.
Proof.
  induction l as [|x l IH]; [done|]. rewrite liveNodes_cons.
  destruct (liveAt s x) eqn:Hx; [done|]. intros Hn.
  cbn [written]. rewrite (IH Hn). unfold writtenFor. unfold liveAt in Hx.
  destruct (elemOf s x); [|done]. by rewrite Hx.
Qed.

(** With a live tail, or no live node at all, the loop writes the texts
    joined by single commas. *)
Lemma written_live_tail s l :
  WF s l ->
  (liveNodes s l = [] \/ exists ln, last s = Some ln /\ liveAt s ln = true) ->
  written s (tail l) = String.concat "," (texts s (tail l)).
Proof.
  intros Hwf Hcase. destruct (WF_nonempty _ _ Hwf) as (r & Hr).
  destruct (WF_tail_split _ _ Hwf) as (l0 & ln & Hsplit & Hlast & Hinner).
  destruct Hcase as [Hnone|(ln' & Hlast' & Hlv)].
  - rewrite Hr, liveNodes_cons, (wf_head _ _ Hwf) in Hnone.
    rewrite Hr. simpl. rewrite (written_dead _ _ Hnone).
    unfold texts. by rewrite Hnone.
  - rewrite Hlast in Hlast'. injection Hlast' as <-.
    destruct l0 as [|h l0].
    { simpl in Hsplit. rewrite Hr in Hsplit. injection Hsplit as E1 E2.
      rewrite <- E1, (wf_head _ _ Hwf) in Hlv. discriminate. }
    rewrite Hsplit. simpl.
    rewrite written_app, texts_app.
    rewrite written_inner by (intros m Hm; apply Hinner; by right).
    cbn [written]. rewrite texts_cons. unfold writtenFor.
    unfold liveAt in Hlv. destruct (elemOf s ln) as [e|]; [|discriminate].
    rewrite Hlv, Hlast. rewrite decide_True by done.
    simpl. by rewrite string_app_nil_r, commas_concat.
Qed.

(** With a tombstone as tail, every text is followed by a comma. *)
Lemma written_dead_tail s l ln :
  WF s l -> last s = Some ln -> liveAt s ln = false ->
  written s (tail l) = commas (texts s (tail l)).
Proof.
  intros Hwf Hlast Hdead. destruct (WF_nonempty _ _ Hwf) as (r & Hr).
  destruct (WF_tail_split _ _ Hwf) as (l0 & ln' & Hsplit & Hlast' & Hinner).
  rewrite Hlast in Hlast'. injection Hlast' as <-.
  destruct l0 as [|h l0].
  - simpl in Hsplit. rewrite Hsplit. done.
  - rewrite Hsplit. simpl.
    rewrite written_app, texts_app.
    rewrite written_inner by (intros m Hm; apply Hinner; by right).
    cbn [written]. rewrite texts_cons. unfold writtenFor.
    unfold liveAt in Hdead. destruct (elemOf s ln) as [e|].
    + rewrite Hdead. change (texts s []) with (@nil string).
      by rewrite app_nil_r, !string_app_nil_r.
    + change (texts s []) with (@nil string).
      by rewrite app_nil_r, !string_app_nil_r.
Qed.

(** X5. When the tail of a well-formed list is a live node, or the list has
    no live node at all, [Marshal] returns what the rendering asks for: the
    texts of the live elements in list order, joined by single commas,
    between square brackets; the state is as before. *)
Theorem Marshal_live_tail s l :
  WF s l ->
  (liveNodes s l = [] \/ exists ln, last s = Some ln /\ liveAt s ln = true) ->
  Marshal s = Done (Marshal_spec s l) s.
Proof.
  intros Hwf Hcase. rewrite (Marshal_written _ _ Hwf).
  by rewrite (written_live_tail _ _ Hwf Hcase).
Qed.

Lemma Marshal_live_tail_witness :
  WF three_elements [0; 1; 2; 3]%nat /\
  Marshal three_elements = Done "[0,1,2]"%string three_elements.
Proof.
  assert (H0 : WF three_elements [0; 1; 2; 3]%nat)
    by (apply wfb_sound; vm_compute; reflexivity).
  split; [exact H0|].
  refine (Marshal_live_tail three_elements _ H0 _).
  right. exists 3%nat. split; vm_compute; reflexivity.
Defined.

(** X6. When the tail of a well-formed list is a tombstone and a live node
    comes before it, [Marshal] writes a comma after the last live text: the
    output is the texts joined by commas and one more comma before the
    closing bracket. *)
Theorem Marshal_comma_before_bracket s l ln :
  WF s l ->
  last s = Some ln -> liveAt s ln = false ->
  liveNodes s l <> [] ->
  Marshal s = Done ("[" ++ String.concat "," (liveTexts s l) ++ ",]")%string s.
Proof.
  intros Hwf Hlast Hdead Hsome. rewrite (Marshal_written _ _ Hwf).
  rewrite (written_dead_tail _ _ _ Hwf Hlast Hdead).
  destruct (WF_tail _ _ Hwf) as (_ & Hlive & _).
  unfold liveTexts. fold (texts s (tail l)).
  assert (Hts : texts s (tail l) <> []).
  { rewrite <- Hlive in Hsome. unfold texts.
    destruct (liveNodes s (tail l)) as [|x lr] eqn:E; [done|].
    assert (Hx : liveAt s x = true).
    { assert (Hin : x ∈ liveNodes s (tail l)) by (rewrite E; by left).
      by apply list_elem_of_filter in Hin as [? _]. }
    unfold liveAt in Hx. simpl. destruct (elemOf s x); [done|discriminate]. }
  destruct (texts s (tail l)) as [|t ts _] using rev_ind; [done|].
  rewrite commas_snoc, commas_concat. by rewrite !string_app_assoc.
Qed.

Lemma Marshal_comma_before_bracket_witness :
  WF tombstoned_tail [0; 1; 2]%nat /\
  Marshal tombstoned_tail = Done "[0,]"%string tombstoned_tail.
Proof.
  assert (H0 : WF tombstoned_tail [0; 1; 2]%nat)
    by (apply wfb_sound; vm_compute; reflexivity).
  split; [exact H0|].
  refine (Marshal_comma_before_bracket tombstoned_tail _ 2%nat H0 _ _ _).
  - vm_compute. reflexivity.
  - vm_compute. reflexivity.
  - vm_compute. discriminate.
Defined.

(** ** Walking back: [FindPrevCreatedAt] *)

Lemma FindPrev_loop_run s first pv l1 m dead n l2 fuel :
  linked (nodes s) first pv (l1 ++ m :: dead ++ n :: l2) None ->
  Forall (fun x => liveAt s x = false /\ is_Some (elemOf s x) /\
                   x <> dummyHead s) dead ->
  m = dummyHead s \/ liveAt s m = true ->
  (length dead < fuel)%nat ->
  FindPrevCreatedAt_loop fuel n s = Done m s.
Proof.
  revert n l2 fuel.
  induction dead as [|d dead IH] using rev_ind; intros n l2 fuel Hl Hd Hm Hf.
  - destruct fuel as [|fuel]; [simpl in Hf; lia|].
    replace (l1 ++ m :: [] ++ n :: l2) with ((l1 ++ [m]) ++ n :: l2) in Hl
      by (by rewrite <- app_assoc).
    apply linked_middle in Hl as (nd & Hnd & Hp & _). rewrite last_or_snoc in Hp.
    simpl. mlow. rewrite Hnd. mlow. rewrite Hp.
    destruct (decide (Some (dummyHead s) = Some m)) as [[= E]|E]; [by rewrite E|].
    destruct Hm as [->|Hm]; [done|].
    assert (He : is_Some (elemOf s m)).
    { unfold liveAt in Hm. destruct (elemOf s m); [done|discriminate]. }
    destruct He as [e He].
    rewrite (isRemoved_run _ _ _ He), Hm. reflexivity.
  - destruct fuel as [|fuel]; [rewrite length_app in Hf; simpl in Hf; lia|].
    apply Forall_app in Hd as (Hd & Hdd). apply Forall_singleton in Hdd as (Hdl & [e He] & Hdh).
    pose proof Hl as Hl'.
    replace (l1 ++ m :: (dead ++ [d]) ++ n :: l2)
      with ((l1 ++ m :: dead ++ [d]) ++ n :: l2) in Hl
      by (rewrite <- !app_assoc; simpl; by rewrite <- !app_assoc).
    apply linked_middle in Hl as (nd & Hnd & Hp & _).
    replace (l1 ++ m :: dead ++ [d]) with ((l1 ++ m :: dead) ++ [d]) in Hp
      by (by rewrite <- app_assoc).
    rewrite last_or_snoc in Hp.
    simpl. mlow. rewrite Hnd. mlow. rewrite Hp.
    rewrite decide_False by (intros [= E]; by apply Hdh).
    rewrite (isRemoved_run _ _ _ He), Hdl. simpl.
    apply (IH d (n :: l2)); [|done|done|rewrite length_app in Hf; simpl in Hf; lia].
    by rewrite <- !app_assoc in Hl'.
Qed.

(** X7. For a ticket that resolves to a node other than the sentinel,
    [FindPrevCreatedAt] returns the creation ticket of the nearest node
    before it that is live or the sentinel: the tombstones in between are
    passed over, and the state is as before. *)
Theorem FindPrevCreatedAt_spec s l1 n l2 c :
  WF s (l1 ++ n :: l2) -> l1 <> [] ->
  nodeMapByCreatedAt s !! Key c = Some n ->
  exists m e,
    prevVisible s l1 = Some m /\
    elemOf s m = Some e /\
    FindPrevCreatedAt c s = Done (createdAt e) s.
Proof.
  intros Hwf Hne Hc.
  destruct (WF_nonempty _ _ Hwf) as (r & Hr).
  destruct l1 as [|h l1']; [done|]. simpl in Hr. injection Hr as -> Hr.
  assert (Hex : exists m, prevVisible s (dummyHead s :: l1') = Some m).
  { unfold prevVisible. rewrite filter_cons_True by (by left).
    destruct (list.last (dummyHead s :: _)) eqn:E; [by eauto|].
    by apply last_None in E. }
  destruct Hex as (m & Hm). exists m.
  pose proof Hm as Hm'. unfold prevVisible in Hm'.
  apply last_filter_Some in Hm' as Hsplit.
  destruct Hsplit as (pre & dead & Hl1 & Hdead).
  assert (Hmin : m ∈ dummyHead s :: l1').
  { rewrite Hl1, elem_of_app, elem_of_cons. tauto. }
  assert (HPm : m = dummyHead s \/ liveAt s m = true).
  { apply last_Some_elem_of in Hm'. by apply list_elem_of_filter in Hm' as [? _]. }
  destruct (wf_elems _ _ Hwf m) as [e He]; [rewrite elem_of_app; by left|].
  exists e. split; [done|]. split; [done|].
  unfold FindPrevCreatedAt, lookupCreatedAt. mlow0. rewrite Hc.
  rewrite (FindPrev_loop_run s (Some (dummyHead s)) None pre m dead n l2).
  - by rewrite (CreatedAt_run _ _ _ He).
  - pose proof (wf_linked _ _ Hwf) as Hl. rewrite Hl1 in Hl.
    by rewrite <- app_assoc in Hl.
  - apply Forall_forall. intros x Hx. rewrite Forall_forall in Hdead.
    specialize (Hdead x Hx).
    assert (Hxin : x ∈ (dummyHead s :: l1') ++ n :: l2).
    { rewrite Hl1, !elem_of_app, elem_of_cons. tauto. }
    split; [destruct (liveAt s x); [tauto|done]|].
    split; [by apply (wf_elems _ _ Hwf)|tauto].
  - done.
  - pose proof (WF_fuel _ _ Hwf) as Hfu. unfold fuel_of.
    rewrite Hl1 in Hfu. rewrite ?length_app in Hfu. simpl in Hfu.
    rewrite ?length_app in Hfu. simpl in Hfu. lia.
Qed.

Lemma FindPrevCreatedAt_spec_witness :
  WF tombstoned_tail ([0; 1]%nat ++ 2%nat :: []) /\
  nodeMapByCreatedAt tombstoned_tail !! Key (ticketAt 2) = Some 2%nat /\
  exists m e,
    prevVisible tombstoned_tail [0; 1]%nat = Some m /\
    elemOf tombstoned_tail m = Some e /\
    FindPrevCreatedAt (ticketAt 2) tombstoned_tail
      = Done (createdAt e) tombstoned_tail.
Proof.
  assert (H0 : WF tombstoned_tail ([0; 1]%nat ++ 2%nat :: []))
    by (apply wfb_sound; vm_compute; reflexivity).
  assert (H1 : nodeMapByCreatedAt tombstoned_tail !! Key (ticketAt 2) = Some 2%nat)
    by (vm_compute; reflexivity).
  split; [exact H0|]. split; [exact H1|].
  refine (FindPrevCreatedAt_spec tombstoned_tail _ _ _ (ticketAt 2) H0 _ H1).
  discriminate.
Defined.

(** ** Positional lookup *)

(** X8. On a well-formed list [Get idx], for [idx] below the number of live
    nodes, returns the live node of that rank in list order, never the
    sentinel, and leaves the state as it is. *)
Theorem Get_live_rank s l idx :
  WF s l ->
  0 <= idx < Z.of_nat (length (liveNodes s l)) ->
  exists n,
    Get idx s = Done n s /\
    liveNodes s (tail l) !! Z.to_nat idx = Some n /\
    liveAt s n = true /\ n ∈ l /\ n <> dummyHead s.
Proof.
  intros Hwf Hidx. destruct (Get_spec _ _ _ Hwf Hidx) as (n & Hn & Hget).
  exists n. split; [done|].
  destruct (WF_tail _ _ Hwf) as (_ & Hlive & _).
  split; [by rewrite Hlive|].
  apply list_elem_of_lookup_2 in Hn. apply list_elem_of_filter in Hn as [Hlv Hin].
  split; [done|]. split; [done|].
  intros ->. by rewrite (wf_head _ _ Hwf) in Hlv.
Qed.

Lemma Get_live_rank_witness :
  WF tombstoned_tail [0; 1; 2]%nat /\
  0 <= 0 < Z.of_nat (length (liveNodes tombstoned_tail [0; 1; 2]%nat)) /\
  exists n, Get 0 tombstoned_tail = Done n tombstoned_tail.
Proof.
  assert (H0 : WF tombstoned_tail [0; 1; 2]%nat)
    by (apply wfb_sound; vm_compute; reflexivity).
  assert (H1 : 0 <= 0 < Z.of_nat (length (liveNodes tombstoned_tail [0; 1; 2]%nat)))
    by (vm_compute; split; [discriminate|reflexivity]).
  split; [exact H0|]. split; [exact H1|].
  destruct (Get_live_rank tombstoned_tail _ 0 H0 H1) as (n & Hn & _).
  exists n. exact Hn.
Defined.

(** ** The live counter counts the live nodes *)

Lemma liveNodes_ext s s' l :
  (forall x, x ∈ l -> liveAt s' x = liveAt s x) ->
  liveNodes s' l = liveNodes s l.
Proof.
  induction l as [|n l IH]; intros H; [done|].
  rewrite !liveNodes_cons, H by (by left).
  rewrite IH; [done|]. intros x Hx. apply H. by right.
Qed.

Lemma liveNodes_length_middle s l1 x l2 :
  length (liveNodes s (l1 ++ x :: l2)) =
  (length (liveNodes s (l1 ++ l2)) + if liveAt s x then 1 else 0)%nat.
Proof.
  rewrite !liveNodes_app, liveNodes_cons, !length_app.
  destruct (liveAt s x); simpl; lia.
Qed.

Lemma placement_rule_elem after a new l x :
  a ∈ l -> x ∈ placement_rule after a new l <-> x = new \/ x ∈ l.
Proof.
  induction l as [|y l IH]; intros Ha; [by apply elem_of_nil in Ha|].
  simpl. destruct (decide (y = a)) as [->|Hne].
  - rewrite !elem_of_cons, elem_of_app, elem_of_cons.
    rewrite <- (scan_app after l) at 3. rewrite elem_of_app. tauto.
  - apply elem_of_cons in Ha as [->|Ha]; [done|].
    rewrite !elem_of_cons, (IH Ha). tauto.
Qed.

Lemma placement_rule_live s after a new l :
  a ∈ l ->
  length (liveNodes s (placement_rule after a new l)) =
  (length (liveNodes s l) + if liveAt s new then 1 else 0)%nat.
Proof.
  induction l as [|y l IH]; intros Ha; [by apply elem_of_nil in Ha|].
  simpl. destruct (decide (y = a)) as [->|Hne].
  - rewrite !liveNodes_cons.
    destruct (liveAt s a); cbn [length];
      rewrite liveNodes_length_middle, scan_app; lia.
  - apply elem_of_cons in Ha as [->|Ha]; [done|].
    rewrite !liveNodes_cons. destruct (liveAt s y); simpl; rewrite (IH Ha); lia.
Qed.

Lemma Inv_size_nonneg s l : Inv s l -> 0 <= size s.
Proof. intros H. rewrite (inv_size _ _ H). lia. Qed.

Lemma registered_inj s l n m en em :
  WF s l -> registered s l -> n ∈ l -> m ∈ l ->
  elemOf s n = Some en -> elemOf s m = Some em ->
  Key (createdAt en) = Key (createdAt em) -> n = m.
Proof.
  intros Hwf Hreg Hn Hm Hen Hem Hk.
  destruct (Hreg _ Hn) as (e1 & He1 & Hm1). destruct (Hreg _ Hm) as (e2 & He2 & Hm2).
  rewrite Hen in He1. injection He1 as <-. rewrite Hem in He2. injection He2 as <-.
  rewrite Hk, Hm2 in Hm1. by injection Hm1.
Qed.

(** An insertion of a live element under a new creation key keeps the
    invariant. *)
Lemma insertAfter_inv s l p a v ev t :
  Inv s l ->
  nodeMapByCreatedAt s !! Key p = Some a ->
  elems s !! v = Some ev ->
  removedAt ev = None ->
  nodeMapByCreatedAt s !! Key (createdAt ev) = None ->
  size s + 1 < 2 ^ 63 ->
  exists s',
    insertAfter p v t s = Done tt s' /\
    Inv s' (placement_rule (afterAt s t) a (length (nodes s)) l) /\
    extends s s' /\
    wraps s' (length (nodes s)) v /\
    elemOf s' (length (nodes s)) = Some ev /\
    length (nodes s') = S (length (nodes s)) /\
    size s' = size s + 1 /\
    nodeMapByCreatedAt s' =
      <[Key (createdAt ev) := length (nodes s)]> (nodeMapByCreatedAt s).
Proof.
  intros Hinv Hp Hv Hlive Hfresh Hrange.
  pose proof (inv_wf _ _ Hinv) as Hwf.
  destruct (insertAfter_spec s l p a v ev t Hwf Hp Hv)
    as (s' & Hrun & Hwf' & Hext & (pq & nq & Hnew) & Hlen & Hsize & Hmap).
  destruct (wf_map _ _ Hwf _ _ Hp) as (Ha & _).
  assert (Hnew_e : elemOf s' (length (nodes s)) = Some ev).
  { unfold elemOf. rewrite Hnew. simpl. destruct Hext as (-> & _). done. }
  assert (Hold : forall x, x ∈ l -> liveAt s' x = liveAt s x).
  { intros x Hx. apply extends_liveAt; [done|]. by apply (wf_elems _ _ Hwf). }
  assert (Hsz : size s' = size s + 1).
  { rewrite Hsize. apply int_wrap_small. pose proof (Inv_size_nonneg _ _ Hinv). lia. }
  exists s'. split; [done|]. split; [|split; [done|]; split; [by exists pq, nq|done]].
  constructor; [done| | |lia].
  - intros x Hx. apply placement_rule_elem in Hx as [->|Hx]; [| |done].
    + exists ev. split; [done|]. by rewrite Hmap, lookup_insert_eq.
    + destruct (inv_registered _ _ Hinv _ Hx) as (e & He & Hm).
      exists e. split; [by apply (extends_elemOf s)|].
      rewrite Hmap, lookup_insert_ne; [done|]. intros E. by rewrite <- E, Hfresh in Hm.
  - unfold size_ok. rewrite placement_rule_live by done.
    assert (Hl : liveAt s' (length (nodes s)) = true).
    { unfold liveAt. rewrite Hnew_e. by apply bool_decide_eq_true_2. }
    rewrite Hl, (liveNodes_ext s s' l Hold), Hsz, (inv_size _ _ Hinv). lia.
Qed.

(** Writing an element that keeps its creation ticket and stays, or
    becomes, a tombstone. *)
Lemma WF_storeElem_tombstone s l r e e' :
  WF s l -> elems s !! r = Some e ->
  createdAt e' = createdAt e -> removedAt e' <> None ->
  WF (set_elems (fun es => <[r := e']> es) s) l.
Proof.
  intros Hwf Hr Hc Hrm.
  pose proof (lookup_lt_Some _ _ _ Hr) as Hlt.
  assert (Hel : forall n x, elemOf s n = Some x ->
            exists x', elemOf (set_elems (fun es => <[r := e']> es) s) n = Some x' /\
                       createdAt x' = createdAt x /\
                       (removedAt x <> None -> removedAt x' <> None)).
  { intros n x (nd & Hn & Hx)%elemOf_Some. unfold elemOf. simpl. rewrite Hn.
    destruct (decide (elem nd = r)) as [E|E].
    - rewrite E in *. rewrite Hr in Hx. injection Hx as <-.
      exists e'. by rewrite list_lookup_insert_eq.
    - exists x. by rewrite list_lookup_insert_ne. }
  constructor; simpl; try apply Hwf.
  - intros n Hn. destruct (wf_elems _ _ Hwf _ Hn) as [x Hx].
    destruct (Hel _ _ Hx) as (x' & Hx' & _). by exists x'.
  - intros k n Hkn. destruct (wf_map _ _ Hwf _ _ Hkn) as (Hin & x & Hx & Hk).
    split; [done|]. destruct (Hel _ _ Hx) as (x' & Hx' & Hcx & _).
    exists x'. split; [done|]. by rewrite Hcx.
  - pose proof (wf_head _ _ Hwf) as Hh. unfold liveAt in *.
    destruct (WF_nonempty _ _ Hwf) as (rr & ->).
    destruct (wf_elems _ _ Hwf (dummyHead s)) as [x Hx]; [by left|].
    rewrite Hx in Hh.
    destruct (Hel _ _ Hx) as (x' & Hx' & _ & Hrx).
    change (dummyHead (set_elems (fun es => <[r:=e']> es) s)) with (dummyHead s).
    rewrite Hx'. apply bool_decide_eq_false_2. apply Hrx.
    intros E. by rewrite E in Hh.
Qed.

Lemma Remove_tombstones e d :
  createdAt (fst (Remove e d)) = createdAt e /\
  removedAt (fst (Remove e d)) <> None /\
  movedAt (fst (Remove e d)) = movedAt e /\
  (removedAt e = None -> snd (Remove e d) = true).
Proof.
  unfold Remove. destruct (removedAt e) as [r|] eqn:E; [|done].
  destruct (After d r); simpl; [done|]. by rewrite E.
Qed.

Lemma DeleteByCreatedAt_run s c d n nd e :
  nodeMapByCreatedAt s !! Key c = Some n ->
  nodes s !! n = Some nd -> elems s !! elem nd = Some e ->
  DeleteByCreatedAt c d s =
  Done n (let s1 := set_elems (fun es => <[elem nd := fst (Remove e d)]> es) s in
          if bool_decide (removedAt e = None)
          then set_size (int_wrap (size s - 1))
                 (set_index (splay.Splay (nodeMapByIndex s) n) s1)
          else s1).
Proof.
  intros Hc Hn He. pose proof (lookup_lt_Some _ _ _ He) as Hlt.
  unfold DeleteByCreatedAt. mgo.
  destruct (removedAt e) as [r|] eqn:E.
  - rewrite (bool_decide_eq_true_2 (Some r <> None)) by done.
    rewrite andb_false_r. rewrite bool_decide_eq_false_2 by done. reflexivity.
  - rewrite (bool_decide_eq_false_2 (None <> None)) by (intros H; by apply H).
    rewrite (proj2 (proj2 (proj2 (Remove_tombstones e d)))) by done.
    rewrite bool_decide_eq_true_2 by done. reflexivity.
Qed.

Lemma WF_counter s l z t :
  WF s l -> splay.order t = l -> WF (set_size z (set_index t s)) l.
Proof. intros Hwf Ht. constructor; simpl; try apply Hwf. done. Qed.

(** A removal keeps the invariant: the node stays where it is, as a
    tombstone. *)
Lemma DeleteByCreatedAt_inv s l c d n :
  Inv s l ->
  nodeMapByCreatedAt s !! Key c = Some n ->
  exists s',
    DeleteByCreatedAt c d s = Done n s' /\
    Inv s' l /\
    nodes s' = nodes s /\ last s' = last s /\
    nodeMapByCreatedAt s' = nodeMapByCreatedAt s /\
    liveAt s' n = false /\
    (forall x, x ∈ l -> x <> n -> elemOf s' x = elemOf s x) /\
    size s' = (if liveAt s n then size s - 1 else size s).
Proof.
  intros Hinv Hc. pose proof (inv_wf _ _ Hinv) as Hwf.
  destruct (wf_map _ _ Hwf _ _ Hc) as (Hn & e & He & Hk).
  pose proof He as He0. apply elemOf_Some in He as (nd & Hnd & He).
  pose proof (lookup_lt_Some _ _ _ He) as Hlt.
  destruct (Remove_tombstones e d) as (Hrc & Hrr & _ & _).
  set (s1 := set_elems (fun es => <[elem nd := fst (Remove e d)]> es) s).
  assert (Hwf1 : WF s1 l) by (by apply (WF_storeElem_tombstone s l _ e)).
  assert (Hn1 : elemOf s1 n = Some (fst (Remove e d))).
  { unfold elemOf, s1. simpl. rewrite Hnd. by rewrite list_lookup_insert_eq. }
  assert (Hoth : forall x, x ∈ l -> x <> n -> elemOf s1 x = elemOf s x).
  { intros x Hx Hxn. destruct (wf_elems _ _ Hwf _ Hx) as [ex Hex].
    pose proof Hex as Hex0. apply elemOf_Some in Hex as (ndx & Hndx & Hex).
    unfold elemOf at 1. unfold s1. simpl. rewrite Hndx.
    destruct (decide (elem ndx = elem nd)) as [E|E].
    - exfalso. apply Hxn. rewrite E, He in Hex. injection Hex as <-.
      by apply (registered_inj s l x n e e Hwf (inv_registered _ _ Hinv)).
    - rewrite list_lookup_insert_ne by done. by rewrite Hex0. }
  assert (Hreg1 : registered s1 l).
  { intros x Hx. destruct (decide (x = n)) as [->|Hxn].
    - exists (fst (Remove e d)). split; [done|].
      rewrite Hrc. destruct (inv_registered _ _ Hinv _ Hn) as (e2 & He2 & Hm2).
      rewrite He0 in He2. by injection He2 as <-.
    - destruct (inv_registered _ _ Hinv _ Hx) as (ex & Hex & Hmx).
      exists ex. split; [by rewrite Hoth|done]. }
  assert (Hdead1 : liveAt s1 n = false).
  { unfold liveAt. rewrite Hn1. by apply bool_decide_eq_false_2. }
  assert (Hcount : length (liveNodes s l) =
                   (length (liveNodes s1 l) + if liveAt s n then 1 else 0)%nat).
  { destruct (list_elem_of_split _ _ Hn) as (l1 & l2 & Hl).
    assert (Hsame : forall lx, lx ⊆ l -> n ∉ lx -> liveNodes s1 lx = liveNodes s lx).
    { intros lx Hsub Hnot. apply liveNodes_ext. intros x Hx. unfold liveAt.
      rewrite Hoth; [done|by apply Hsub|]. intros ->. done. }
    pose proof (wf_nodup _ _ Hwf) as Hnd'. rewrite Hl in Hnd'.
    apply NoDup_app in Hnd' as (_ & Hn1' & Hnd2). apply NoDup_cons in Hnd2 as (Hn2 & _).
    rewrite Hl. rewrite !liveNodes_app, !liveNodes_cons, !length_app, Hdead1.
    rewrite (Hsame l1), (Hsame l2).
    - destruct (liveAt s n); simpl; lia.
    - intros x Hx. rewrite Hl, elem_of_app, elem_of_cons. tauto.
    - done.
    - intros x Hx. rewrite Hl, elem_of_app. tauto.
    - intros Hin. apply (Hn1' _ Hin). by left. }
  rewrite (DeleteByCreatedAt_run s c d n nd e Hc Hnd He).
  eexists. split; [reflexivity|]. fold s1.
  pose proof (inv_size _ _ Hinv) as Hsz. unfold size_ok in Hsz.
  pose proof (inv_range _ _ Hinv) as Hrg.
  cbv zeta.
  replace (liveAt s n) with (bool_decide (removedAt e = None))
    by (unfold liveAt; by rewrite He0).
  destruct (bool_decide (removedAt e = None)) eqn:Hb.
  - assert (Hw : int_wrap (size s - 1) = size s - 1).
    { apply int_wrap_small. unfold liveAt in Hcount. rewrite He0, Hb in Hcount. lia. }
    split.
    { constructor.
      - apply WF_counter; [done|]. simpl. apply (wf_index _ _ Hwf).
      - done.
      - unfold size_ok. simpl. rewrite Hw.
        change (liveNodes (set_size (size s - 1)
                  (set_index (splay.Splay (nodeMapByIndex s) n) s1)) l)
          with (liveNodes s1 l).
        unfold liveAt in Hcount. rewrite He0, Hb in Hcount. lia.
      - simpl. lia. }
    split; [done|]. split; [done|]. split; [done|].
    split; [exact Hdead1|]. split; [exact Hoth|]. simpl. exact Hw.
  - split.
    { constructor; [done|done| |done].
      unfold size_ok. change (size s1) with (size s).
      unfold liveAt in Hcount. rewrite He0, Hb in Hcount. lia. }
    split; [done|]. split; [done|]. split; [done|].
    split; [exact Hdead1|]. split; [exact Hoth|]. done.
Qed.

Lemma elemOf_storeElem s r e e' n x :
  elems s !! r = Some e ->
  createdAt e' = createdAt e -> removedAt e' = removedAt e ->
  elemOf s n = Some x ->
  exists x', elemOf (set_elems (fun es => <[r := e']> es) s) n = Some x' /\
             createdAt x' = createdAt x /\ removedAt x' = removedAt x.
Proof.
  intros Hr Hc Hrm (nd & Hn & Hx)%elemOf_Some.
  pose proof (lookup_lt_Some _ _ _ Hr) as Hlt.
  unfold elemOf. simpl. rewrite Hn.
  destruct (decide (elem nd = r)) as [E|E].
  - rewrite E in *. rewrite Hr in Hx. injection Hx as <-.
    exists e'. by rewrite list_lookup_insert_eq.
  - exists x. by rewrite list_lookup_insert_ne.
Qed.

(** Writing an element that keeps its creation and removal tickets keeps
    the invariant. *)
Lemma Inv_storeElem s l r e e' :
  Inv s l -> elems s !! r = Some e ->
  createdAt e' = createdAt e -> removedAt e' = removedAt e ->
  Inv (set_elems (fun es => <[r := e']> es) s) l.
Proof.
  intros Hinv Hr Hc Hrm. pose proof (inv_wf _ _ Hinv) as Hwf.
  assert (Hlv : forall x, x ∈ l ->
            liveAt (set_elems (fun es => <[r := e']> es) s) x = liveAt s x).
  { intros x Hx. destruct (wf_elems _ _ Hwf _ Hx) as [ex Hex].
    destruct (elemOf_storeElem s r e e' x ex Hr Hc Hrm Hex) as (x' & Hx' & _ & Hrx).
    unfold liveAt. by rewrite Hx', Hex, Hrx. }
  constructor.
  - by apply (WF_storeElem s l r e).
  - intros x Hx. destruct (inv_registered _ _ Hinv _ Hx) as (ex & Hex & Hm).
    destruct (elemOf_storeElem s r e e' x ex Hr Hc Hrm Hex) as (x' & Hx' & Hcx & _).
    exists x'. split; [done|]. by rewrite Hcx.
  - unfold size_ok. rewrite (liveNodes_ext s _ l Hlv). apply (inv_size _ _ Hinv).
  - apply (inv_range _ _ Hinv).
Qed.

(** A new element object, not yet in the list, keeps the invariant. *)
Lemma Inv_alloc s l e : Inv s l -> Inv (set_elems (fun es => es ++ [e]) s) l.
Proof.
  intros Hinv. pose proof (inv_wf _ _ Hinv) as Hwf.
  constructor.
  - by apply WF_alloc.
  - intros x Hx. destruct (inv_registered _ _ Hinv _ Hx) as (ex & Hex & Hm).
    exists ex. split; [by apply elemOf_allocElem|done].
  - unfold size_ok. rewrite (liveNodes_ext s _ l); [apply (inv_size _ _ Hinv)|].
    intros x Hx. destruct (wf_elems _ _ Hwf _ Hx) as [ex Hex].
    unfold liveAt. by rewrite (elemOf_allocElem _ _ _ _ Hex), Hex.
  - apply (inv_range _ _ Hinv).
Qed.

Lemma Inv_live_not_head s l n : Inv s l -> liveAt s n = true -> n <> dummyHead s.
Proof. intros Hinv Hl ->. by rewrite (wf_head _ _ (inv_wf _ _ Hinv)) in Hl. Qed.

(** Unlinking a node other than the sentinel keeps the invariant. *)
Lemma release_inv s l n e :
  Inv s l -> n ∈ l -> n <> dummyHead s -> elemOf s n = Some e ->
  exists s',
    release n s = Done tt s' /\
    Inv s' (splay.remove n l) /\
    extends s s' /\
    length (nodes s') = length (nodes s) /\
    size s' = (if liveAt s n then size s - 1 else size s) /\
    nodeMapByCreatedAt s' = delete (Key (createdAt e)) (nodeMapByCreatedAt s) /\
    (n ∉ splay.remove n l) /\
    (forall x, x ∈ splay.remove n l <-> x ∈ l /\ x <> n).
Proof.
  intros Hinv Hin Hnh He. pose proof (inv_wf _ _ Hinv) as Hwf.
  destruct (WF_pred _ _ _ Hwf Hin Hnh) as (l1 & p0 & l2 & ->).
  pose proof (wf_nodup _ _ Hwf) as Hnd.
  assert (Hn1 : n ∉ l1 ++ [p0]).
  { apply NoDup_app in Hnd as (_ & Hd & Hnd).
    intros [H|H%list_elem_of_singleton]%elem_of_app.
    - eapply Hd; [done|]. right. by left.
    - subst. apply NoDup_cons in Hnd as (Hnd & _). apply Hnd. by left. }
  assert (Hn2 : n ∉ l2).
  { apply NoDup_app in Hnd as (_ & _ & Hnd). apply NoDup_cons in Hnd as (_ & Hnd).
    by apply NoDup_cons in Hnd as (Hnd & _). }
  assert (Hrem : splay.remove n (l1 ++ p0 :: n :: l2) = l1 ++ p0 :: l2).
  { replace (l1 ++ p0 :: n :: l2) with ((l1 ++ [p0]) ++ n :: l2)
      by (by rewrite <- app_assoc).
    rewrite remove_decomp by done. by rewrite <- app_assoc. }
  rewrite Hrem.
  assert (Hmem : forall x, x ∈ l1 ++ p0 :: l2 <-> x ∈ l1 ++ p0 :: n :: l2 /\ x <> n).
  { intros x. rewrite !elem_of_app, !elem_of_cons. rewrite elem_of_app in Hn1.
    rewrite list_elem_of_singleton in Hn1. split; [|tauto].
    intros H. split; [tauto|]. intros ->. tauto. }
  destruct (release_spec s l1 p0 n l2 e Hwf He)
    as (s1 & Hrel & Hwf1 & Hext1 & Hlen1 & Hsz1 & Hmap1).
  assert (Hlv : forall x, x ∈ l1 ++ p0 :: l2 -> liveAt s1 x = liveAt s x).
  { intros x Hx. apply extends_liveAt; [done|]. apply (wf_elems _ _ Hwf).
    by apply Hmem. }
  assert (Hcount : length (liveNodes s (l1 ++ p0 :: n :: l2)) =
            (length (liveNodes s1 (l1 ++ p0 :: l2)) + if liveAt s n then 1 else 0)%nat).
  { rewrite (liveNodes_ext s s1 _ Hlv).
    replace (l1 ++ p0 :: n :: l2) with ((l1 ++ [p0]) ++ n :: l2)
      by (by rewrite <- app_assoc).
    rewrite liveNodes_length_middle. by rewrite <- app_assoc. }
  pose proof (inv_size _ _ Hinv) as Hsz. unfold size_ok in Hsz.
  pose proof (inv_range _ _ Hinv) as Hrg.
  assert (Hsz' : size s1 = if liveAt s n then size s - 1 else size s).
  { rewrite Hsz1. destruct (liveAt s n); [|done]. apply int_wrap_small. lia. }
  exists s1. split; [done|]. split.
  { constructor; [done| | |].
    - intros x Hx. apply Hmem in Hx as Hx'. destruct Hx' as (Hxl & Hxn).
      destruct (inv_registered _ _ Hinv _ Hxl) as (ex & Hex & Hm).
      exists ex. split; [by apply (extends_elemOf s)|].
      rewrite Hmap1, lookup_delete_ne; [done|]. intros E. apply Hxn.
      symmetry. by apply (registered_inj s _ n x e ex Hwf (inv_registered _ _ Hinv)).
    - unfold size_ok. rewrite Hsz'. destruct (liveAt s n); lia.
    - rewrite Hsz'. destruct (liveAt s n); lia. }
  split; [done|]. split; [done|]. split; [done|]. split; [done|].
  split; [|done]. intros Hx. apply Hmem in Hx. tauto.
Qed.

(** A move of a live element is a release and an insertion of the same
    element: the invariant is kept and the counter is what it was. *)
Lemma MoveAfter_inv s l prevCreatedAt target executedAt prevNode node e :
  Inv s l ->
  nodeMapByCreatedAt s !! Key prevCreatedAt = Some prevNode ->
  nodeMapByCreatedAt s !! Key target = Some node ->
  elemOf s node = Some e ->
  match movedAt e with None => true | Some m => After executedAt m end = true ->
  removedAt e = None -> prevNode <> node ->
  exists s',
    MoveAfter prevCreatedAt target executedAt s = Done tt s' /\
    Inv s' (placement_rule (afterAt s executedAt) prevNode (length (nodes s))
              (splay.remove node l)) /\
    size s' = size s /\
    elemOf s' (length (nodes s)) = Some (SetMovedAt e executedAt) /\
    nodeMapByCreatedAt s' !! Key target = Some (length (nodes s)) /\
    length (nodes s') = S (length (nodes s)).
Proof.
  intros Hinv Hmp Hmt He Hguard Hlive Hpn. pose proof (inv_wf _ _ Hinv) as Hwf.
  destruct (wf_map _ _ Hwf _ _ Hmt) as (Hin & e0 & He0 & Hkt).
  rewrite He in He0. injection He0 as <-.
  destruct (wf_map _ _ Hwf _ _ Hmp) as (Hpin & ep & Hep & Hkp).
  assert (Hlv : liveAt s node = true).
  { unfold liveAt. rewrite He. by apply bool_decide_eq_true_2. }
  pose proof (Inv_live_not_head _ _ _ Hinv Hlv) as Hnh.
  destruct (release_inv s l node e Hinv Hin Hnh He)
    as (s1 & Hrel & Hinv1 & Hext1 & Hlen1 & Hsz1 & Hmap1 & Hnot1 & Hmem1).
  rewrite Hlv in Hsz1.
  pose proof He as Hnd0. apply elemOf_Some in Hnd0 as (nd & Hnode & Hel).
  destruct Hext1 as (Hes1 & Hdh1 & Hk1).
  destruct (Hk1 _ _ Hnode) as (nd1 & Hnode1 & Hel1).
  assert (Hext1 : extends s s1) by (split; [done|]; split; done).
  assert (Hep1 : elemOf s1 prevNode = Some ep) by (by eapply extends_elemOf).
  assert (Hkne : Key (createdAt ep) <> Key (createdAt e)).
  { rewrite Hkp, Hkt. intros E. rewrite E in Hmp. congruence. }
  assert (Hmp1 : nodeMapByCreatedAt s1 !! Key (createdAt ep) = Some prevNode).
  { rewrite Hmap1, lookup_delete_ne by done. by rewrite Hkp. }
  assert (Hv1 : elems s1 !! elem nd1 = Some e) by (by rewrite Hes1, Hel1).
  assert (Hfresh1 : nodeMapByCreatedAt s1 !! Key (createdAt e) = None).
  { by rewrite Hmap1, lookup_delete_eq. }
  pose proof (inv_range _ _ Hinv) as Hrg.
  destruct (insertAfter_inv s1 _ (createdAt ep) prevNode (elem nd1) e executedAt
              Hinv1 Hmp1 Hv1 Hlive Hfresh1)
    as (s2 & Hins & Hinv2 & Hext2 & (pq & nq & Hnew) & _ & Hlen2 & Hsz2 & Hmap2);
    [lia|].
  destruct Hext2 as (Hes2 & Hdh2 & Hk2).
  destruct (Hk2 _ _ Hnode1) as (nd2 & Hnode2 & Hel2).
  assert (Hv2 : elems s2 !! elem nd2 = Some e) by (by rewrite Hes2, Hel2).
  pose proof (lookup_lt_Some _ _ _ Hv2) as Hlt2.
  exists (set_elems (fun es => <[elem nd2 := SetMovedAt e executedAt]> es) s2).
  split.
  { unfold MoveAfter. unfold bind at 1. unfold lookupCreatedAt, gets. rewrite Hmp.
    unfold bind at 1. rewrite Hmt.
    unfold bind at 1. rewrite (Element_of_run _ _ _ He). rewrite Hguard.
    unfold bind at 1. rewrite Hrel.
    unfold bind at 1. rewrite (CreatedAt_run _ _ _ Hep1).
    unfold bind at 1. unfold load. rewrite Hnode1.
    unfold bind at 1. rewrite Hins.
    unfold bind at 1. rewrite Hnode2.
    unfold bind, loadElem. rewrite Hv2. reflexivity. }
  split.
  { apply (Inv_storeElem _ _ _ e); [|done|reflexivity|reflexivity].
    rewrite Hlen1 in Hinv2.
    erewrite placement_rule_ext; [exact Hinv2|].
    intros n Hn. symmetry. apply extends_afterAt; [done|].
    apply (wf_elems _ _ Hwf). by apply Hmem1. }
  split; [simpl; lia|].
  split.
  { unfold elemOf. simpl. rewrite Hlen1 in Hnew. rewrite Hnew. simpl.
    rewrite <- Hel2. by rewrite list_lookup_insert_eq. }
  split; [simpl; by rewrite Hmap2, <- Hkt, Hlen1, lookup_insert_eq|].
  simpl. lia.
Qed.

Lemma invb_sound s l : invb s l = true -> Inv s l.
Proof.
  unfold invb. rewrite !andb_true_iff.
  intros (((Hwf & Hreg) & Hsz) & Hrg).
  constructor.
  - by apply wfb_sound.
  - intros n Hn. unfold registeredb in Hreg. rewrite forallb_forall in Hreg.
    apply list_elem_of_In in Hn. specialize (Hreg n Hn).
    destruct (elemOf s n) as [e|]; [|discriminate].
    exists e. split; [done|]. by apply bool_decide_eq_true_1 in Hreg.
  - by apply bool_decide_eq_true_1 in Hsz.
  - by apply bool_decide_eq_true_1 in Hrg.
Qed.

Lemma placement_rule_last after ln new l0 :
  ln ∉ l0 -> placement_rule after ln new (l0 ++ [ln]) = (l0 ++ [ln]) ++ [new].
Proof.
  intros Hn. rewrite placement_rule_decomp by done. simpl.
  by rewrite <- app_assoc.
Qed.

(** [Add] of a new element under a new ticket appends its node and keeps
    the invariant. *)
Lemma AddPrimitive_inv s l text t :
  Inv s l ->
  nodeMapByCreatedAt s !! Key t = None -> size s + 1 < 2 ^ 63 ->
  exists s',
    AddPrimitive text t s = Done tt s' /\
    Inv s' (l ++ [length (nodes s)]) /\
    elemOf s' (length (nodes s)) = Some (NewPrimitive text t) /\
    (forall x ex, elemOf s x = Some ex -> elemOf s' x = Some ex) /\
    size s' = size s + 1 /\
    nodeMapByCreatedAt s' = <[Key t := length (nodes s)]> (nodeMapByCreatedAt s) /\
    dummyHead s' = dummyHead s.
Proof.
  intros Hinv Hfresh Hrg.
  set (e := NewPrimitive text t).
  set (s0 := set_elems (fun es => es ++ [e]) s).
  assert (Hinv0 : Inv s0 l) by (by apply Inv_alloc).
  pose proof (inv_wf _ _ Hinv0) as Hwf0.
  assert (Hv : elems s0 !! length (elems s) = Some e) by apply lookup_snoc_length.
  destruct (Add_is_insertAfter s0 l _ e Hwf0 Hv) as (ln & el & Hlast & Hel & Hadd).
  destruct (WF_tail_split _ _ Hwf0) as (l0 & ln' & Hl & Hlast' & _).
  rewrite Hlast in Hlast'. injection Hlast' as <-.
  assert (Hln : ln ∈ l) by (rewrite Hl, elem_of_app, list_elem_of_singleton; tauto).
  destruct (inv_registered _ _ Hinv0 _ Hln) as (el' & Hel' & Hmap).
  rewrite Hel in Hel'. injection Hel' as <-.
  destruct (insertAfter_inv s0 l (createdAt el) ln (length (elems s)) e (createdAt e)
              Hinv0 Hmap Hv eq_refl Hfresh Hrg)
    as (s' & Hrun & Hinv' & Hext & _ & Hnew & _ & Hsz & Hmap').
  exists s'. split; [unfold AddPrimitive, bind, allocElem; fold e; fold s0; congruence|].
  assert (Hn0 : ln ∉ l0).
  { pose proof (wf_nodup _ _ Hwf0) as Hnd. rewrite Hl in Hnd.
    apply NoDup_app in Hnd as (_ & Hd & _). intros H. apply (Hd _ H). by left. }
  rewrite Hl in Hinv'. rewrite placement_rule_last in Hinv' by done.
  rewrite <- Hl in Hinv'.
  split; [exact Hinv'|]. split; [exact Hnew|].
  split; [|split; [done|]; split; [done|]; by destruct Hext as (_ & ? & _)].
  intros x ex Hx. apply (extends_elemOf s0); [done|]. by apply elemOf_allocElem.
Qed.

(** [InsertAfter] of a new element under a new ticket keeps the invariant. *)
Lemma InsertPrimitiveAfter_inv s l p a text t :
  Inv s l ->
  nodeMapByCreatedAt s !! Key p = Some a ->
  nodeMapByCreatedAt s !! Key t = None -> size s + 1 < 2 ^ 63 ->
  exists s',
    InsertPrimitiveAfter p text t s = Done tt s' /\
    Inv s' (placement_rule (afterAt s t) a (length (nodes s)) l) /\
    elemOf s' (length (nodes s)) = Some (NewPrimitive text t) /\
    (forall x ex, elemOf s x = Some ex -> elemOf s' x = Some ex) /\
    size s' = size s + 1 /\
    nodeMapByCreatedAt s' = <[Key t := length (nodes s)]> (nodeMapByCreatedAt s) /\
    dummyHead s' = dummyHead s.
Proof.
  intros Hinv Hp Hfresh Hrg.
  set (e := NewPrimitive text t).
  set (s0 := set_elems (fun es => es ++ [e]) s).
  assert (Hinv0 : Inv s0 l) by (by apply Inv_alloc).
  pose proof (inv_wf _ _ Hinv) as Hwf.
  assert (Hv : elems s0 !! length (elems s) = Some e) by apply lookup_snoc_length.
  destruct (insertAfter_inv s0 l p a (length (elems s)) e (createdAt e)
              Hinv0 Hp Hv eq_refl Hfresh Hrg)
    as (s' & Hrun & Hinv' & Hext & _ & Hnew & _ & Hsz & Hmap').
  exists s'. split.
  { unfold InsertPrimitiveAfter, bind, allocElem. fold e. fold s0.
    unfold InsertAfter, bind, loadElem. rewrite Hv. exact Hrun. }
  split.
  { erewrite placement_rule_ext; [exact Hinv'|].
    intros n Hn. unfold afterAt.
    destruct (wf_elems _ _ Hwf _ Hn) as [ex Hex].
    by rewrite (elemOf_allocElem s e n ex Hex : elemOf s0 n = Some ex), Hex. }
  split; [exact Hnew|].
  split; [|split; [done|]; split; [done|]; by destruct Hext as (_ & ? & _)].
  intros x ex Hx. apply (extends_elemOf s0); [done|]. by apply elemOf_allocElem.
Qed.

(** [Delete] tombstones the live node of the rank. *)
Lemma Delete_inv s l idx d :
  Inv s l -> 0 <= idx < size s ->
  exists n s',
    liveNodes s l !! Z.to_nat idx = Some n /\
    Delete idx d s = Done n s' /\
    Inv s' l /\
    liveAt s' n = false /\
    (forall x, x ∈ l -> x <> n -> elemOf s' x = elemOf s x) /\
    size s' = size s - 1.
Proof.
  intros Hinv Hidx. pose proof (inv_wf _ _ Hinv) as Hwf.
  rewrite (inv_size _ _ Hinv) in Hidx.
  destruct (Get_spec _ _ _ Hwf Hidx) as (n & Hn & Hget).
  pose proof Hn as Hin. apply list_elem_of_lookup_2 in Hin.
  apply list_elem_of_filter in Hin as [Hlv Hin].
  destruct (inv_registered _ _ Hinv _ Hin) as (e & He & Hmap).
  destruct (DeleteByCreatedAt_inv s l (createdAt e) d n Hinv Hmap)
    as (s' & Hrun & Hinv' & _ & _ & _ & Hdead & Hoth & Hsz).
  exists n, s'. split; [done|]. split.
  { unfold Delete. unfold bind at 1. rewrite Hget.
    unfold bind. by rewrite (CreatedAt_run _ _ _ He). }
  rewrite Hlv in Hsz. done.
Qed.

(** [purge] unlinks the node that the element's ticket resolves to. *)
Lemma purge_inv s l r v n :
  Inv s l -> elems s !! r = Some v ->
  nodeMapByCreatedAt s !! Key (createdAt v) = Some n ->
  n <> dummyHead s ->
  exists s',
    purge r s = Done tt s' /\
    Inv s' (splay.remove n l) /\
    extends s s' /\
    size s' = (if liveAt s n then size s - 1 else size s) /\
    nodeMapByCreatedAt s' = delete (Key (createdAt v)) (nodeMapByCreatedAt s) /\
    (n ∉ splay.remove n l) /\
    (forall x, x ∈ splay.remove n l <-> x ∈ l /\ x <> n).
Proof.
  intros Hinv Hr Hmap Hnh. pose proof (inv_wf _ _ Hinv) as Hwf.
  destruct (wf_map _ _ Hwf _ _ Hmap) as (Hin & en & Hen & Hk).
  destruct (release_inv s l n en Hinv Hin Hnh Hen)
    as (s' & Hrel & Hinv' & Hext & _ & Hsz & Hmap' & Hnot & Hmem).
  exists s'. split.
  { unfold purge. unfold bind at 1. unfold loadElem. rewrite Hr.
    unfold bind, lookupCreatedAt, gets. by rewrite Hmap. }
  rewrite Hk in Hmap'. done.
Qed.

(** Every reachable state satisfies the invariant. *)
Lemma Reachable_Inv s : Reachable s -> exists l, Inv s l.
Proof.
  induction 1 as [|s s' text t _ (l & Hinv) Hf Hrg Hrun
                  |s s' p text t _ (l & Hinv) Hf Hrg Hrun
                  |s s' c d n _ (l & Hinv) Hrun
                  |s s' idx d n _ (l & Hinv) Hidx Hrun
                  |s s' p c t node e _ (l & Hinv) Hc He Hlive Hpc Hrun
                  |s s' r _ (l & Hinv) Hrun].
  - exists [0%nat]. apply invb_sound. vm_compute. reflexivity.
  - destruct (AddPrimitive_inv s l text t Hinv Hf Hrg) as (s2 & Hrun2 & Hinv2 & _).
    rewrite Hrun in Hrun2. injection Hrun2 as <-. by eexists.
  - destruct (nodeMapByCreatedAt s !! Key p) as [a|] eqn:Hp.
    + destruct (InsertPrimitiveAfter_inv s l p a text t Hinv Hp Hf Hrg)
        as (s2 & Hrun2 & Hinv2 & _).
      rewrite Hrun in Hrun2. injection Hrun2 as <-. by eexists.
    + exfalso. revert Hrun. unfold InsertPrimitiveAfter, bind, allocElem.
      unfold InsertAfter, bind, loadElem. cbn [elems set_elems].
      rewrite lookup_snoc_length.
      unfold insertAfter, bind, findNextBeforeExecutedAt, bind, lookupCreatedAt, gets.
      cbn [nodeMapByCreatedAt set_elems]. by rewrite Hp.
  - destruct (nodeMapByCreatedAt s !! Key c) as [a|] eqn:Hc.
    + destruct (DeleteByCreatedAt_inv s l c d a Hinv Hc) as (s2 & Hrun2 & Hinv2 & _).
      rewrite Hrun in Hrun2. injection Hrun2 as _ <-. by eexists.
    + exfalso. revert Hrun. unfold DeleteByCreatedAt, bind, lookupCreatedAt, gets.
      by rewrite Hc.
  - destruct (Delete_inv s l idx d Hinv Hidx) as (n2 & s2 & _ & Hrun2 & Hinv2 & _).
    rewrite Hrun in Hrun2. injection Hrun2 as _ <-. by eexists.
  - destruct (nodeMapByCreatedAt s !! Key p) as [a|] eqn:Hp.
    + destruct (match movedAt e with None => true | Some m => After t m end) eqn:Hg.
      * assert (Hne : a <> node).
        { intros ->. apply Hpc. apply Key_inj.
          destruct (wf_map _ _ (inv_wf _ _ Hinv) _ _ Hp) as (_ & e1 & He1 & Hk1).
          destruct (wf_map _ _ (inv_wf _ _ Hinv) _ _ Hc) as (_ & e2 & He2 & Hk2).
          rewrite He1 in He2. injection He2 as <-. by rewrite <- Hk1, <- Hk2. }
        destruct (MoveAfter_inv s l p c t a node e Hinv Hp Hc He Hg Hlive Hne)
          as (s2 & Hrun2 & Hinv2 & _).
        rewrite Hrun in Hrun2. injection Hrun2 as <-. by eexists.
      * revert Hrun. unfold MoveAfter. unfold bind at 1. unfold lookupCreatedAt, gets.
        rewrite Hp. unfold bind at 1. rewrite Hc.
        unfold bind at 1. rewrite (Element_of_run _ _ _ He), Hg.
        intros [= <-]. by exists l.
    + exfalso. revert Hrun. unfold MoveAfter, bind, lookupCreatedAt, gets.
      by rewrite Hp.
  - pose proof (inv_wf _ _ Hinv) as Hwf.
    destruct (elems s !! r) as [v|] eqn:Hr.
    + destruct (nodeMapByCreatedAt s !! Key (createdAt v)) as [n|] eqn:Hm.
      * destruct (decide (n = dummyHead s)) as [->|Hnh].
        { exfalso. revert Hrun. unfold purge. unfold bind at 1. unfold loadElem.
          rewrite Hr. unfold bind, lookupCreatedAt, gets. rewrite Hm.
          by rewrite (release_sentinel _ _ Hwf). }
        destruct (purge_inv s l r v n Hinv Hr Hm Hnh) as (s2 & Hrun2 & Hinv2 & _).
        rewrite Hrun in Hrun2. injection Hrun2 as <-. by eexists.
      * exfalso. revert Hrun. unfold purge. unfold bind at 1. unfold loadElem.
        rewrite Hr. unfold bind, lookupCreatedAt, gets. by rewrite Hm.
    + exfalso. revert Hrun. unfold purge, bind, loadElem. by rewrite Hr.
Qed.

Lemma liveNodes_remove s s' l n :
  (forall x, x ∈ l -> x <> n -> liveAt s' x = liveAt s x) ->
  liveAt s' n = false ->
  liveNodes s' l = filter (fun x => x <> n) (liveNodes s l).
Proof.
  intros Hoth Hdead. induction l as [|x l IH]; [done|].
  rewrite !liveNodes_cons.
  rewrite IH by (intros y Hy; apply Hoth; by right).
  destruct (decide (x = n)) as [->|Hx].
  - rewrite Hdead. destruct (liveAt s n); [|done].
    by rewrite filter_cons_False by (intros H; by apply H).
  - rewrite (Hoth x) by (done || by left).
    destruct (liveAt s x); [|done]. by rewrite filter_cons_True.
Qed.

(** ** The operations keep the invariant *)

(** X9. [InsertAfter] of a live element whose creation ticket the list does
    not know yet, after a known anchor, keeps the invariant: the list is the
    one the placement rule gives, the new node is live and found under the
    element's ticket, and [Len] has grown by one, so that it still counts
    the live nodes. *)
Theorem InsertAfter_keeps_invariant s l p a v ev :
  Inv s l ->
  nodeMapByCreatedAt s !! Key p = Some a ->
  elems s !! v = Some ev ->
  removedAt ev = None ->
  nodeMapByCreatedAt s !! Key (createdAt ev) = None ->
  size s + 1 < 2 ^ 63 ->
  exists s',
    InsertAfter p v s = Done tt s' /\
    Inv s' (placement_rule (afterAt s (createdAt ev)) a (length (nodes s)) l) /\
    Len s' = Done (size s + 1) s' /\
    nodeMapByCreatedAt s' !! Key (createdAt ev) = Some (length (nodes s)) /\
    wraps s' (length (nodes s)) v /\
    liveAt s' (length (nodes s)) = true.
Proof.
  intros Hinv Hp Hv Hlive Hfresh Hrg.
  destruct (insertAfter_inv s l p a v ev (createdAt ev) Hinv Hp Hv Hlive Hfresh Hrg)
    as (s' & Hrun & Hinv' & _ & Hw & Hnew & _ & Hsz & Hmap).
  exists s'. split; [unfold InsertAfter, bind, loadElem; by rewrite Hv|].
  split; [done|]. split; [unfold Len, gets; by rewrite Hsz|].
  split; [by rewrite Hmap, lookup_insert_eq|]. split; [done|].
  unfold liveAt. rewrite Hnew. by apply bool_decide_eq_true_2.
Qed.

Lemma InsertAfter_keeps_invariant_witness :
  Inv two_pending [0; 1]%nat /\
  nodeMapByCreatedAt two_pending !! Key (ticketAt 1) = Some 1%nat /\
  elems two_pending !! 2%nat = Some (NewPrimitive "a" (mkTicket 5 1 0)) /\
  exists s', InsertAfter (ticketAt 1) 2%nat two_pending = Done tt s' /\
             Len s' = Done (size two_pending + 1) s'.
Proof.
  assert (H0 : Inv two_pending [0; 1]%nat)
    by (apply invb_sound; vm_compute; reflexivity).
  assert (H1 : nodeMapByCreatedAt two_pending !! Key (ticketAt 1) = Some 1%nat)
    by (vm_compute; reflexivity).
  assert (H2 : elems two_pending !! 2%nat = Some (NewPrimitive "a" (mkTicket 5 1 0)))
    by (vm_compute; reflexivity).
  split; [exact H0|]. split; [exact H1|]. split; [exact H2|].
  destruct (InsertAfter_keeps_invariant two_pending _ (ticketAt 1) 1%nat 2%nat _
              H0 H1 H2) as (s' & Hrun & _ & Hlen & _).
  - reflexivity.
  - vm_compute. reflexivity.
  - vm_compute. reflexivity.
  - exists s'. split; [exact Hrun|exact Hlen].
Defined.

(** X10. [DeleteByCreatedAt] keeps the invariant and never unlinks: the
    node stays where it is, now a tombstone and still found under its
    ticket, the other nodes are live exactly when they were, and [Len] is
    one less exactly when the node was live. *)
Theorem DeleteByCreatedAt_keeps_invariant s l c d n :
  Inv s l ->
  nodeMapByCreatedAt s !! Key c = Some n ->
  exists s',
    DeleteByCreatedAt c d s = Done n s' /\
    Inv s' l /\
    liveNodes s' l = filter (fun x => x <> n) (liveNodes s l) /\
    Len s' = Done (if liveAt s n then size s - 1 else size s) s' /\
    Nodes s' = Done (tail l) s' /\
    nodeMapByCreatedAt s' !! Key c = Some n.
Proof.
  intros Hinv Hc.
  destruct (DeleteByCreatedAt_inv s l c d n Hinv Hc)
    as (s' & Hrun & Hinv' & _ & _ & Hmap & Hdead & Hoth & Hsz).
  exists s'. split; [done|]. split; [done|].
  split.
  { apply liveNodes_remove; [|done]. intros x Hx Hxn. unfold liveAt.
    by rewrite Hoth. }
  split; [unfold Len, gets; by rewrite Hsz|].
  split; [apply Nodes_run, (inv_wf _ _ Hinv')|]. by rewrite Hmap.
Qed.

Lemma DeleteByCreatedAt_keeps_invariant_witness :
  Inv three_elements [0; 1; 2; 3]%nat /\
  nodeMapByCreatedAt three_elements !! Key (ticketAt 2) = Some 2%nat /\
  exists s', DeleteByCreatedAt (ticketAt 2) (ticketAt 4) three_elements
             = Done 2%nat s' /\
             Nodes s' = Done [1; 2; 3]%nat s'.
Proof.
  assert (H0 : Inv three_elements [0; 1; 2; 3]%nat)
    by (apply invb_sound; vm_compute; reflexivity).
  assert (H1 : nodeMapByCreatedAt three_elements !! Key (ticketAt 2) = Some 2%nat)
    by (vm_compute; reflexivity).
  split; [exact H0|]. split; [exact H1|].
  destruct (DeleteByCreatedAt_keeps_invariant three_elements _ (ticketAt 2)
              (ticketAt 4) 2%nat H0 H1) as (s' & Hrun & _ & _ & _ & Hnodes & _).
  exists s'. split; [exact Hrun|exact Hnodes].
Defined.

(** X11. [Delete idx], for [idx] below [Len], tombstones the live node of
    rank [idx] and returns it: the invariant is kept, the node is a
    tombstone afterwards and [Len] is one less. *)
Theorem Delete_tombstones_rank s l idx d :
  Inv s l -> 0 <= idx < size s ->
  exists n s',
    liveNodes s (tail l) !! Z.to_nat idx = Some n /\
    Delete idx d s = Done n s' /\
    Inv s' l /\
    liveAt s' n = false /\
    liveNodes s' l = filter (fun x => x <> n) (liveNodes s l) /\
    Len s' = Done (size s - 1) s'.
Proof.
  intros Hinv Hidx.
  destruct (Delete_inv s l idx d Hinv Hidx)
    as (n & s' & Hn & Hrun & Hinv' & Hdead & Hoth & Hsz).
  exists n, s'.
  destruct (WF_tail _ _ (inv_wf _ _ Hinv)) as (_ & Hlive & _).
  split; [by rewrite Hlive|]. split; [done|]. split; [done|]. split; [done|].
  split; [|unfold Len, gets; by rewrite Hsz].
  apply liveNodes_remove; [|done]. intros x Hx Hxn. unfold liveAt.
  by rewrite Hoth.
Qed.

Lemma Delete_tombstones_rank_witness :
  Inv three_elements [0; 1; 2; 3]%nat /\
  0 <= 1 < size three_elements /\
  exists n s', Delete 1 (ticketAt 4) three_elements = Done n s' /\
               Len s' = Done (size three_elements - 1) s'.
Proof.
  assert (H0 : Inv three_elements [0; 1; 2; 3]%nat)
    by (apply invb_sound; vm_compute; reflexivity).
  assert (H1 : 0 <= 1 < size three_elements)
    by (vm_compute; split; [discriminate|reflexivity]).
  split; [exact H0|]. split; [exact H1|].
  destruct (Delete_tombstones_rank three_elements _ 1 (ticketAt 4) H0 H1)
    as (n & s' & _ & Hrun & _ & _ & _ & Hlen).
  exists n, s'. split; [exact Hrun|exact Hlen].
Defined.

(** X12. [purge] of an element whose ticket resolves to a node other than
    the sentinel unlinks that node: the invariant holds for the list
    without it, [Nodes] no longer returns it, [Len] is one less exactly when
    it was live, and its ticket is unknown afterwards, so that a second
    [purge] of the element fails. *)
Theorem purge_unlinks s l r v n :
  Inv s l -> elems s !! r = Some v ->
  nodeMapByCreatedAt s !! Key (createdAt v) = Some n ->
  n <> dummyHead s ->
  exists s',
    purge r s = Done tt s' /\
    Inv s' (splay.remove n l) /\
    (n ∉ splay.remove n l) /\
    Nodes s' = Done (tail (splay.remove n l)) s' /\
    Len s' = Done (if liveAt s n then size s - 1 else size s) s' /\
    nodeMapByCreatedAt s' !! Key (createdAt v) = None /\
    purge r s' = Panic (UnknownCreatedAt (Key (createdAt v))) s'.
Proof.
  intros Hinv Hr Hmap Hnh.
  destruct (purge_inv s l r v n Hinv Hr Hmap Hnh)
    as (s' & Hrun & Hinv' & Hext & Hsz & Hmap' & Hnot & _).
  exists s'. split; [done|]. split; [done|]. split; [done|].
  split; [apply Nodes_run, (inv_wf _ _ Hinv')|].
  split; [unfold Len, gets; by rewrite Hsz|].
  assert (Hgone : nodeMapByCreatedAt s' !! Key (createdAt v) = None)
    by (by rewrite Hmap', lookup_delete_eq).
  split; [done|].
  unfold purge. unfold bind at 1. unfold loadElem.
  destruct Hext as (-> & _). rewrite Hr.
  unfold bind, lookupCreatedAt, gets. by rewrite Hgone.
Qed.

Lemma purge_unlinks_witness :
  Inv tombstoned_tail [0; 1; 2]%nat /\
  nodeMapByCreatedAt tombstoned_tail !! Key (ticketAt 2) = Some 2%nat /\
  exists s', purge 2%nat tombstoned_tail = Done tt s' /\
             Nodes s' = Done [1%nat] s' /\
             Len s' = Done 1 s'.
Proof.
  assert (H0 : Inv tombstoned_tail [0; 1; 2]%nat)
    by (apply invb_sound; vm_compute; reflexivity).
  assert (H1 : nodeMapByCreatedAt tombstoned_tail !! Key (ticketAt 2) = Some 2%nat)
    by (vm_compute; reflexivity).
  split; [exact H0|]. split; [exact H1|].
  destruct (purge_unlinks tombstoned_tail _ 2%nat
              (SetRemovedAt (NewPrimitive "1" (ticketAt 2)) (ticketAt 3)) 2%nat H0)
    as (s' & Hrun & _ & _ & Hnodes & Hlen & _).
  - vm_compute. reflexivity.
  - exact H1.
  - discriminate.
  - exists s'. split; [exact Hrun|]. split; [exact Hnodes|exact Hlen].
Defined.



(** X14. [Add] of a new element under a ticket the list does not know
    appends: whatever the tickets of the nodes in the list, the new node is
    the last one, [LastCreatedAt] then returns the element's ticket,
    [Nodes] returns the nodes it returned before followed by the new node,
    and the invariant is kept with [Len] one more. *)
Theorem Add_appends s l text t :
  Inv s l ->
  nodeMapByCreatedAt s !! Key t = None -> size s + 1 < 2 ^ 63 ->
  exists s',
    AddPrimitive text t s = Done tt s' /\
    Inv s' (l ++ [length (nodes s)]) /\
    elemOf s' (length (nodes s)) = Some (NewPrimitive text t) /\
    LastCreatedAt s' = Done t s' /\
    Nodes s' = Done (tail l ++ [length (nodes s)]) s' /\
    Len s' = Done (size s + 1) s'.
Proof.
  intros Hinv Hfresh Hrg.
  destruct (AddPrimitive_inv s l text t Hinv Hfresh Hrg)
    as (s' & Hrun & Hinv' & Hnew & _ & Hsz & _).
  pose proof (inv_wf _ _ Hinv') as Hwf'.
  exists s'. split; [done|]. split; [done|]. split; [done|].
  split.
  { pose proof (wf_last _ _ Hwf') as Hlast. rewrite last_snoc in Hlast.
    unfold LastCreatedAt. unfold bind at 1. unfold gets. rewrite <- Hlast.
    unfold bind at 1. simpl. by rewrite (CreatedAt_run _ _ _ Hnew). }
  split; [|unfold Len, gets; by rewrite Hsz].
  rewrite (Nodes_run _ _ Hwf').
  destruct (WF_nonempty _ _ (inv_wf _ _ Hinv)) as (r & ->). done.
Qed.

Lemma Add_appends_witness :
  Inv three_elements [0; 1; 2; 3]%nat /\
  nodeMapByCreatedAt three_elements !! Key (ticketAt 4) = None /\
  exists s', AddPrimitive "3" (ticketAt 4) three_elements = Done tt s' /\
             LastCreatedAt s' = Done (ticketAt 4) s'.
Proof.
  assert (H0 : Inv three_elements [0; 1; 2; 3]%nat)
    by (apply invb_sound; vm_compute; reflexivity).
  assert (H1 : nodeMapByCreatedAt three_elements !! Key (ticketAt 4) = None)
    by (vm_compute; reflexivity).
  split; [exact H0|]. split; [exact H1|].
  destruct (Add_appends three_elements _ "3" (ticketAt 4) H0 H1)
    as (s' & Hrun & _ & _ & Hlast & _).
  - vm_compute. reflexivity.
  - exists s'. split; [exact Hrun|exact Hlast].
Defined.

(** X15. In every state reached from a new list by [Add] and [InsertAfter]
    of new elements under new tickets, [DeleteByCreatedAt], [Delete] below
    [Len], [MoveAfter] of live elements after other elements, and [purge],
    [Len] is the number of live nodes, and every [idx] below [Len] is
    resolved by [Get] to a live node other than the sentinel, with the state
    unchanged. *)
Theorem Reachable_Len_Get s :
  Reachable s ->
  exists l,
    Inv s l /\
    Len s = Done (Z.of_nat (length (liveNodes s (tail l)))) s /\
    forall idx, 0 <= idx < size s ->
      exists n, Get idx s = Done n s /\
                liveNodes s (tail l) !! Z.to_nat idx = Some n /\
                liveAt s n = true /\ n <> dummyHead s.
Proof.
  intros Hr. destruct (Reachable_Inv _ Hr) as (l & Hinv). exists l.
  pose proof (inv_wf _ _ Hinv) as Hwf.
  destruct (WF_tail _ _ Hwf) as (_ & Hlive & _).
  split; [done|]. split.
  { unfold Len, gets. by rewrite Hlive, <- (inv_size _ _ Hinv). }
  intros idx Hidx. rewrite (inv_size _ _ Hinv) in Hidx.
  destruct (Get_spec _ _ _ Hwf Hidx) as (n & Hn & Hget).
  exists n. split; [done|]. split; [by rewrite Hlive|].
  apply list_elem_of_lookup_2 in Hn. apply list_elem_of_filter in Hn as [Hlv Hin].
  split; [done|]. intros ->. by rewrite (wf_head _ _ Hwf) in Hlv.
Qed.

Lemma Reachable_Len_Get_witness :
  Reachable one_element /\
  exists l, Inv one_element l /\
    Len one_element
      = Done (Z.of_nat (length (liveNodes one_element (tail l)))) one_element.
Proof.
  assert (H0 : Reachable one_element).
  { apply (Reachable_Add NewRGATreeList one_element "x" (ticketAt 1)).
    - apply Reachable_new.
    - vm_compute. reflexivity.
    - vm_compute. reflexivity.
    - vm_compute. reflexivity. }
  split; [exact H0|].
  destruct (Reachable_Len_Get one_element H0) as (l & Hinv & Hlen & _).
  exists l. split; [exact Hinv|exact Hlen].
Defined.

(** ** Compositions *)

Lemma omap_seq_lookup {A B} (f : nat -> option B) (g : A -> B) (es : list A) k :
  (forall i d, es !! i = Some d -> f (k + i)%nat = Some (g d)) ->
  omap f (seq k (length es)) = g <$> es.
Proof.
  revert k. induction es as [|d es IH]; intros k H; [done|].
  simpl. rewrite <- (Nat.add_0_r k) at 1. rewrite (H 0%nat d) by done.
  f_equal. apply IH. intros i d' Hi.
  replace (S k + i)%nat with (k + S i)%nat by lia. by apply H.
Qed.

(** X16. After a sequence of [Add] calls on a new list, [Marshal] returns
    the texts of the elements in the order of the calls, joined by single
    commas between square brackets, and [Nodes] returns one node per call,
    in that order. *)
Theorem AddAll_Marshal (es : list (string * Ticket)) :
  Z.of_nat (length es) < 2 ^ 63 ->
  exists s,
    AddAll es NewRGATreeList = Done tt s /\
    Marshal s = Done ("[" ++ String.concat "," (fst <$> es) ++ "]")%string s /\
    Nodes s = Done (seq 1 (length es)) s.
Proof.
  intros Hb. destruct (AddAll_spec es Hb) as (s & Hrun & Hwf & _ & Hget).
  exists s. split; [done|].
  assert (Hall : Forall (fun n => liveAt s n = true) (seq 1 (length es))).
  { apply Forall_forall. intros n Hn. apply elem_of_seq in Hn.
    destruct n as [|i]; [lia|].
    destruct (lookup_lt_is_Some_2 es i) as [[text t] Hd]; [lia|].
    destruct (Hget _ _ _ Hd) as (_ & He). unfold liveAt. by rewrite He. }
  assert (Hlive : liveNodes s (seq 0 (S (length es))) = seq 1 (length es)).
  { change (seq 0 (S (length es))) with (0%nat :: seq 1 (length es)).
    rewrite liveNodes_cons.
    destruct (WF_nonempty _ _ Hwf) as (r & Hr). simpl in Hr. injection Hr as Hh _.
    replace (liveAt s 0%nat) with false
      by (rewrite Hh; symmetry; apply (wf_head _ _ Hwf)).
    by apply liveNodes_all. }
  split; [|rewrite (Nodes_run _ _ Hwf); reflexivity].
  rewrite (Marshal_written _ _ Hwf). rewrite written_live_tail; [|done|].
  - simpl tail. replace (texts s (seq 1 (length es))) with (fst <$> es); [done|].
    symmetry. unfold texts. rewrite (liveNodes_all _ _ Hall).
    apply omap_seq_lookup. intros i [text t] Hd.
    destruct (Hget _ _ _ Hd) as (_ & He). simpl. by rewrite He.
  - destruct es as [|d es' _] using rev_ind.
    + left. by rewrite Hlive.
    + right. exists (length (es' ++ [d])). split.
      * rewrite <- (wf_last _ _ Hwf). rewrite seq_S. by rewrite last_snoc.
      * rewrite Forall_forall in Hall. apply Hall. apply elem_of_seq.
        rewrite length_app. simpl. lia.
Qed.

Lemma AddAll_Marshal_witness :
  exists s,
    AddAll [("0"%string, ticketAt 1); ("1"%string, ticketAt 2);
            ("2"%string, ticketAt 3)] NewRGATreeList = Done tt s /\
    Marshal s = Done "[0,1,2]"%string s.
Proof.
  destruct (AddAll_Marshal [("0"%string, ticketAt 1); ("1"%string, ticketAt 2);
                            ("2"%string, ticketAt 3)]) as (s & Hrun & Hm & _).
  - vm_compute. reflexivity.
  - exists s. split; [exact Hrun|exact Hm].
Defined.

(** X17. [FindPrevCreatedAt] recovers the anchor of an insertion: after
    [InsertAfter] of a new element under a new ticket that no node of the
    list is positioned after, with an anchor that is live or the sentinel,
    [FindPrevCreatedAt] of the element's ticket returns the anchor's
    ticket. *)
Theorem InsertAfter_FindPrevCreatedAt s l p a text t :
  Inv s l ->
  nodeMapByCreatedAt s !! Key p = Some a ->
  a = dummyHead s \/ liveAt s a = true ->
  nodeMapByCreatedAt s !! Key t = None -> size s + 1 < 2 ^ 63 ->
  Forall (fun x => afterAt s t x = false) l ->
  exists s',
    InsertPrimitiveAfter p text t s = Done tt s' /\
    FindPrevCreatedAt t s' = Done p s'.
Proof.
  intros Hinv Hp Hvis Hfresh Hrg Hall. pose proof (inv_wf _ _ Hinv) as Hwf.
  destruct (InsertPrimitiveAfter_inv s l p a text t Hinv Hp Hfresh Hrg)
    as (s' & Hrun & Hinv' & Hnew & Hold & _ & Hmap & Hdh).
  exists s'. split; [done|]. pose proof (inv_wf _ _ Hinv') as Hwf'.
  destruct (wf_map _ _ Hwf _ _ Hp) as (Ha & ea & Hea & Hk).
  apply Key_inj in Hk.
  destruct (list_elem_of_split _ _ Ha) as (l1 & l2 & Hl).
  assert (Hn1 : a ∉ l1).
  { pose proof (wf_nodup _ _ Hwf) as Hnd. rewrite Hl in Hnd.
    apply NoDup_app in Hnd as (_ & Hd & _). intros H. apply (Hd _ H). by left. }
  assert (Hl' : placement_rule (afterAt s t) a (length (nodes s)) l
                = l1 ++ a :: length (nodes s) :: l2).
  { rewrite Hl, placement_rule_decomp by done. rewrite scan_stop; [done|].
    destruct l2 as [|x l2]; [done|]. rewrite Forall_forall in Hall. apply Hall.
    rewrite Hl, elem_of_app, !elem_of_cons. tauto. }
  rewrite Hl' in Hwf'.
  unfold FindPrevCreatedAt, lookupCreatedAt. mlow0.
  rewrite Hmap, lookup_insert_eq.
  rewrite (FindPrev_loop_run s' (Some (dummyHead s')) None l1 a []
             (length (nodes s)) l2).
  - rewrite (CreatedAt_run _ _ _ (Hold _ _ Hea)). by rewrite Hk.
  - exact (wf_linked _ _ Hwf').
  - constructor.
  - rewrite Hdh. destruct Hvis as [->|Hlv]; [by left|]. right.
    unfold liveAt in *. by rewrite (Hold _ _ Hea), Hea in *.
  - unfold fuel_of. simpl. lia.
Qed.

Lemma InsertAfter_FindPrevCreatedAt_witness :
  Inv three_elements [0; 1; 2; 3]%nat /\
  nodeMapByCreatedAt three_elements !! Key (ticketAt 1) = Some 1%nat /\
  exists s',
    InsertPrimitiveAfter (ticketAt 1) "n" (ticketAt 9) three_elements = Done tt s' /\
    FindPrevCreatedAt (ticketAt 9) s' = Done (ticketAt 1) s'.
Proof.
  assert (H0 : Inv three_elements [0; 1; 2; 3]%nat)
    by (apply invb_sound; vm_compute; reflexivity).
  assert (H1 : nodeMapByCreatedAt three_elements !! Key (ticketAt 1) = Some 1%nat)
    by (vm_compute; reflexivity).
  split; [exact H0|]. split; [exact H1|].
  apply (InsertAfter_FindPrevCreatedAt three_elements _ (ticketAt 1) 1%nat "n"
           (ticketAt 9) H0 H1).
  - right. vm_compute. reflexivity.
  - vm_compute. reflexivity.
  - vm_compute. reflexivity.
  - repeat constructor.
Defined.

(** ** Where the invariant is lost *)

Lemma remove_elem s l n :
  WF s l -> n ∈ l -> n <> dummyHead s ->
  exists l1 p0 l2,
    l = l1 ++ p0 :: n :: l2 /\
    splay.remove n l = l1 ++ p0 :: l2 /\
    (forall x, x ∈ l1 ++ p0 :: l2 <-> x ∈ l /\ x <> n).
Proof.
  intros Hwf Hin Hnh.
  destruct (WF_pred _ _ _ Hwf Hin Hnh) as (l1 & p0 & l2 & Hl).
  pose proof (wf_nodup _ _ Hwf) as Hnd. rewrite Hl in Hnd.
  assert (Hn1 : n ∉ l1 ++ [p0]).
  { apply NoDup_app in Hnd as (_ & Hd & Hnd).
    intros [H|H%list_elem_of_singleton]%elem_of_app.
    - eapply Hd; [done|]. right. by left.
    - subst. apply NoDup_cons in Hnd as (Hnd & _). apply Hnd. by left. }
  exists l1, p0, l2. split; [done|]. split.
  - rewrite Hl. replace (l1 ++ p0 :: n :: l2) with ((l1 ++ [p0]) ++ n :: l2)
      by (by rewrite <- app_assoc).
    rewrite remove_decomp by done. by rewrite <- app_assoc.
  - assert (Hn2 : n ∉ l2).
    { apply NoDup_app in Hnd as (_ & _ & Hnd). apply NoDup_cons in Hnd as (_ & Hnd).
      by apply NoDup_cons in Hnd as (Hnd & _). }
    intros x. rewrite Hl, !elem_of_app, !elem_of_cons. rewrite elem_of_app in Hn1.
    rewrite list_elem_of_singleton in Hn1. split; [|tauto].
    intros H. split; [tauto|]. intros ->. tauto.
Qed.

(** An accepted move, with what it keeps of the other nodes. *)
Lemma MoveAfter_accepted_frame s l prevCreatedAt target executedAt prevNode node e :
  WF s l ->
  nodeMapByCreatedAt s !! Key prevCreatedAt = Some prevNode ->
  nodeMapByCreatedAt s !! Key target = Some node ->
  elemOf s node = Some e ->
  match movedAt e with None => true | Some m => After executedAt m end = true ->
  node <> dummyHead s -> prevNode <> node ->
  exists s',
    MoveAfter prevCreatedAt target executedAt s = Done tt s' /\
    WF s' (placement_rule (afterAt s executedAt) prevNode (length (nodes s))
             (splay.remove node l)) /\
    size s' = int_wrap ((if liveAt s node then int_wrap (size s - 1) else size s) + 1) /\
    elemOf s' (length (nodes s)) = Some (SetMovedAt e executedAt) /\
    (forall x, x ∈ l -> liveAt s' x = liveAt s x).
Proof.
  intros Hwf Hmp Hmt He Hguard Hnh Hpn.
  destruct (MoveAfter_accepted s l prevCreatedAt target executedAt prevNode node e
              Hwf Hmp Hmt He Hguard Hnh Hpn)
    as (s' & Hrun & Hwf' & _ & Hnew & Hsz).
  exists s'. split; [done|]. split; [done|]. split; [done|]. split; [done|].
  (* the same run, followed for the elements *)
  destruct (wf_map _ _ Hwf _ _ Hmt) as (Hin & _).
  destruct (wf_map _ _ Hwf _ _ Hmp) as (Hpin & ep & Hep & Hkp).
  destruct (remove_elem _ _ _ Hwf Hin Hnh) as (l1 & p0 & l2 & Hl & Hrem & Hmem).
  rewrite Hl in Hwf.
  destruct (release_spec s l1 p0 node l2 e Hwf He)
    as (s1 & Hrel & Hwf1 & Hext1 & Hlen1 & Hsz1 & Hmap1).
  rewrite <- Hl in Hwf.
  pose proof He as Hnd0. apply elemOf_Some in Hnd0 as (nd & Hnode & Hel).
  pose proof Hext1 as (Hes1 & Hdh1 & Hk1).
  destruct (Hk1 _ _ Hnode) as (nd1 & Hnode1 & Hel1).
  assert (Hep1 : elemOf s1 prevNode = Some ep) by (by eapply extends_elemOf).
  destruct (wf_map _ _ Hwf _ _ Hmt) as (_ & e0 & He0 & Hkt).
  rewrite He in He0. injection He0 as <-.
  assert (Hkne : Key (createdAt ep) <> Key (createdAt e)).
  { rewrite Hkp, Hkt. intros E. rewrite E in Hmp. congruence. }
  assert (Hmp1 : nodeMapByCreatedAt s1 !! Key (createdAt ep) = Some prevNode).
  { rewrite Hmap1, lookup_delete_ne by done. by rewrite Hkp. }
  assert (Hv1 : elems s1 !! elem nd1 = Some e) by (by rewrite Hes1, Hel1).
  destruct (insertAfter_spec s1 _ (createdAt ep) prevNode (elem nd1) e executedAt
              Hwf1 Hmp1 Hv1)
    as (s2 & Hins & Hwf2 & Hext2 & _ & Hlen2 & Hsz2 & Hmap2).
  pose proof Hext2 as (Hes2 & Hdh2 & Hk2).
  destruct (Hk2 _ _ Hnode1) as (nd2 & Hnode2 & Hel2).
  assert (Hv2 : elems s2 !! elem nd2 = Some e) by (by rewrite Hes2, Hel2).
  assert (Hs' : s' = set_elems (fun es => <[elem nd2 := SetMovedAt e executedAt]> es) s2).
  { revert Hrun. unfold MoveAfter. unfold bind at 1. unfold lookupCreatedAt, gets.
    rewrite Hmp. unfold bind at 1. rewrite Hmt.
    unfold bind at 1. rewrite (Element_of_run _ _ _ He). rewrite Hguard.
    unfold bind at 1. rewrite Hrel.
    unfold bind at 1. rewrite (CreatedAt_run _ _ _ Hep1).
    unfold bind at 1. unfold load. rewrite Hnode1.
    unfold bind at 1. rewrite Hins.
    unfold bind at 1. rewrite Hnode2.
    unfold bind, loadElem. rewrite Hv2. unfold storeElem, modify. by intros [= <-]. }
  intros x Hx. destruct (wf_elems _ _ Hwf _ Hx) as [ex Hex].
  assert (Hex2 : elemOf s2 x = Some ex).
  { apply (extends_elemOf s1); [done|]. by apply (extends_elemOf s). }
  destruct (elemOf_storeElem s2 (elem nd2) e (SetMovedAt e executedAt) x ex
              Hv2 eq_refl eq_refl Hex2) as (x' & Hx' & _ & Hrx).
  rewrite Hs'. unfold liveAt. by rewrite Hx', Hex, Hrx.
Qed.

(** X18. An accepted [MoveAfter] of a tombstoned element (other than the
    sentinel, after another element) adds one to [Len] although the node
    that replaces the moved one is a tombstone too and every other node is
    live exactly when it was: [release] leaves the counter of a tombstone
    alone, [insertAfter] counts whatever it inserts.  From then on [Len] is
    more than the number of live nodes. *)
Theorem MoveAfter_tombstone_overcounts s l prevCreatedAt target executedAt
    prevNode node e :
  Inv s l ->
  nodeMapByCreatedAt s !! Key prevCreatedAt = Some prevNode ->
  nodeMapByCreatedAt s !! Key target = Some node ->
  elemOf s node = Some e ->
  match movedAt e with None => true | Some m => After executedAt m end = true ->
  removedAt e <> None -> node <> dummyHead s -> prevNode <> node ->
  size s + 1 < 2 ^ 63 ->
  let l' := placement_rule (afterAt s executedAt) prevNode (length (nodes s))
              (splay.remove node l) in
  exists s',
    MoveAfter prevCreatedAt target executedAt s = Done tt s' /\
    WF s' l' /\
    liveAt s' (length (nodes s)) = false /\
    length (liveNodes s' l') = length (liveNodes s l) /\
    Len s' = Done (size s + 1) s' /\
    ~ size_ok s' l'.
Proof.
  intros Hinv Hmp Hmt He Hguard Hdead Hnh Hpn Hrg l'.
  pose proof (inv_wf _ _ Hinv) as Hwf.
  destruct (MoveAfter_accepted_frame s l prevCreatedAt target executedAt prevNode
              node e Hwf Hmp Hmt He Hguard Hnh Hpn)
    as (s' & Hrun & Hwf' & Hsz & Hnew & Hfr).
  assert (Hld : liveAt s node = false).
  { unfold liveAt. rewrite He. by apply bool_decide_eq_false_2. }
  assert (Hnd : liveAt s' (length (nodes s)) = false).
  { unfold liveAt. rewrite Hnew. by apply bool_decide_eq_false_2. }
  rewrite Hld in Hsz.
  pose proof (Inv_size_nonneg _ _ Hinv) as H0.
  rewrite int_wrap_small in Hsz by lia.
  destruct (wf_map _ _ Hwf _ _ Hmt) as (Hin & _).
  destruct (wf_map _ _ Hwf _ _ Hmp) as (Hpin & _).
  destruct (remove_elem _ _ _ Hwf Hin Hnh) as (l1 & p0 & l2 & Hl & Hrem & Hmem).
  assert (Hcount : length (liveNodes s' l') = length (liveNodes s l)).
  { unfold l'. rewrite placement_rule_live.
    2:{ rewrite Hrem. apply Hmem. done. }
    rewrite Hnd, Nat.add_0_r, Hrem.
    rewrite (liveNodes_ext s s').
    2:{ intros x Hx. apply Hfr. by apply Hmem. }
    rewrite Hl. replace (l1 ++ p0 :: node :: l2) with ((l1 ++ [p0]) ++ node :: l2)
      by (by rewrite <- app_assoc).
    rewrite (liveNodes_length_middle s (l1 ++ [p0]) node l2), Hld, Nat.add_0_r.
    by rewrite <- app_assoc. }
  exists s'. split; [done|]. split; [done|]. split; [done|]. split; [done|].
  split; [unfold Len, gets; by rewrite Hsz|].
  unfold size_ok. rewrite Hcount, Hsz, (inv_size _ _ Hinv). lia.
Qed.

Lemma MoveAfter_tombstone_overcounts_witness :
  Inv one_tombstone [0; 1]%nat /\
  nodeMapByCreatedAt one_tombstone !! Key InitialTicket = Some 0%nat /\
  nodeMapByCreatedAt one_tombstone !! Key (ticketAt 1) = Some 1%nat /\
  exists s',
    MoveAfter InitialTicket (ticketAt 1) (ticketAt 3) one_tombstone = Done tt s' /\
    Len s' = Done (size one_tombstone + 1) s'.
Proof.
  assert (H0 : Inv one_tombstone [0; 1]%nat)
    by (apply invb_sound; vm_compute; reflexivity).
  assert (H1 : nodeMapByCreatedAt one_tombstone !! Key InitialTicket = Some 0%nat)
    by (vm_compute; reflexivity).
  assert (H2 : nodeMapByCreatedAt one_tombstone !! Key (ticketAt 1) = Some 1%nat)
    by (vm_compute; reflexivity).
  split; [exact H0|]. split; [exact H1|]. split; [exact H2|].
  destruct (MoveAfter_tombstone_overcounts one_tombstone _ InitialTicket
              (ticketAt 1) (ticketAt 3) 0%nat 1%nat
              (SetRemovedAt (NewPrimitive "x" (ticketAt 1)) (ticketAt 2)) H0 H1 H2)
    as (s' & Hrun & _ & _ & _ & Hlen & _).
  - vm_compute. reflexivity.
  - reflexivity.
  - discriminate.
  - discriminate.
  - discriminate.
  - vm_compute. reflexivity.
  - exists s'. split; [exact Hrun|exact Hlen].
Defined.

(** X19. [MoveAfter] of an element after itself, when the guard accepts and
    the element is not the sentinel, loses the element: both look-ups
    succeed, [release] unlinks the node and deletes its ticket from the
    identity map, and the [insertAfter] that follows fails on that ticket.
    The failure leaves a well-formed list without the node. *)
Theorem MoveAfter_self_unlinks s l c t node e :
  WF s l ->
  nodeMapByCreatedAt s !! Key c = Some node ->
  elemOf s node = Some e ->
  match movedAt e with None => true | Some m => After t m end = true ->
  node <> dummyHead s ->
  exists s1,
    MoveAfter c c t s = Panic (UnknownCreatedAt (Key c)) s1 /\
    WF s1 (splay.remove node l) /\
    (node ∉ splay.remove node l) /\
    nodeMapByCreatedAt s1 !! Key c = None /\
    size s1 = (if liveAt s node then int_wrap (size s - 1) else size s).
Proof.
  intros Hwf Hc He Hguard Hnh.
  destruct (wf_map _ _ Hwf _ _ Hc) as (Hin & e0 & He0 & Hk).
  rewrite He in He0. injection He0 as <-.
  destruct (remove_elem _ _ _ Hwf Hin Hnh) as (l1 & p0 & l2 & Hl & Hrem & Hmem).
  pose proof Hwf as Hwf0. rewrite Hl in Hwf0.
  destruct (release_spec s l1 p0 node l2 e Hwf0 He)
    as (s1 & Hrel & Hwf1 & Hext1 & Hlen1 & Hsz1 & Hmap1).
  pose proof He as Hnd0. apply elemOf_Some in Hnd0 as (nd & Hnode & Hel).
  pose proof Hext1 as (Hes1 & Hdh1 & Hk1).
  destruct (Hk1 _ _ Hnode) as (nd1 & Hnode1 & Hel1).
  assert (He1 : elemOf s1 node = Some e) by (by eapply extends_elemOf).
  assert (Hgone : nodeMapByCreatedAt s1 !! Key (createdAt e) = None)
    by (by rewrite Hmap1, lookup_delete_eq).
  exists s1. rewrite Hrem. split.
  { unfold MoveAfter. unfold bind at 1. unfold lookupCreatedAt, gets.
    rewrite Hc. unfold bind at 1. rewrite Hc.
    unfold bind at 1. rewrite (Element_of_run _ _ _ He). rewrite Hguard.
    unfold bind at 1. rewrite Hrel.
    unfold bind at 1. rewrite (CreatedAt_run _ _ _ He1).
    unfold bind at 1. unfold load. rewrite Hnode1.
    unfold bind at 1. unfold insertAfter. unfold bind at 1.
    unfold findNextBeforeExecutedAt, bind, lookupCreatedAt, gets.
    rewrite Hgone. by rewrite Hk. }
  split; [done|]. split; [intros H; apply Hmem in H; tauto|].
  split; [by rewrite <- Hk|done].
Qed.

Lemma MoveAfter_self_unlinks_witness :
  WF three_elements [0; 1; 2; 3]%nat /\
  nodeMapByCreatedAt three_elements !! Key (ticketAt 2) = Some 2%nat /\
  exists s1,
    MoveAfter (ticketAt 2) (ticketAt 2) (ticketAt 9) three_elements
      = Panic (UnknownCreatedAt (Key (ticketAt 2))) s1 /\
    WF s1 [0; 1; 3]%nat.
Proof.
  assert (H0 : WF three_elements [0; 1; 2; 3]%nat)
    by (apply wfb_sound; vm_compute; reflexivity).
  assert (H1 : nodeMapByCreatedAt three_elements !! Key (ticketAt 2) = Some 2%nat)
    by (vm_compute; reflexivity).
  split; [exact H0|]. split; [exact H1|].
  destruct (MoveAfter_self_unlinks three_elements _ (ticketAt 2) (ticketAt 9) 2%nat
              (NewPrimitive "1" (ticketAt 2)) H0 H1)
    as (s1 & Hrun & Hwf1 & _).
  - vm_compute. reflexivity.
  - reflexivity.
  - discriminate.
  - exists s1. split; [exact Hrun|exact Hwf1].
Defined.

(** The loop of [Get] runs off the end when no live node follows. *)
Lemma Get_loop_off_end s first pv l1 m dead fuel :
  linked (nodes s) first pv (l1 ++ m :: dead) None ->
  Forall (fun x => liveAt s x = false /\ is_Some (elemOf s x)) dead ->
  (length dead < fuel)%nat ->
  Get_loop fuel m s = Panic NilDereference s.
Proof.
  revert l1 m fuel. induction dead as [|d dead IH]; intros l1 m fuel Hl Hd Hf.
  - destruct fuel as [|fuel]; [simpl in Hf; lia|].
    apply linked_middle in Hl as (nd & Hnd & _ & Hnx & _). simpl in Hnx.
    simpl. mlow. rewrite Hnd. mlow. by rewrite Hnx.
  - destruct fuel as [|fuel]; [simpl in Hf; lia|].
    pose proof Hl as Hl'.
    apply linked_middle in Hl as (nd & Hnd & _ & Hnx & _). simpl in Hnx.
    apply Forall_cons in Hd as ((Hdd & [e He]) & Hd).
    simpl. mlow. rewrite Hnd. mlow. rewrite Hnx.
    rewrite (isRemoved_run _ _ _ He), Hdd. simpl.
    apply (IH (l1 ++ [m])); [by rewrite <- app_assoc|done|simpl in Hf; lia].
Qed.

(** X20. On a well-formed list [Get] at the rank that equals the number of
    live nodes (the first rank out of range) does not report a bound: it
    steps from the node the index answers with towards the next live node,
    there is none, and it calls [isRemoved] on the nil [next] of the last
    node.  On a list without live nodes this is [Get 0]. *)
Theorem Get_past_live_nil_dereference s l :
  WF s l ->
  Get (Z.of_nat (length (liveNodes s l))) s = Panic NilDereference s.
Proof.
  intros Hwf. pose proof (WF_fuel _ _ Hwf) as Hfu.
  assert (Hdeadall : forall post pre m, l = pre ++ m :: post ->
            liveNodes s post = [] ->
            Get_loop (fuel_of s) m s = Panic NilDereference s).
  { intros post pre m Hl Hnone.
    apply (Get_loop_off_end s (Some (dummyHead s)) None pre m post).
    - rewrite <- Hl. apply (wf_linked _ _ Hwf).
    - apply Forall_forall. intros x Hx. split.
      + destruct (liveAt s x) eqn:E; [|done]. exfalso.
        assert (Hin : x ∈ liveNodes s post) by (by apply list_elem_of_filter).
        rewrite Hnone in Hin. by apply elem_of_nil in Hin.
      + apply (wf_elems _ _ Hwf). rewrite Hl, elem_of_app, elem_of_cons. tauto.
    - unfold fuel_of. rewrite Hl, length_app in Hfu. simpl in Hfu. lia. }
  unfold Get. mrun. unfold splay.Find. rewrite (wf_index _ _ Hwf).
  destruct (length (liveNodes s l)) as [|k] eqn:Hk.
  - destruct (WF_nonempty _ _ Hwf) as (r & Hr). rewrite Hr. simpl.
    rewrite (proj2 (Z.leb_le _ _)) by apply weight_range.
    rewrite decide_True by done.
    apply (Hdeadall r []); [done|].
    apply length_zero_iff_nil in Hk.
    by rewrite Hr, liveNodes_cons, (wf_head _ _ Hwf) in Hk.
  - destruct (find_from_live s l (Z.of_nat (S k))) as (pre & m & post & Hl & Hm & Hlen & Hf);
      [lia|].
    rewrite Hf. rewrite decide_False by lia. simpl.
    apply (Hdeadall post pre); [done|].
    rewrite Hl in Hk.
    replace (pre ++ m :: post) with ((pre ++ [m]) ++ post) in Hk
      by (by rewrite <- app_assoc).
    rewrite liveNodes_app, length_app in Hk.
    apply length_zero_iff_nil. lia.
Qed.

Lemma Get_past_live_nil_dereference_witness :
  WF tombstoned_tail [0; 1; 2]%nat /\
  Get 1 tombstoned_tail = Panic NilDereference tombstoned_tail.
Proof.
  assert (H0 : WF tombstoned_tail [0; 1; 2]%nat)
    by (apply wfb_sound; vm_compute; reflexivity).
  split; [exact H0|].
  exact (Get_past_live_nil_dereference tombstoned_tail _ H0).
Defined.

(** ** Linking a node *)

(** X21. [newRGATreeListNodeAfter] allocates a node for the element and
    links it between [prev] and the node that followed [prev]: a doubly
    linked segment through [prev] stays doubly linked with the new node
    directly after [prev].  It returns the new node and touches nothing but
    the links: the tail reference, the counter, the index and the identity
    map are left to the caller. *)
Theorem newRGATreeListNodeAfter_links s first pv l1 a l2 e :
  linked (nodes s) first pv (l1 ++ a :: l2) None ->
  NoDup (l1 ++ a :: l2) ->
  exists s',
    newRGATreeListNodeAfter a e s = Done (length (nodes s)) s' /\
    linked (nodes s') first pv (l1 ++ a :: length (nodes s) :: l2) None /\
    nodes s' !! length (nodes s)
      = Some (mkNode e (Some a) (head_or None l2)) /\
    length (nodes s') = S (length (nodes s)) /\
    elems s' = elems s /\ last s' = last s /\ size s' = size s /\
    nodeMapByIndex s' = nodeMapByIndex s /\
    nodeMapByCreatedAt s' = nodeMapByCreatedAt s.
Proof.
  intros Hl Hnd. pose proof Hl as Hmid.
  apply linked_middle in Hmid as (nda & Ha & _ & Hnx & _).
  destruct (newRGATreeListNodeAfter_run s a e nda Ha) as
      (ns' & Hnew & Hlen & Ha' & Hnew' & Hpn' & Hsame).
  { intros pn Hpn. rewrite Hnx in Hpn. destruct l2 as [|m l2']; [done|].
    injection Hpn as ->. split.
    - intros ->. apply NoDup_app in Hnd as (_ & _ & Hn2).
      apply NoDup_cons in Hn2 as (Hn2 & _). apply Hn2. by left.
    - eapply linked_In; [exact Hl|]. rewrite elem_of_app. right. right. by left. }
  eexists. split; [exact Hnew|]. simpl.
  split; [eapply linked_insert; eauto|].
  split; [by rewrite Hnew', Hnx|]. done.
Qed.

Lemma newRGATreeListNodeAfter_links_witness :
  linked (nodes three_elements) (Some 0%nat) None ([0%nat] ++ 1%nat :: [2; 3]%nat) None /\
  exists s',
    newRGATreeListNodeAfter 1%nat 0%nat three_elements = Done 4%nat s' /\
    linked (nodes s') (Some 0%nat) None ([0%nat] ++ 1%nat :: 4%nat :: [2; 3]%nat) None.
Proof.
  assert (H0 : linked (nodes three_elements) (Some 0%nat) None
                 ([0%nat] ++ 1%nat :: [2; 3]%nat) None)
    by (apply linkedb_sound; vm_compute; reflexivity).
  split; [exact H0|].
  destruct (newRGATreeListNodeAfter_links three_elements _ _ _ _ _ 0%nat H0)
    as (s' & Hrun & Hl & _).
  - apply (bool_decide_eq_true_1 (NoDup _)). vm_compute. reflexivity.
  - exists s'. split; [exact Hrun|exact Hl].
Defined.

(** ** Insertion and removal commute *)

Lemma DeleteByCreatedAt_elems s c d n nd e s' :
  nodeMapByCreatedAt s !! Key c = Some n ->
  nodes s !! n = Some nd -> elems s !! elem nd = Some e ->
  DeleteByCreatedAt c d s = Done n s' ->
  elems s' = <[elem nd := fst (Remove e d)]> (elems s) /\ nodes s' = nodes s.
Proof.
  intros Hc Hn He Hrun.
  rewrite (DeleteByCreatedAt_run s c d n nd e Hc Hn He) in Hrun.
  injection Hrun as <-. cbv zeta.
  by destruct (bool_decide (removedAt e = None)).
Qed.

Lemma positionedAt_Remove e d : positionedAt (fst (Remove e d)) = positionedAt e.
Proof.
  destruct (Remove_tombstones e d) as (Hc & _ & Hm & _).
  unfold positionedAt. by rewrite Hm, Hc.
Qed.

(** X22. [InsertAfter] of a live element under a new ticket and
    [DeleteByCreatedAt] of an element of the list commute: applied in either
    order to a list that satisfies the invariant, they give lists with the
    same nodes in the same order, the same element behind every node, the
    same identity map and the same [Len], and the invariant holds for
    both. *)
Theorem InsertAfter_DeleteByCreatedAt_commute s l p a v ev c d n :
  Inv s l ->
  nodeMapByCreatedAt s !! Key p = Some a ->
  elems s !! v = Some ev ->
  removedAt ev = None ->
  nodeMapByCreatedAt s !! Key (createdAt ev) = None ->
  size s + 1 < 2 ^ 63 ->
  nodeMapByCreatedAt s !! Key c = Some n ->
  exists sA sB l',
    (let* _ := InsertAfter p v in DeleteByCreatedAt c d) s = Done n sA /\
    (let* r := DeleteByCreatedAt c d in
     let* _ := InsertAfter p v in ret r) s = Done n sB /\
    Inv sA l' /\ Inv sB l' /\
    (forall x, x ∈ l' -> elemOf sA x = elemOf sB x) /\
    size sA = size sB /\
    nodeMapByCreatedAt sA = nodeMapByCreatedAt sB.
Proof.
  intros Hinv Hp Hv Hlive Hfresh Hrg Hc. pose proof (inv_wf _ _ Hinv) as Hwf.
  destruct (wf_map _ _ Hwf _ _ Hc) as (Hn & e & He & Hk).
  pose proof He as He0. apply elemOf_Some in He0 as (nd & Hnd & Hel).
  assert (Hkne : Key (createdAt ev) <> Key c).
  { intros E. rewrite E in Hfresh. congruence. }
  assert (Hvne : elem nd <> v).
  { intros E. rewrite E, Hv in Hel. injection Hel as <-. by rewrite Hk in Hkne. }
  (* insertion first *)
  destruct (insertAfter_inv s l p a v ev (createdAt ev) Hinv Hp Hv Hlive Hfresh Hrg)
    as (s1 & Hins & Hinv1 & Hext1 & _ & Hnew1 & Hlen1 & Hsz1 & Hmap1).
  assert (Hc1 : nodeMapByCreatedAt s1 !! Key c = Some n).
  { by rewrite Hmap1, lookup_insert_ne. }
  destruct (DeleteByCreatedAt_inv s1 _ c d n Hinv1 Hc1)
    as (sA & Hdel & HinvA & _ & _ & HmapA & _ & HothA & HszA).
  assert (He1 : elemOf s1 n = Some e) by (by apply (extends_elemOf s)).
  pose proof He1 as He1'. apply elemOf_Some in He1' as (nd1 & Hnd1 & Hel1).
  destruct (DeleteByCreatedAt_elems s1 c d n nd1 e sA Hc1 Hnd1 Hel1 Hdel)
    as (HelA & HnoA).
  assert (HenA : elemOf sA n = Some (fst (Remove e d))).
  { unfold elemOf. rewrite HnoA, Hnd1, HelA.
    apply list_lookup_insert_eq. by eapply lookup_lt_Some. }
  (* removal first *)
  destruct (DeleteByCreatedAt_inv s l c d n Hinv Hc)
    as (s2 & Hdel2 & Hinv2 & _ & _ & Hmap2 & _ & Hoth2 & Hsz2).
  destruct (DeleteByCreatedAt_elems s c d n nd e s2 Hc Hnd Hel Hdel2)
    as (Hel2 & Hno2).
  assert (Hen2 : elemOf s2 n = Some (fst (Remove e d))).
  { unfold elemOf. rewrite Hno2, Hnd, Hel2.
    apply list_lookup_insert_eq. by eapply lookup_lt_Some. }
  assert (Hv2 : elems s2 !! v = Some ev).
  { rewrite Hel2, list_lookup_insert_ne by done. done. }
  pose proof (Inv_size_nonneg _ _ Hinv) as H0.
  destruct (insertAfter_inv s2 l p a v ev (createdAt ev) Hinv2)
    as (sB & Hins2 & HinvB & HextB & _ & HnewB & _ & HszB & HmapB).
  { by rewrite Hmap2. }
  { done. }
  { done. }
  { by rewrite Hmap2. }
  { rewrite Hsz2. destruct (liveAt s n); lia. }
  assert (Hafter : forall x, x ∈ l ->
            afterAt s2 (createdAt ev) x = afterAt s (createdAt ev) x).
  { intros x Hx. unfold afterAt. destruct (decide (x = n)) as [->|Hxn].
    - by rewrite Hen2, He, positionedAt_Remove.
    - by rewrite Hoth2. }
  rewrite (placement_rule_ext _ _ _ _ _ Hafter) in HinvB.
  rewrite Hno2 in HinvB, HnewB, HmapB.
  exists sA, sB, (placement_rule (afterAt s (createdAt ev)) a (length (nodes s)) l).
  split.
  { unfold bind at 1. unfold InsertAfter, bind at 1. unfold loadElem. rewrite Hv.
    by rewrite Hins. }
  split.
  { unfold bind at 1. rewrite Hdel2. unfold bind at 1.
    unfold InsertAfter, bind at 1. unfold loadElem. rewrite Hv2.
    by rewrite Hins2. }
  split; [done|]. split; [done|].
  split.
  { intros x Hx. apply placement_rule_elem in Hx; [|by apply (wf_map _ _ Hwf _ _ Hp)].
    destruct Hx as [->|Hx].
    - rewrite HnewB. rewrite HothA; [done| |].
      + apply placement_rule_elem; [by apply (wf_map _ _ Hwf _ _ Hp)|by left].
      + intros E. pose proof (WF_lt _ _ _ Hwf Hn). lia.
    - destruct (wf_elems _ _ Hwf _ Hx) as [ex Hex].
      destruct (decide (x = n)) as [->|Hxn].
      + rewrite HenA. symmetry. by apply (extends_elemOf s2).
      + rewrite HothA; [| |done].
        * rewrite (extends_elemOf s s1 x ex Hext1 Hex). symmetry.
          apply (extends_elemOf s2); [done|]. by rewrite Hoth2.
        * apply placement_rule_elem; [by apply (wf_map _ _ Hwf _ _ Hp)|by right]. }
  split.
  { rewrite HszA, HszB, Hsz1, Hsz2.
    rewrite (extends_liveAt s s1 n Hext1) by (by exists e).
    destruct (liveAt s n); lia. }
  by rewrite HmapA, Hmap1, HmapB, Hmap2.
Qed.

Lemma InsertAfter_DeleteByCreatedAt_commute_witness :
  Inv two_pending [0; 1]%nat /\
  nodeMapByCreatedAt two_pending !! Key (ticketAt 1) = Some 1%nat /\
  elems two_pending !! 2%nat = Some (NewPrimitive "a" (mkTicket 5 1 0)) /\
  exists sA sB,
    (let* _ := InsertAfter (ticketAt 1) 2%nat in
     DeleteByCreatedAt (ticketAt 1) (ticketAt 6)) two_pending = Done 1%nat sA /\
    (let* r := DeleteByCreatedAt (ticketAt 1) (ticketAt 6) in
     let* _ := InsertAfter (ticketAt 1) 2%nat in ret r) two_pending = Done 1%nat sB /\
    size sA = size sB.
Proof.
  assert (H0 : Inv two_pending [0; 1]%nat)
    by (apply invb_sound; vm_compute; reflexivity).
  assert (H1 : nodeMapByCreatedAt two_pending !! Key (ticketAt 1) = Some 1%nat)
    by (vm_compute; reflexivity).
  assert (H2 : elems two_pending !! 2%nat = Some (NewPrimitive "a" (mkTicket 5 1 0)))
    by (vm_compute; reflexivity).
  split; [exact H0|]. split; [exact H1|]. split; [exact H2|].
  destruct (InsertAfter_DeleteByCreatedAt_commute two_pending _ (ticketAt 1) 1%nat
              2%nat _ (ticketAt 1) (ticketAt 6) 1%nat H0 H1 H2)
    as (sA & sB & l' & HA & HB & _ & _ & _ & Hsz & _).
  - reflexivity.
  - vm_compute. reflexivity.
  - vm_compute. reflexivity.
  - exact H1.
  - exists sA, sB. split; [exact HA|]. split; [exact HB|exact Hsz].
Defined.

(** ** Concurrent moves of one element *)

(** A move of a live element, with everything it changes. *)
Lemma MoveAfter_full s l prevCreatedAt target executedAt prevNode node e :
  Inv s l ->
  nodeMapByCreatedAt s !! Key prevCreatedAt = Some prevNode ->
  nodeMapByCreatedAt s !! Key target = Some node ->
  elemOf s node = Some e ->
  match movedAt e with None => true | Some m => After executedAt m end = true ->
  removedAt e = None -> prevNode <> node ->
  exists s' nd,
    MoveAfter prevCreatedAt target executedAt s = Done tt s' /\
    Inv s' (placement_rule (afterAt s executedAt) prevNode (length (nodes s))
              (splay.remove node l)) /\
    size s' = size s /\
    nodes s !! node = Some nd /\
    elems s' = <[elem nd := SetMovedAt e executedAt]> (elems s) /\
    wraps s' (length (nodes s)) (elem nd) /\
    (forall x ndx, nodes s !! x = Some ndx ->
       exists ndx', nodes s' !! x = Some ndx' /\ elem ndx' = elem ndx) /\
    nodeMapByCreatedAt s' =
      <[Key target := length (nodes s)]> (nodeMapByCreatedAt s) /\
    length (nodes s') = S (length (nodes s)).
Proof.
  intros Hinv Hmp Hmt He Hguard Hlive Hpn. pose proof (inv_wf _ _ Hinv) as Hwf.
  destruct (wf_map _ _ Hwf _ _ Hmt) as (Hin & e0 & He0 & Hkt).
  rewrite He in He0. injection He0 as <-.
  destruct (wf_map _ _ Hwf _ _ Hmp) as (Hpin & ep & Hep & Hkp).
  assert (Hlv : liveAt s node = true).
  { unfold liveAt. rewrite He. by apply bool_decide_eq_true_2. }
  pose proof (Inv_live_not_head _ _ _ Hinv Hlv) as Hnh.
  destruct (release_inv s l node e Hinv Hin Hnh He)
    as (s1 & Hrel & Hinv1 & Hext1 & Hlen1 & Hsz1 & Hmap1 & Hnot1 & Hmem1).
  rewrite Hlv in Hsz1.
  pose proof He as Hnd0. apply elemOf_Some in Hnd0 as (nd & Hnode & Hel).
  pose proof Hext1 as (Hes1 & Hdh1 & Hk1).
  destruct (Hk1 _ _ Hnode) as (nd1 & Hnode1 & Hel1).
  assert (Hep1 : elemOf s1 prevNode = Some ep) by (by eapply extends_elemOf).
  assert (Hkne : Key (createdAt ep) <> Key (createdAt e)).
  { rewrite Hkp, Hkt. intros E. rewrite E in Hmp. congruence. }
  assert (Hmp1 : nodeMapByCreatedAt s1 !! Key (createdAt ep) = Some prevNode).
  { rewrite Hmap1, lookup_delete_ne by done. by rewrite Hkp. }
  assert (Hv1 : elems s1 !! elem nd1 = Some e) by (by rewrite Hes1, Hel1).
  assert (Hfresh1 : nodeMapByCreatedAt s1 !! Key (createdAt e) = None).
  { by rewrite Hmap1, lookup_delete_eq. }
  pose proof (inv_range _ _ Hinv) as Hrg.
  destruct (insertAfter_inv s1 _ (createdAt ep) prevNode (elem nd1) e executedAt
              Hinv1 Hmp1 Hv1 Hlive Hfresh1)
    as (s2 & Hins & Hinv2 & Hext2 & (pq & nq & Hnew) & _ & Hlen2 & Hsz2 & Hmap2);
    [lia|].
  pose proof Hext2 as (Hes2 & Hdh2 & Hk2).
  destruct (Hk2 _ _ Hnode1) as (nd2 & Hnode2 & Hel2).
  assert (Hv2 : elems s2 !! elem nd2 = Some e) by (by rewrite Hes2, Hel2).
  pose proof (lookup_lt_Some _ _ _ Hv2) as Hlt2.
  exists (set_elems (fun es => <[elem nd2 := SetMovedAt e executedAt]> es) s2), nd.
  split.
  { unfold MoveAfter. unfold bind at 1. unfold lookupCreatedAt, gets. rewrite Hmp.
    unfold bind at 1. rewrite Hmt.
    unfold bind at 1. rewrite (Element_of_run _ _ _ He). rewrite Hguard.
    unfold bind at 1. rewrite Hrel.
    unfold bind at 1. rewrite (CreatedAt_run _ _ _ Hep1).
    unfold bind at 1. unfold load. rewrite Hnode1.
    unfold bind at 1. rewrite Hins.
    unfold bind at 1. rewrite Hnode2.
    unfold bind, loadElem. rewrite Hv2. reflexivity. }
  split.
  { apply (Inv_storeElem _ _ _ e); [|done|reflexivity|reflexivity].
    rewrite Hlen1 in Hinv2.
    erewrite placement_rule_ext; [exact Hinv2|].
    intros n Hn. symmetry. apply extends_afterAt; [done|].
    apply (wf_elems _ _ Hwf). by apply Hmem1. }
  split; [simpl; lia|]. split; [done|].
  split; [simpl; by rewrite Hel2, Hel1, Hes2, Hes1|].
  split.
  { exists pq, nq. simpl. rewrite <- Hlen1. by rewrite Hnew, Hel1. }
  split.
  { intros x ndx Hx. simpl. destruct (Hk1 _ _ Hx) as (ndx1 & Hx1 & E1).
    destruct (Hk2 _ _ Hx1) as (ndx2 & Hx2 & E2). exists ndx2.
    split; [done|congruence]. }
  split; [simpl; by rewrite Hmap2, Hmap1, Hlen1, <- Hkt, insert_delete_eq|].
  simpl. lia.
Qed.

Lemma remove_placement after a new l :
  new ∉ l -> a ∈ l -> splay.remove new (placement_rule after a new l) = l.
Proof.
  induction l as [|x l IH]; intros Hn Ha; [by apply elem_of_nil in Ha|].
  apply not_elem_of_cons in Hn as (Hnx & Hn).
  simpl. destruct (decide (x = a)) as [->|Hxa].
  - simpl. rewrite decide_False by done. f_equal.
    rewrite remove_decomp.
    + apply scan_app.
    + intros H. apply Hn. rewrite <- (scan_app after l), elem_of_app. by left.
  - apply elem_of_cons in Ha as [->|Ha]; [done|].
    simpl. rewrite decide_False by done. f_equal. by apply IH.
Qed.

Lemma fmap_placement {B} (g1 g2 : NodeRef -> B) after a new1 new2 l :
  (forall x, x ∈ l -> g1 x = g2 x) -> g1 new1 = g2 new2 ->
  g1 <$> placement_rule after a new1 l = g2 <$> placement_rule after a new2 l.
Proof.
  intros Hl Hn. induction l as [|x l IH]; [done|].
  assert (Hsub : forall l0, l0 ⊆ l -> g1 <$> l0 = g2 <$> l0).
  { intros l0 Hsub. apply list_fmap_ext. intros i y Hy. apply Hl. right.
    apply Hsub. by eapply list_elem_of_lookup_2. }
  simpl. destruct (decide (x = a)) as [->|Hxa].
  - rewrite !fmap_cons, !fmap_app, !fmap_cons, Hn, (Hl a) by (by left).
    rewrite !Hsub; [done| |].
    + intros y Hy. rewrite <- (scan_app after l), elem_of_app. by right.
    + intros y Hy. rewrite <- (scan_app after l), elem_of_app. by left.
  - rewrite !fmap_cons, (Hl x) by (by left). f_equal. apply IH.
    intros y Hy. apply Hl. by right.
Qed.

(** X23. Two moves of one live element with different tickets converge:
    applied in either order (the move with the later ticket last, or first
    and then the earlier one, which is rejected), they leave the same
    element objects, the same elements behind the nodes of the list in the
    same order, and the same [Len]; the element stands where the move with
    the later ticket puts it.  The invariant holds for both results. *)
Theorem MoveAfter_concurrent_converge s l p1 p2 c t1 t2 a1 a2 node e :
  Inv s l ->
  nodeMapByCreatedAt s !! Key p1 = Some a1 ->
  nodeMapByCreatedAt s !! Key p2 = Some a2 ->
  nodeMapByCreatedAt s !! Key c = Some node ->
  elemOf s node = Some e -> removedAt e = None ->
  match movedAt e with None => true | Some m => After t1 m end = true ->
  After t2 t1 = true ->
  a1 <> node -> a2 <> node ->
  let lA := placement_rule (afterAt s t2) a2 (S (length (nodes s)))
              (splay.remove node l) in
  let lB := placement_rule (afterAt s t2) a2 (length (nodes s))
              (splay.remove node l) in
  exists sA sB,
    (let* _ := MoveAfter p1 c t1 in MoveAfter p2 c t2) s = Done tt sA /\
    (let* _ := MoveAfter p2 c t2 in MoveAfter p1 c t1) s = Done tt sB /\
    Inv sA lA /\ Inv sB lB /\
    elems sA = elems sB /\
    elemRefs sA lA = elemRefs sB lB /\
    size sA = size sB.
Proof.
  intros Hinv Hp1 Hp2 Hc He Hlive Hg1 H21 Ha1 Ha2 lA lB. subst lA lB.
  pose proof (inv_wf _ _ Hinv) as Hwf.
  destruct (wf_map _ _ Hwf _ _ Hc) as (Hin & e0 & He0 & Hkc).
  rewrite He in He0. injection He0 as <-.
  destruct (wf_map _ _ Hwf _ _ Hp1) as (Hin1 & _).
  destruct (wf_map _ _ Hwf _ _ Hp2) as (Hin2 & ep2 & Hep2 & Hkp2).
  assert (Hlv : liveAt s node = true).
  { unfold liveAt. rewrite He. by apply bool_decide_eq_true_2. }
  pose proof (Inv_live_not_head _ _ _ Hinv Hlv) as Hnh.
  destruct (remove_elem _ _ _ Hwf Hin Hnh) as (l1 & p0 & l2 & Hl & Hrem & Hmem).
  set (L := splay.remove node l) in *.
  set (N := length (nodes s)) in *.
  assert (HLlt : forall x, x ∈ L -> x ∈ l /\ x <> node /\ (x < N)%nat).
  { intros x Hx. rewrite Hrem in Hx. apply Hmem in Hx as (Hx & Hxn).
    split; [done|]. split; [done|]. by apply (WF_lt _ _ _ Hwf). }
  assert (HNL : N ∉ L) by (intros H; apply HLlt in H; lia).
  assert (Ha1L : a1 ∈ L) by (rewrite Hrem; by apply Hmem).
  assert (Ha2L : a2 ∈ L) by (rewrite Hrem; by apply Hmem).
  assert (Hg2 : match movedAt e with None => true | Some m => After t2 m end = true).
  { destruct (movedAt e) as [m|]; [|done]. by apply (After_trans _ t1). }
  assert (Hk2c : Key p2 <> Key c).
  { intros E. rewrite E, Hc in Hp2. by injection Hp2 as <-. }
  (* the earlier move first *)
  destruct (MoveAfter_full s l p1 c t1 a1 node e Hinv Hp1 Hc He Hg1 Hlive Ha1)
    as (sA1 & nd & HrunA1 & HinvA1 & HszA1 & Hnd & HelA1 & (pq & nq & HwA1)
        & HfrA1 & HmapA1 & HlenA1).
  fold L N in HinvA1. fold N in HwA1, HmapA1, HlenA1.
  pose proof He as Hnd0. apply elemOf_Some in Hnd0 as (nd' & Hnd' & Hel).
  rewrite Hnd in Hnd'. injection Hnd' as <-.
  pose proof (lookup_lt_Some _ _ _ Hel) as Hlt.
  assert (HeN : elemOf sA1 N = Some (SetMovedAt e t1)).
  { unfold elemOf. rewrite HwA1, HelA1. simpl. by apply list_lookup_insert_eq. }
  assert (Hp2A : nodeMapByCreatedAt sA1 !! Key p2 = Some a2).
  { by rewrite HmapA1, lookup_insert_ne. }
  assert (HcA : nodeMapByCreatedAt sA1 !! Key c = Some N).
  { by rewrite HmapA1, lookup_insert_eq. }
  assert (Ha2N : a2 <> N) by (apply HLlt in Ha2L; lia).
  destruct (MoveAfter_full sA1 _ p2 c t2 a2 N (SetMovedAt e t1) HinvA1 Hp2A HcA HeN)
    as (sA & ndN & HrunA & HinvA & HszA & HndN & HelA & (pq2 & nq2 & HwA)
        & HfrA & HmapA & HlenA); [done|done|done|].
  rewrite HwA1 in HndN. injection HndN as <-. simpl in HelA, HwA.
  rewrite remove_placement in HinvA by done.
  (* the later move first *)
  destruct (MoveAfter_full s l p2 c t2 a2 node e Hinv Hp2 Hc He Hg2 Hlive Ha2)
    as (sB & ndB & HrunB & HinvB & HszB & HndB & HelB & (pq3 & nq3 & HwB)
        & HfrB & HmapB & HlenB).
  rewrite Hnd in HndB. injection HndB as <-.
  fold L N in HinvB. fold N in HwB, HmapB, HlenB.
  assert (HeNB : elemOf sB N = Some (SetMovedAt e t2)).
  { unfold elemOf. rewrite HwB, HelB. simpl. by apply list_lookup_insert_eq. }
  assert (HrejB : MoveAfter p1 c t1 sB = Done tt sB).
  { unfold MoveAfter. unfold bind at 1. unfold lookupCreatedAt, gets.
    assert (Hp1B : nodeMapByCreatedAt sB !! Key p1 = Some a1).
    { rewrite HmapB, lookup_insert_ne; [done|].
      intros E. rewrite E, Hp1 in Hc. by injection Hc as ->. }
    rewrite Hp1B. unfold bind at 1. rewrite HmapB, lookup_insert_eq.
    unfold bind. rewrite (Element_of_run _ _ _ HeNB). simpl.
    by rewrite (After_asym _ _ H21). }
  (* the other nodes keep their elements *)
  assert (Hoth : forall x, x ∈ L ->
            afterAt sA1 t2 x = afterAt s t2 x).
  { intros x Hx. apply HLlt in Hx as (Hxl & Hxn & _).
    destruct (wf_elems _ _ Hwf _ Hxl) as [ex Hex].
    pose proof Hex as Hex0. apply elemOf_Some in Hex0 as (ndx & Hndx & Helx).
    destruct (HfrA1 _ _ Hndx) as (ndx' & Hndx' & E).
    unfold afterAt, elemOf. rewrite Hndx', Hndx, E, HelA1.
    rewrite list_lookup_insert_ne; [done|]. intros E'.
    apply Hxn. rewrite <- E', Hel in Helx. injection Helx as <-.
    by apply (registered_inj s l x node e e Hwf (inv_registered _ _ Hinv)). }
  rewrite (placement_rule_ext _ _ _ _ _ Hoth) in HinvA.
  rewrite HlenA1 in HinvA, HwA.
  exists sA, sB.
  split; [unfold bind; by rewrite HrunA1|].
  split; [unfold bind; by rewrite HrunB|].
  split; [exact HinvA|]. split; [exact HinvB|].
  split.
  { rewrite HelA, HelA1, HelB. by rewrite list_insert_insert_eq. }
  split; [|lia].
  unfold elemRefs. apply fmap_placement.
  - intros x Hx. apply HLlt in Hx as (Hxl & _ & _).
    destruct (wf_elems _ _ Hwf _ Hxl) as [ex Hex].
    apply elemOf_Some in Hex as (ndx & Hndx & _).
    destruct (HfrA1 _ _ Hndx) as (ndx1 & Hndx1 & E1).
    destruct (HfrA _ _ Hndx1) as (ndx2 & Hndx2 & E2).
    destruct (HfrB _ _ Hndx) as (ndx3 & Hndx3 & E3).
    rewrite Hndx2, Hndx3. simpl. congruence.
  - by rewrite HwA, HwB.
Qed.

Lemma MoveAfter_concurrent_converge_witness :
  Inv three_elements [0; 1; 2; 3]%nat /\
  nodeMapByCreatedAt three_elements !! Key (ticketAt 2) = Some 2%nat /\
  nodeMapByCreatedAt three_elements !! Key (ticketAt 3) = Some 3%nat /\
  nodeMapByCreatedAt three_elements !! Key (ticketAt 1) = Some 1%nat /\
  elemOf three_elements 1%nat = Some (NewPrimitive "0" (ticketAt 1)) /\
  exists sA sB,
    (let* _ := MoveAfter (ticketAt 2) (ticketAt 1) (ticketAt 8) in
     MoveAfter (ticketAt 3) (ticketAt 1) (ticketAt 9)) three_elements = Done tt sA /\
    (let* _ := MoveAfter (ticketAt 3) (ticketAt 1) (ticketAt 9) in
     MoveAfter (ticketAt 2) (ticketAt 1) (ticketAt 8)) three_elements = Done tt sB /\
    elems sA = elems sB.
Proof.
  assert (H0 : Inv three_elements [0; 1; 2; 3]%nat)
    by (apply invb_sound; vm_compute; reflexivity).
  assert (H1 : nodeMapByCreatedAt three_elements !! Key (ticketAt 2) = Some 2%nat)
    by (vm_compute; reflexivity).
  assert (H2 : nodeMapByCreatedAt three_elements !! Key (ticketAt 3) = Some 3%nat)
    by (vm_compute; reflexivity).
  assert (H3 : nodeMapByCreatedAt three_elements !! Key (ticketAt 1) = Some 1%nat)
    by (vm_compute; reflexivity).
  assert (H4 : elemOf three_elements 1%nat = Some (NewPrimitive "0" (ticketAt 1)))
    by (vm_compute; reflexivity).
  split; [exact H0|]. split; [exact H1|]. split; [exact H2|]. split; [exact H3|].
  split; [exact H4|].
  destruct (MoveAfter_concurrent_converge three_elements _ (ticketAt 2) (ticketAt 3)
              (ticketAt 1) (ticketAt 8) (ticketAt 9) 2%nat 3%nat 1%nat _
              H0 H1 H2 H3 H4)
    as (sA & sB & HA & HB & _ & _ & Hel & _).
  - reflexivity.
  - reflexivity.
  - vm_compute. reflexivity.
  - discriminate.
  - discriminate.
  - exists sA, sB. split; [exact HA|]. split; [exact HB|exact Hel].
Defined.
